(** * ttsEdge_API: the text moderation pipeline

    A shallow embedding of the components of the repository that
    moderate and queue the chat texts, and the properties their
    specification states:

    - [FilterManager] (src/filters/filters.ts),
    - [ConfigurableReplacer] (src/controllers/ConfigurableReplacer.ts),
    - [SpamCleaner] (src/filters/spam-cleaner.ts),
    - the webhook payload helpers (src/utils/index.ts),
    - [MessageQueue] (src/services/messageQueue.ts).

    JavaScript strings are sequences of UTF-16 code units.  The model
    takes the code units in the range U+0000..U+00FF, which is exactly
    what [ascii] holds; on that range [trim], [toLowerCase] and the
    regular-expression character classes below are the ECMAScript ones.
    Dates are their time value, an integer number of milliseconds.
    Objects are their own properties, with their prototype where the
    program depends on it. *)

From Stdlib Require Import Ascii String DecimalString List ZArith Bool Arith Lia
  Sorted Permutation.
Import ListNotations.

Open Scope Z_scope.

(* ================================================================== *)
(** * JavaScript strings *)

Module JS.

Definition JSString := list ascii.

(** A string literal of the source. *)
Definition str (s : string) : JSString := list_ascii_of_string s.

Definition code (c : ascii) : N := N_of_ascii c.

(** [WhiteSpace] and [LineTerminator] code points below U+0100: TAB, LF,
    VT, FF, CR, SPACE and NO-BREAK SPACE.  This is the set [trim] strips
    and the class [\s] matches. *)
Definition isWhiteSpace (c : ascii) : bool :=
  let n := code c in
  ((9 <=? n) && (n <=? 13) || (n =? 32) || (n =? 160))%N.

(** Line terminators below U+0100: LF and CR; [.] matches anything else. *)
Definition isLineTerminator (c : ascii) : bool :=
  let n := code c in ((n =? 10) || (n =? 13))%N.

(** [String.prototype.toLowerCase] on one code unit: A-Z and the Latin-1
    capitals U+00C0..U+00DE (without the multiplication sign U+00D7). *)
Definition lowerChar (c : ascii) : ascii :=
  let n := code c in
  if ((65 <=? n) && (n <=? 90)
      || (192 <=? n) && (n <=? 222) && negb (n =? 215))%N
  then ascii_of_N (n + 32) else c.

(** The regular-expression [Canonicalize] of the [i] flag on one code
    unit: a-z and the Latin-1 small letters U+00E0..U+00FE (without the
    division sign U+00F7) go to their capitals; every other unit of the
    range is only equal to itself after canonicalisation. *)
Definition canonChar (c : ascii) : ascii :=
  let n := code c in
  if ((97 <=? n) && (n <=? 122)
      || (224 <=? n) && (n <=? 254) && negb (n =? 247))%N
  then ascii_of_N (n - 32) else c.

Definition toLowerCase (s : JSString) : JSString := map lowerChar s.

Fixpoint trimStart (s : JSString) : JSString :=
  match s with
  | c :: s' => if isWhiteSpace c then trimStart s' else s
  | [] => []
  end.

Definition trimEnd (s : JSString) : JSString := rev (trimStart (rev s)).

Definition trim (s : JSString) : JSString := trimEnd (trimStart s).

(** [a === b] on strings. *)
Fixpoint eqb (a b : JSString) : bool :=
  match a, b with
  | [], [] => true
  | x :: a', y :: b' => Ascii.eqb x y && eqb a' b'
  | _, _ => false
  end.

Fixpoint startsWith (s p : JSString) {struct p} : bool :=
  match p with
  | [] => true
  | x :: p' =>
      match s with
      | y :: s' => Ascii.eqb x y && startsWith s' p'
      | [] => false
      end
  end.

(** [s.includes(p)]: [p] occurs in [s] as a substring. *)
Fixpoint includes (s p : JSString) : bool :=
  startsWith s p ||
  match s with
  | [] => false
  | _ :: s' => includes s' p
  end.

(** [s.substring(from, to)]: both indices are clamped to [0, length]
    and swapped when out of order. *)
Definition substring (s : JSString) (from to : Z) : JSString :=
  let len := Z.of_nat (length s) in
  let a := Z.min (Z.max from 0) len in
  let b := Z.min (Z.max to 0) len in
  let lo := Z.min a b in
  let hi := Z.max a b in
  firstn (Z.to_nat (hi - lo)) (skipn (Z.to_nat lo) s).

(** [words.slice(from, to)] for indices that are not negative. *)
Definition slice {A} (l : list A) (from to : nat) : list A :=
  firstn (to - from) (skipn from l).

(** [parts.join(sep)]. *)
Fixpoint join (sep : JSString) (parts : list JSString) : JSString :=
  match parts with
  | [] => []
  | [p] => p
  | p :: rest => p ++ sep ++ join sep rest
  end.

(** ** Objects *)

(** An array index: the canonical decimal text of a whole number below
    2^32 - 1, so without a leading zero unless it is the text 0. *)
Definition digitValue (c : ascii) : option N :=
  let n := code c in
  if ((48 <=? n) && (n <=? 57))%N then Some (n - 48)%N else None.

Fixpoint decimalValue (acc : N) (s : JSString) : option N :=
  match s with
  | [] => Some acc
  | c :: s' =>
      match digitValue c with
      | Some d => decimalValue (10 * acc + d)%N s'
      | None => None
      end
  end.

Definition canonicalNumber (key : JSString) : option N :=
  match key with
  | [] => None
  | c :: rest =>
      match rest with
      | _ :: _ => if Ascii.eqb c "0" then None else decimalValue 0 key
      | [] => decimalValue 0 key
      end
  end.

Definition arrayIndex (key : JSString) : option N :=
  match canonicalNumber key with
  | Some n => if (n <? 4294967295)%N then Some n else None
  | None => None
  end.

Definition isArrayIndex (key : JSString) : bool :=
  match arrayIndex key with
  | Some _ => true
  | None => false
  end.

(** The own properties of an object are a list of keys with their
    values, in the order the properties were created.  Defining a
    property that is there gives it the new value where it stands;
    defining one that is not there creates it behind the others. *)
Fixpoint defineProperty {V} (key : JSString) (value : V)
    (props : list (JSString * V)) : list (JSString * V) :=
  match props with
  | [] => [(key, value)]
  | (k, v) :: props' =>
      if eqb k key then (k, value) :: props'
      else (k, v) :: defineProperty key value props'
  end.

(** The own property [key]. *)
Fixpoint getOwn {V} (key : JSString) (props : list (JSString * V))
    : option V :=
  match props with
  | [] => None
  | (k, v) :: props' => if eqb k key then Some v else getOwn key props'
  end.

Definition hasOwn {V} (key : JSString) (props : list (JSString * V)) : bool :=
  match getOwn key props with
  | Some _ => true
  | None => false
  end.

(** The own properties of the object that a sequence of property
    definitions builds. *)
Definition object {V} (definitions : list (JSString * V))
    : list (JSString * V) :=
  fold_left (fun props e => defineProperty (fst e) (snd e) props)
            definitions [].

(** [a] comes before [b] among the array indices. *)
Definition indexBefore (a b : JSString) : bool :=
  match arrayIndex a, arrayIndex b with
  | Some x, Some y => (x <? y)%N
  | _, _ => false
  end.

Fixpoint insertIndex {V} (e : JSString * V) (sorted : list (JSString * V))
    : list (JSString * V) :=
  match sorted with
  | [] => [e]
  | e' :: sorted' =>
      if indexBefore (fst e) (fst e') then e :: sorted
      else e' :: insertIndex e sorted'
  end.

(** [Object.entries(o)] of the object the definitions build: the
    properties whose key is an array index in ascending order of the
    index, then the others in the order they were created. *)
Definition entries {V} (definitions : list (JSString * V))
    : list (JSString * V) :=
  let props := object definitions in
  fold_right insertIndex [] (filter (fun e => isArrayIndex (fst e)) props)
  ++ filter (fun e => negb (isArrayIndex (fst e))) props.

(** The prototype of an object: [Object.prototype], as an object
    literal and a parsed text give it, [null], or a value that the
    [__proto__] setter has put there, which is an object or an array. *)
Inductive Proto (A : Type) :=
| ObjectPrototype
| NullPrototype
| Inherits (parent : A).

Arguments ObjectPrototype {A}.
Arguments NullPrototype {A}.
Arguments Inherits {A} parent.

(** A value: [undefined], [null], a boolean, a number, a string, an
    array or an object.  The numbers are whole numbers; nothing below
    looks into a number.  The properties of an object are listed as
    [Object.entries] and [for ... in] visit them. *)
#[warnings="-register-all"] Inductive Value :=
| VUndefined
| VNull
| VBoolean (b : bool)
| VNumber (n : Z)
| VString (s : JSString)
| VArray (items : list Value)
| VObject (proto : Proto Value) (props : list (JSString * Value)).

(** [typeof v === 'object']. *)
Definition isObjectType (v : Value) : bool :=
  match v with
  | VNull | VArray _ | VObject _ _ => true
  | _ => false
  end.

(** The property name of the index [i] of an array. *)
Definition indexKey (i : nat) : JSString :=
  str (NilEmpty.string_of_uint (Nat.to_uint i)).

(** The indices of an array as [for ... in] visits them, with the
    elements. *)
Definition indexed (items : list Value) : list (JSString * Value) :=
  combine (map indexKey (seq 0 (length items))) items.

(** Looking [__proto__] up from the value [v] on finds the accessor of
    [Object.prototype]: no object on the way has an own property of
    that name, and the chain does not end in [null].  An array has its
    indices and [length] and is followed by [Array.prototype], which is
    followed by [Object.prototype]. *)
Fixpoint findsProtoAccessor (v : Value) : bool :=
  match v with
  | VObject proto props =>
      if hasOwn (str "__proto__") props then false
      else match proto with
           | ObjectPrototype => true
           | NullPrototype => false
           | Inherits parent => findsProtoAccessor parent
           end
  | VArray _ => true
  | _ => false
  end.

(** An object under construction: its prototype and its own
    properties. *)
Definition Obj := (Proto Value * list (JSString * Value))%type.

(** The object literal [{}]. *)
Definition emptyObject : Obj := (ObjectPrototype, []).

(** [o[key] = value] on an object whose properties are all writable
    data properties.  When the key is [__proto__] and the accessor of
    [Object.prototype] is found, its setter runs: an object, an array
    or [null] becomes the prototype, any other value is ignored, and no
    property is created.  In every other case the own property is
    defined. *)
Definition assign (o : Obj) (key : JSString) (value : Value) : Obj :=
  let (proto, props) := o in
  if eqb key (str "__proto__") && findsProtoAccessor (VObject proto props)
  then
    match value with
    | VObject _ _ | VArray _ => (Inherits value, props)
    | VNull => (NullPrototype, props)
    | _ => (proto, props)
    end
  else (proto, defineProperty key value props).

End JS.

Import JS.

(** A [Date], as its time value in milliseconds. *)
Definition Date := Z.

(* ================================================================== *)
(** * FilterManager (src/filters/filters.ts) *)

Module FilterManager.

(** A timed deny entry [{ item, expiresAt }]; [expiresAt] may be [null]. *)
Record TimedItem := mkTimed {
  item : JSString;
  expiresAt : option Date
}.

(** An element of [blackList]: [string | { item, expiresAt }]. *)
Inductive BlackItem :=
| BString (s : JSString)
| BTimed (t : TimedItem).

Record Filter := mkFilter {
  id : JSString;
  blackList : list BlackItem;
  whiteList : list JSString;
  createdAt : Date;
  updatedAt : Date;
  isActive : bool
}.

(** [CheckOptions]: every field is optional. *)
Record CheckOptions := mkOptions {
  caseSensitive : option bool;
  exactMatch : option bool;
  partialMatch : option bool
}.

(** The default argument [options = {}]. *)
Definition noOptions : CheckOptions := mkOptions None None None.

Inductive Reason := blacklist | whitelist | none.

(** The text [`Blocked until ${expiresAt.toLocaleString()}`], kept as the
    date it is rendered from. *)
Inductive ExpirationReason := BlockedUntil (d : Date).

Record CheckResult := mkResult {
  isAllowed : bool;
  isBlocked : bool;
  matchedBlackList : list BlackItem;
  matchedWhiteList : list JSString;
  reason : Reason;
  expirationReason : option ExpirationReason
}.

(** The manager: the in-memory table [this.filters] and the writes
    [saveFilters] has issued to the data storage, latest first. *)
Record Manager := mkManager {
  filters : list Filter;
  saved : list (list Filter)
}.

Definition normalizeItem (i : BlackItem) : JSString :=
  match i with
  | BString s => trim s
  | BTimed t => trim (item t)
  end.

(** [item.expiresAt !== null && new Date() > item.expiresAt], with [now]
    the clock reading of [new Date()]. *)
Definition isItemExpired (now : Date) (t : TimedItem) : bool :=
  match expiresAt t with
  | None => false
  | Some e => e <? now
  end.

(** [typeof item !== 'string' && this.isItemExpired(item)]. *)
Definition expiredEntry (now : Date) (i : BlackItem) : bool :=
  match i with
  | BString _ => false
  | BTimed t => isItemExpired now t
  end.

Definition saveFilters (m : Manager) : Manager :=
  mkManager (filters m) (filters m :: saved m).

Definition setBlackList (f : Filter) (bl : list BlackItem) : Filter :=
  mkFilter (id f) bl (whiteList f) (createdAt f) (updatedAt f) (isActive f).

Definition setWhiteList (f : Filter) (wl : list JSString) : Filter :=
  mkFilter (id f) (blackList f) wl (createdAt f) (updatedAt f) (isActive f).

Definition setUpdatedAt (f : Filter) (d : Date) : Filter :=
  mkFilter (id f) (blackList f) (whiteList f) (createdAt f) d (isActive f).

Definition setIsActive (f : Filter) (b : bool) : Filter :=
  mkFilter (id f) (blackList f) (whiteList f) (createdAt f) (updatedAt f) b.

(** One iteration of the [forEach] of the sweep: the filter after it and
    whether it set [changed]. *)
Definition cleanFilter (now : Date) (f : Filter) : Filter * bool :=
  let kept := filter (fun i => negb (expiredEntry now i)) (blackList f) in
  if (length kept <? length (blackList f))%nat
  then (setUpdatedAt (setBlackList f kept) now, true)
  else (setBlackList f kept, false).

(** [cleanExpiredBlacklistItems]. *)
Definition cleanExpiredBlacklistItems (now : Date) (m : Manager) : Manager :=
  let swept := map (cleanFilter now) (filters m) in
  let changed := existsb snd swept in
  let m' := mkManager (map fst swept) (saved m) in
  if changed then saveFilters m' else m'.

(** [createFilter]: the manager after the call and the filter returned. *)
Definition createFilter (now : Date) (blackList whiteList : list JSString)
    (m : Manager) : Manager * Filter :=
  let newFilter :=
    mkFilter (str "default")
             (map (fun i => BString (trim i)) blackList)
             (map trim whiteList)
             now now true in
  (saveFilters (mkManager (filters m ++ [newFilter]) (saved m)), newFilter).

(** [this.filters.find(f => f.id === id)]. *)
Definition getFilter (i : JSString) (m : Manager) : option Filter :=
  find (fun f => eqb (id f) i) (filters m).

(** The object [find] returns is mutated in place: the first filter of
    the table with the id is replaced by its mutated version.  [None]
    when no filter has the id. *)
Fixpoint mutateFirst (i : JSString) (g : Filter -> Filter)
    (l : list Filter) : option (list Filter) :=
  match l with
  | [] => None
  | f :: l' =>
      if eqb (id f) i then Some (g f :: l')
      else option_map (cons f) (mutateFirst i g l')
  end.

(** The shape shared by the mutators: find, [return false] when absent,
    else mutate, stamp [updatedAt], save and [return true]. *)
Definition mutate (now : Date) (i : JSString) (g : Filter -> Filter)
    (m : Manager) : Manager * bool :=
  match mutateFirst i (fun f => setUpdatedAt (g f) now) (filters m) with
  | None => (m, false)
  | Some fs => (saveFilters (mkManager fs (saved m)), true)
  end.

(** [updateFilter]; an omitted list argument is [None]. *)
Definition updateFilter (now : Date) (i : JSString)
    (blackList whiteList : option (list JSString)) (m : Manager)
    : Manager * bool :=
  mutate now i
    (fun f =>
       let f1 := match blackList with
                 | Some bl => setBlackList f (map (fun x => BString (trim x)) bl)
                 | None => f
                 end in
       match whiteList with
       | Some wl => setWhiteList f1 (map trim wl)
       | None => f1
       end) m.

(** [self.findIndex(t => normalizeItem(t) === normalizeItem(value))]. *)
Fixpoint findIndex {A} (p : A -> bool) (l : list A) : option nat :=
  match l with
  | [] => None
  | x :: l' => if p x then Some 0%nat else option_map S (findIndex p l')
  end.

(** [self.filter((value, index, self) => index === self.findIndex(...))]
    as [addToBlackList] uses it; [index] counts from [k] over the
    remaining elements [l] of [self]. *)
Fixpoint dedupFrom (self : list BlackItem) (k : nat) (l : list BlackItem)
    : list BlackItem :=
  match l with
  | [] => []
  | value :: l' =>
      let first :=
        findIndex (fun t => eqb (normalizeItem t) (normalizeItem value)) self in
      match first with
      | Some j => if (k =? j)%nat then value :: dedupFrom self (S k) l'
                  else dedupFrom self (S k) l'
      | None => dedupFrom self (S k) l'
      end
  end.

Definition dedup (self : list BlackItem) : list BlackItem :=
  dedupFrom self 0 self.

(** The entries [addToBlackList] builds from [items]: [expiresInSeconds]
    is falsy when [null] or [0], and then the entry is a bare string. *)
Definition newBlackListItems (now : Date) (items : list JSString)
    (expiresInSeconds : option Z) : list BlackItem :=
  map (fun i =>
         match expiresInSeconds with
         | Some secs =>
             if secs =? 0 then BString (trim i)
             else BTimed (mkTimed (trim i) (Some (now + secs * 1000)))
         | None => BString (trim i)
         end) items.

Definition addToBlackList (now : Date) (i : JSString) (items : list JSString)
    (expiresInSeconds : option Z) (m : Manager) : Manager * bool :=
  mutate now i
    (fun f =>
       setBlackList f
         (dedup (blackList f ++ newBlackListItems now items expiresInSeconds)))
    m.

(** [addToWhiteList]: the new items are tested against the list as it is
    before the push, not against each other. *)
Definition addToWhiteList (now : Date) (i : JSString) (items : list JSString)
    (m : Manager) : Manager * bool :=
  mutate now i
    (fun f =>
       let newItems :=
         filter (fun x => negb (existsb (eqb x) (whiteList f)))
                (map trim items) in
       setWhiteList f (whiteList f ++ newItems)) m.

Definition removeFromBlackList (now : Date) (i : JSString)
    (items : list JSString) (m : Manager) : Manager * bool :=
  mutate now i
    (fun f =>
       setBlackList f
         (filter (fun blackItem =>
                    negb (existsb (fun removeItem =>
                                     eqb (normalizeItem blackItem)
                                         (trim removeItem)) items))
                 (blackList f))) m.

Definition removeFromWhiteList (now : Date) (i : JSString)
    (items : list JSString) (m : Manager) : Manager * bool :=
  mutate now i
    (fun f =>
       setWhiteList f
         (filter (fun whiteItem =>
                    negb (existsb (fun removeItem =>
                                     eqb whiteItem (trim removeItem)) items))
                 (whiteList f))) m.

(** [toggleFilter]; an omitted [isActive] argument is [None]. *)
Definition toggleFilter (now : Date) (i : JSString) (active : option bool)
    (m : Manager) : Manager * bool :=
  mutate now i
    (fun f =>
       setIsActive f
         (match active with Some b => b | None => negb (isActive f) end)) m.

(** [this.filters.splice(index, 1)] at the first index with the id. *)
Fixpoint removeFirst (i : JSString) (l : list Filter) : option (list Filter) :=
  match l with
  | [] => None
  | f :: l' =>
      if eqb (id f) i then Some l'
      else option_map (cons f) (removeFirst i l')
  end.

Definition deleteFilter (i : JSString) (m : Manager) : Manager * bool :=
  match removeFirst i (filters m) with
  | None => (m, false)
  | Some fs => (saveFilters (mkManager fs (saved m)), true)
  end.

(** ** checkString *)

(** The three accumulators of [checkString]. *)
Record Scan := mkScan {
  scanBlack : list BlackItem;
  scanWhite : list JSString;
  scanReason : option ExpirationReason
}.

Definition optCase (o : CheckOptions) : bool :=
  match caseSensitive o with Some b => b | None => false end.
Definition optExact (o : CheckOptions) : bool :=
  match exactMatch o with Some b => b | None => false end.
Definition optPartial (o : CheckOptions) : bool :=
  match partialMatch o with Some b => b | None => true end.

Definition processText (o : CheckOptions) (text : JSString) : JSString :=
  if optCase o then text else toLowerCase text.

(** [if (exactMatch) ... else if (partialMatch) ...], [matches] being
    [false] at the start. *)
Definition matches (o : CheckOptions) (processedText processedItem : JSString)
    : bool :=
  if optExact o then eqb processedText processedItem
  else if optPartial o then includes processedText processedItem
  else false.

Definition blackMatches (o : CheckOptions) (text : JSString) (i : BlackItem)
    : bool :=
  matches o (processText o text)
    (if optCase o then normalizeItem i else toLowerCase (normalizeItem i)).

Definition whiteMatches (o : CheckOptions) (text : JSString) (w : JSString)
    : bool :=
  matches o (processText o text) (if optCase o then w else toLowerCase w).

(** The body of the loop over [filter.blackList]. *)
Definition scanBlackItem (now : Date) (o : CheckOptions) (text : JSString)
    (st : Scan) (blackItem : BlackItem) : Scan :=
  if expiredEntry now blackItem then st
  else if blackMatches o text blackItem then
    mkScan (scanBlack st ++ [blackItem]) (scanWhite st)
      (match blackItem with
       | BTimed (mkTimed _ (Some e)) => Some (BlockedUntil e)
       | _ => scanReason st
       end)
  else st.

(** The body of the loop over [filter.whiteList]. *)
Definition scanWhiteItem (o : CheckOptions) (text : JSString)
    (st : Scan) (whiteItem : JSString) : Scan :=
  if whiteMatches o text whiteItem then
    mkScan (scanBlack st) (scanWhite st ++ [whiteItem]) (scanReason st)
  else st.

(** The body of the loop over the active filters. *)
Definition scanFilter (now : Date) (o : CheckOptions) (text : JSString)
    (st : Scan) (f : Filter) : Scan :=
  fold_left (scanWhiteItem o text) (whiteList f)
    (fold_left (scanBlackItem now o text) (blackList f) st).

Definition scanAll (now : Date) (o : CheckOptions) (text : JSString)
    (fs : list Filter) : Scan :=
  fold_left (scanFilter now o text) (filter isActive fs) (mkScan [] [] None).

Definition checkString (now : Date) (m : Manager) (text : JSString)
    (o : CheckOptions) : CheckResult :=
  let st := scanAll now o text (filters m) in
  if (0 <? length (scanWhite st))%nat then
    mkResult true false (scanBlack st) (scanWhite st) whitelist None
  else if (0 <? length (scanBlack st))%nat then
    mkResult false true (scanBlack st) (scanWhite st) blacklist (scanReason st)
  else
    mkResult true false (scanBlack st) (scanWhite st) none None.

(** ** The read-only operations *)

(** [isAllowed(text, options)] and [isBlocked(text, options)], which
    [isTextAllowed] and [isTextBlocked] export. *)
Definition isTextAllowed (now : Date) (m : Manager) (text : JSString)
    (o : CheckOptions) : bool :=
  isAllowed (checkString now m text o).

Definition isTextBlocked (now : Date) (m : Manager) (text : JSString)
    (o : CheckOptions) : bool :=
  isBlocked (checkString now m text o).

(** [getAllFilters(activeOnly)]. *)
Definition getAllFilters (activeOnly : bool) (m : Manager) : list Filter :=
  if activeOnly then filter isActive (filters m) else filters m.

(** The object [getStats] returns. *)
Record Stats := mkStats {
  totalFilters : nat;
  activeFilters : nat;
  inactiveFilters : nat;
  totalBlackListItems : nat;
  totalWhiteListItems : nat
}.

(** [typeof item === 'string' || !this.isItemExpired(item)]. *)
Definition counted (now : Date) (i : BlackItem) : bool :=
  match i with
  | BString _ => true
  | BTimed t => negb (isItemExpired now t)
  end.

(** [getStats]; the two [reduce] calls sum from 0. *)
Definition getStats (now : Date) (m : Manager) : Stats :=
  let totalFilters := length (filters m) in
  let activeFilters := length (filter isActive (filters m)) in
  mkStats totalFilters activeFilters (totalFilters - activeFilters)
    (fold_left
       (fun sum f => (sum + length (filter (counted now) (blackList f)))%nat)
       (filters m) 0%nat)
    (fold_left (fun sum f => (sum + length (whiteList f))%nat)
       (filters m) 0%nat).

(** [clearAll]. *)
Definition clearAll (m : Manager) : Manager :=
  saveFilters (mkManager [] (saved m)).

(** [searchFilters(query)]. *)
Definition searchFilters (query : JSString) (m : Manager) : list Filter :=
  let lowerQuery := toLowerCase query in
  filter
    (fun f =>
       existsb (fun i => includes (toLowerCase (normalizeItem i)) lowerQuery)
               (blackList f)
       || existsb (fun w => includes (toLowerCase w) lowerQuery) (whiteList f))
    (filters m).

End FilterManager.

(* ================================================================== *)
(** * Regular expressions

    The expressions of the source are written in the abstract syntax
    below and run by a backtracking matcher that follows the ECMAScript
    matching semantics: alternatives and greedy quantifiers are tried in
    priority order against a continuation. *)

Module RegExp.

Inductive CharClass :=
| Dot                 (** [.] *)
| Space               (** [\s] *)
| NotSpace            (** [[^\s]] *)
| WordChar            (** [[a-zA-Z0-9_]] *)
| Lit (c : ascii).    (** a pattern character *)

Inductive Regex :=
| Eps
| Chr (cc : CharClass)
| Seq (r1 r2 : Regex)
| Alt (r1 r2 : Regex)
| Rep (min : nat) (max : option nat) (r : Regex)   (** greedy [r{min,max}] *)
| Group (n : nat) (r : Regex)                      (** capture group [n] *)
| Backref (n : nat).                               (** [\n] *)

Definition Star (r : Regex) : Regex := Rep 0 None r.
Definition Plus (r : Regex) : Regex := Rep 1 None r.
Definition Opt (r : Regex) : Regex := Rep 0 (Some 1%nat) r.

(** The pattern characters [s] in a row. *)
Fixpoint Lits (s : JSString) : Regex :=
  match s with
  | [] => Eps
  | [c] => Chr (Lit c)
  | c :: s' => Seq (Chr (Lit c)) (Lits s')
  end.

Definition isWordChar (c : ascii) : bool :=
  let n := code c in
  ((97 <=? n) && (n <=? 122) || (65 <=? n) && (n <=? 90)
   || (48 <=? n) && (n <=? 57) || (n =? 95))%N.

(** [i] is the [i] flag. *)
Definition charMatches (i : bool) (cc : CharClass) (c : ascii) : bool :=
  match cc with
  | Dot => negb (isLineTerminator c)
  | Space => isWhiteSpace c
  | NotSpace => negb (isWhiteSpace c)
  | WordChar => isWordChar c
  | Lit p => if i then Ascii.eqb (canonChar c) (canonChar p) else Ascii.eqb c p
  end.

Definition Captures := list (nat * JSString).

Definition getCapture (n : nat) (caps : Captures) : option JSString :=
  option_map snd (find (fun e => (fst e =? n)%nat) caps).

Definition setCapture (n : nat) (v : JSString) (caps : Captures) : Captures :=
  (n, v) :: filter (fun e => negb (fst e =? n)%nat) caps.

(** The capture groups of an expression; a quantifier resets the groups
    of its body at every iteration. *)
Fixpoint groups (r : Regex) : list nat :=
  match r with
  | Eps | Chr _ | Backref _ => []
  | Seq r1 r2 | Alt r1 r2 => groups r1 ++ groups r2
  | Rep _ _ r1 => groups r1
  | Group n r1 => n :: groups r1
  end.

Definition clearCaptures (ns : list nat) (caps : Captures) : Captures :=
  filter (fun e => negb (existsb (Nat.eqb (fst e)) ns)) caps.

(** The captured text [t] at the front of [s]; the remaining input. *)
Fixpoint matchText (i : bool) (t s : JSString) {struct t} : option JSString :=
  match t with
  | [] => Some s
  | x :: t' =>
      match s with
      | y :: s' => if charMatches i (Lit x) y then matchText i t' s' else None
      | [] => None
      end
  end.

(** A match state: the input that is left and the captures. *)
Definition State := (JSString * Captures)%type.
Definition Cont := JSString -> Captures -> option State.

(** The [RepeatMatcher] of a greedy quantifier with the matcher [body]
    of its operand: with [max] at zero it goes on with [k]; else it
    tries one more iteration, which fails when it is not required and
    consumes nothing, and goes on with [k] when that fails and no
    iteration is required any more.  Every iteration lowers [min] or
    shortens the input, so [min + length s] of them are all there can
    be, which is the [fuel] the matcher starts it with. *)
Fixpoint repeatMatcher (body : JSString -> Captures -> Cont -> option State)
    (k : Cont) (fuel min : nat) (max : option nat) (s : JSString)
    (caps : Captures) {struct fuel} : option State :=
  match max with
  | Some O => k s caps
  | _ =>
      match fuel with
      | O => if (min =? 0)%nat then k s caps else None
      | S fuel' =>
          let d s1 caps1 :=
            if (min =? 0)%nat && (length s <=? length s1)%nat then None
            else repeatMatcher body k fuel' (pred min) (option_map pred max)
                   s1 caps1 in
          match body s caps d with
          | Some res => Some res
          | None => if (min =? 0)%nat then k s caps else None
          end
      end
  end.

(** [m i r s caps k]: match [r] at the front of [s], then the
    continuation [k] on what is left. *)
Fixpoint m (i : bool) (r : Regex) (s : JSString) (caps : Captures) (k : Cont)
    {struct r} : option State :=
  match r with
  | Eps => k s caps
  | Chr cc =>
      match s with
      | c :: s' => if charMatches i cc c then k s' caps else None
      | [] => None
      end
  | Seq r1 r2 => m i r1 s caps (fun s1 caps1 => m i r2 s1 caps1 k)
  | Alt r1 r2 =>
      match m i r1 s caps k with
      | Some res => Some res
      | None => m i r2 s caps k
      end
  | Group n r1 =>
      m i r1 s caps
        (fun s1 caps1 =>
           k s1 (setCapture n (firstn (length s - length s1) s) caps1))
  | Backref n =>
      match getCapture n caps with
      | None => k s caps
      | Some t =>
          match matchText i t s with
          | Some s1 => k s1 caps
          | None => None
          end
      end
  | Rep min max r1 =>
      repeatMatcher
        (fun s1 caps1 d => m i r1 s1 (clearCaptures (groups r1) caps1) d)
        k (min + length s)%nat min max s caps
  end.

(** The continuation that ends a match. *)
Definition accept : Cont := fun s1 caps1 => Some (s1, caps1).

(** A match attempt at the front of [s]. *)
Definition matchAt (i : bool) (r : Regex) (s : JSString) : option State :=
  m i r s [] accept.

(** [s.match(r)] for [r] with the [g] flag: the matched texts from left
    to right ([null] is the empty list).  After a match of [n] units the
    scan resumes behind it; after an empty match, one unit further.
    [skip] counts the units of the current match still to pass. *)
Fixpoint matchLoop (i : bool) (r : Regex) (skip : nat) (s : JSString)
    : list JSString :=
  match skip, s with
  | S k, _ :: s' => matchLoop i r k s'
  | S _, [] => []
  | O, _ =>
      match matchAt i r s with
      | Some (rest, _) =>
          let n := (length s - length rest)%nat in
          firstn n s ::
          match s with
          | [] => []
          | _ :: s' => matchLoop i r (n - 1) s'
          end
      | None =>
          match s with
          | [] => []
          | _ :: s' => matchLoop i r 0 s'
          end
      end
  end.

Definition matchAll (i : bool) (r : Regex) (s : JSString) : list JSString :=
  matchLoop i r 0 s.

(** [r.exec(s)] for [r] with the [g] flag, [s] being the subject from
    [lastIndex] on: the first match that starts there or further on, as
    the matched text and the subject from the new [lastIndex] on, which
    is the end of the match.  [None] is [null]. *)
Fixpoint exec (i : bool) (r : Regex) (s : JSString)
    : option (JSString * JSString) :=
  match matchAt i r s with
  | Some (rest, _) => Some (firstn (length s - length rest) s, rest)
  | None =>
      match s with
      | [] => None
      | _ :: s' => exec i r s'
      end
  end.

(** What a replacement is computed from: the matched text, the
    captures, the text before the match and the text after it. *)
Definition Replacer := JSString -> Captures -> JSString -> JSString -> JSString.

(** [s.replace(r, f)] for [r] with the [g] flag; [before] is the part of
    the subject already passed. *)
Fixpoint replaceLoop (i : bool) (r : Regex) (f : Replacer)
    (before : JSString) (skip : nat) (s : JSString) : JSString :=
  match skip, s with
  | S k, c :: s' => replaceLoop i r f (before ++ [c]) k s'
  | S _, [] => []
  | O, _ =>
      match matchAt i r s with
      | Some (rest, caps) =>
          let n := (length s - length rest)%nat in
          f (firstn n s) caps before rest ++
          match s with
          | [] => []
          | c :: s' =>
              if (n =? 0)%nat
              then c :: replaceLoop i r f (before ++ [c]) 0 s'
              else replaceLoop i r f (before ++ [c]) (n - 1) s'
          end
      | None =>
          match s with
          | [] => []
          | c :: s' => c :: replaceLoop i r f (before ++ [c]) 0 s'
          end
      end
  end.

Definition replaceWith (i : bool) (r : Regex) (f : Replacer) (s : JSString)
    : JSString :=
  replaceLoop i r f [] 0 s.

(** [GetSubstitution] for an expression without capture groups: [$$],
    [$&], [$`] and [$'] are expanded, any other [$] stays as it is. *)
Fixpoint getSubstitution (matched before after template : JSString)
    : JSString :=
  match template with
  | [] => []
  | c :: t =>
      if Ascii.eqb c "$" then
        match t with
        | [] => [c]
        | d :: t' =>
            if Ascii.eqb d "$" then
              c :: getSubstitution matched before after t'
            else if Ascii.eqb d "&" then
              matched ++ getSubstitution matched before after t'
            else if Ascii.eqb d "`" then
              before ++ getSubstitution matched before after t'
            else if Ascii.eqb d "'" then
              after ++ getSubstitution matched before after t'
            else c :: getSubstitution matched before after t
        end
      else c :: getSubstitution matched before after t
  end.

(** [s.replace(r, template)] for [r] with the [g] flag and without
    capture groups. *)
Definition replace (i : bool) (r : Regex) (template : JSString) (s : JSString)
    : JSString :=
  replaceWith i r
    (fun matched _ before after =>
       getSubstitution matched before after template) s.

(** [s.split(r)] for [r] without capture groups.  [cur] is the piece
    being collected; a separator that is empty at the start of a piece
    does not split. *)
Fixpoint splitLoop (i : bool) (r : Regex) (cur : JSString) (skip : nat)
    (s : JSString) : list JSString :=
  match s with
  | [] => [cur]
  | c :: s' =>
      match skip with
      | S k => splitLoop i r cur k s'
      | O =>
          match matchAt i r s with
          | Some (rest, _) =>
              let n := (length s - length rest)%nat in
              if (n =? 0)%nat then
                match cur with
                | [] => splitLoop i r [c] 0 s'
                | _ => cur :: splitLoop i r [c] 0 s'
                end
              else cur :: splitLoop i r [] (n - 1) s'
          | None => splitLoop i r (cur ++ [c]) 0 s'
          end
      end
  end.

Definition split (i : bool) (r : Regex) (s : JSString) : list JSString :=
  match s with
  | [] => match matchAt i r [] with Some _ => [] | None => [[]] end
  | _ => splitLoop i r [] 0 s
  end.

End RegExp.

(* ================================================================== *)
(** * ConfigurableReplacer (src/controllers/ConfigurableReplacer.ts) *)

Module ConfigurableReplacer.

Import RegExp.

Record ReplacementOption := mkOption {
  dataKey : JSString;
  defaultValue : JSString
}.

(** [ReplacementConfig]: the patterns with their options as the mapping
    declares them, one property definition after the other.  The
    properties they give the object are [object] of them, and
    [Object.entries] lists them as [entries]. *)
Definition ReplacementConfig := list (JSString * ReplacementOption).

(** The part of [Config] the replacement reads. *)
Record Config := mkConfig {
  replacements : ReplacementConfig;
  removeBackslashes : bool
}.

(** A number that [Number.isSafeInteger] holds of: a whole number
    between -(2^53 - 1) and 2^53 - 1, which [String] prints as its
    decimal digits. *)
Record SafeInteger := mkSafe {
  integer : Z;
  isSafe : (Z.abs integer <=? 9007199254740991) = true
}.

(** What [data[dataKey]] reads.  An own property of the data is a
    [string | number | undefined], the numbers being safe integers.
    The data is a plain object, so a key that is not its own reads the
    property of [Object.prototype] with that name when there is one: a
    built-in function or, under [__proto__], that prototype. *)
Inductive DataValue :=
| DString (s : JSString)
| DNumber (n : SafeInteger)
| DUndefined
| DBuiltin (key : JSString).

(** [ReplacementData]: the properties of the data as they were
    defined. *)
Definition ReplacementData := list (JSString * DataValue).

(** The property names of [Object.prototype]. *)
Definition objectPrototypeKeys : list JSString :=
  [ str "constructor"; str "__defineGetter__"; str "__defineSetter__";
    str "hasOwnProperty"; str "__lookupGetter__"; str "__lookupSetter__";
    str "isPrototypeOf"; str "propertyIsEnumerable"; str "toString";
    str "valueOf"; str "__proto__"; str "toLocaleString" ].

(** [data[dataKey]]: the own property, else the inherited one, else
    [undefined]. *)
Definition get (data : ReplacementData) (key : JSString) : DataValue :=
  match getOwn key (object data) with
  | Some v => v
  | None =>
      if existsb (eqb key) objectPrototypeKeys then DBuiltin key
      else DUndefined
  end.

Definition opt (k d : string) : ReplacementOption := mkOption (str k) (str d).

Definition getDefaultReplacements : ReplacementConfig :=
  [ (str "uniqueId", opt "uniqueId" "testUser");
    (str "uniqueid", opt "uniqueId" "testUser");
    (str "nickname", opt "nickname" "testUser");
    (str "comment", opt "comment" "testComment");
    (str "content", opt "content" "testMessage");
    (str "{milestoneLikes}", opt "likeCount" "50testLikes");
    (str "{likes}", opt "likeCount" "50testLikes");
    (str "message", opt "comment" "testcomment");
    (str "giftName", opt "giftName" "testgiftName");
    (str "giftname", opt "giftName" "testgiftName");
    (str "repeatCount", opt "repeatCount" "123");
    (str "repeatcount", opt "repeatCount" "123");
    (str "playername", opt "playerName" "@a");
    (str "diamonds", opt "diamondCount" "50testDiamonds");
    (str "likecount", opt "likeCount" "50testLikes");
    (str "followRole", opt "followRole" "followRole 0");
    (str "userId", opt "userId" "1235646");
    (str "teamMemberLevel", opt "teamMemberLevel" "teamMemberLevel 0");
    (str "subMonth", opt "subMonth" "subMonth 0");
    (str "user", mkOption (str "user") []);
    (str "msg", mkOption (str "msg") []) ].

(** [new ConfigurableReplacer()]. *)
Definition defaultConfig : Config := mkConfig getDefaultReplacements true.

(** [new RegExp(this.escapeRegExp(pattern), "g")]: [escapeRegExp] puts
    a backslash before every character that has a meaning in an
    expression, so the expression is the characters of [pattern]. *)
Definition patternRegex (pattern : JSString) : Regex := Lits pattern.

(** [str.replace(/\\/g, '')]: every backslash is removed. *)
Definition stripBackslashes (s : JSString) : JSString :=
  RegExp.replace false (Chr (Lit "\")) [] s.

(** [ProcessableInput]. *)
Definition Input := Value.

(** [input.constructor === Object]: the object has no own property
    [constructor], and its prototype chain leads to [Object.prototype]
    without meeting one; an array on the chain is followed by
    [Array.prototype], whose [constructor] is [Array]. *)
Fixpoint constructorIsObject (input : Input) : bool :=
  match input with
  | VObject proto props =>
      if hasOwn (str "constructor") props then false
      else match proto with
           | ObjectPrototype => true
           | NullPrototype => false
           | Inherits parent => constructorIsObject parent
           end
  | _ => false
  end.

Record ReplacementMapping := mkMapping {
  original : JSString;
  mapDataKey : JSString;
  replaced : JSString
}.

(** [Map<string, ReplacementMapping>], in insertion order. *)
Definition ReplacementMap := list (JSString * ReplacementMapping).

(** [replacementMap.set(key, value)]. *)
Fixpoint mapSet (key : JSString) (value : ReplacementMapping)
    (mp : ReplacementMap) : ReplacementMap :=
  match mp with
  | [] => [(key, value)]
  | (k, v) :: mp' =>
      if eqb k key then (k, value) :: mp' else (k, v) :: mapSet key value mp'
  end.

(** [while ((match = trackingRegex.exec(text)) !== null) body]: [s] is
    the text from [lastIndex] on and [body] what one iteration does to
    the map.  [fuel] bounds the iterations that are run; [None] when
    the loop has not ended within them. *)
Fixpoint trackMatches (trackingRegex : Regex)
    (body : ReplacementMap -> ReplacementMap) (fuel : nat) (s : JSString)
    (mp : ReplacementMap) : option ReplacementMap :=
  match fuel with
  | O => None
  | S fuel' =>
      match exec false trackingRegex s with
      | Some (_, rest) => trackMatches trackingRegex body fuel' rest (body mp)
      | None => Some mp
      end
  end.

(** The state of the [forEach] of [replaceInStringWithTracking]. *)
Definition Tracking := (JSString * ReplacementMap)%type.

Section Platform.

(** [String(f)] of the built-in function that [Object.prototype] has
    under a key: a text that the implementation defines. *)
Variable functionSource : JSString -> JSString.

(** [String(v)]. *)
Definition toString (v : DataValue) : JSString :=
  match v with
  | DString s => s
  | DNumber n => str (NilEmpty.string_of_int (Z.to_int (integer n)))
  | DUndefined => str "undefined"
  | DBuiltin key =>
      if eqb key (str "__proto__") then str "[object Object]"
      else functionSource key
  end.

(** [String(data[dataKey] === undefined ? defaultValue : data[dataKey])]. *)
Definition replaceValue (data : ReplacementData) (o : ReplacementOption)
    : JSString :=
  match get data (dataKey o) with
  | DUndefined => defaultValue o
  | v => toString v
  end.

(** One step of the [forEach] of [replaceInString]. *)
Definition applyPattern (data : ReplacementData) (replacedText : JSString)
    (entry : JSString * ReplacementOption) : JSString :=
  let (pattern, options) := entry in
  RegExp.replace false (patternRegex pattern) (replaceValue data options)
    replacedText.

(** The [forEach] over an array of entries. *)
Definition applyPatterns (es : list (JSString * ReplacementOption))
    (data : ReplacementData) (text : JSString) : JSString :=
  fold_left (applyPattern data) es text.

Definition replaceInString (c : Config) (text : JSString)
    (data : ReplacementData) : JSString :=
  let replacedText := applyPatterns (entries (replacements c)) data text in
  if removeBackslashes c then stripBackslashes replacedText else replacedText.

Fixpoint processRecursively (c : Config) (input : Input)
    (data : ReplacementData) : Value :=
  match input with
  | VString s => VString (replaceInString c s data)
  | VArray items =>
      VArray (map (fun item => processRecursively c item data) items)
  | VObject proto props =>
      if constructorIsObject input then
        let result :=
          (fix each (l : list (JSString * Value)) (result : Obj) : Obj :=
             match l with
             | [] => result
             | (key, value) :: l' =>
                 each l' (assign result key (processRecursively c value data))
             end) props emptyObject in
        VObject (fst result) (snd result)
      else input
  | _ => input
  end.

(** [replace(input, data)]. *)
Definition replace (c : Config) (input : Input) (data : ReplacementData)
    : Value :=
  processRecursively c input data.

(** One step of the [forEach] of [replaceInStringWithTracking]: a [set]
    for every match of the pattern in the text as it was passed in,
    then the replacement in the current text. *)
Definition trackPattern (fuel : nat) (text : JSString)
    (data : ReplacementData) (st : option Tracking)
    (entry : JSString * ReplacementOption) : option Tracking :=
  let (pattern, options) := entry in
  match st with
  | None => None
  | Some (currentTextState, mp) =>
      let valueToReplaceWith := replaceValue data options in
      match
        trackMatches (patternRegex pattern)
          (mapSet valueToReplaceWith
             (mkMapping pattern (dataKey options) valueToReplaceWith))
          fuel text mp
      with
      | None => None
      | Some mp' =>
          Some (RegExp.replace false (patternRegex pattern) valueToReplaceWith
                  currentTextState, mp')
      end
  end.

(** [replaceInStringWithTracking]; [fuel] bounds the iterations of each
    of its [while] loops. *)
Definition replaceInStringWithTracking (fuel : nat) (c : Config)
    (text : JSString) (data : ReplacementData)
    (replacementMap : ReplacementMap) : option Tracking :=
  match fold_left (trackPattern fuel text data) (entries (replacements c))
          (Some (text, replacementMap)) with
  | None => None
  | Some (currentTextState, mp) =>
      Some (if removeBackslashes c then stripBackslashes currentTextState
            else currentTextState, mp)
  end.

End Platform.

End ConfigurableReplacer.

(* ================================================================== *)
(** * SpamCleaner (src/filters/spam-cleaner.ts) *)

Module SpamCleaner.

Import RegExp.

(** [Required<CleanerOptions>]; the two numbers are integers. *)
Record CleanerOptions := mkOptions {
  minRepetitions : Z;
  maxLength : Z;
  preserveSpacing : bool;
  caseSensitive : bool
}.

(** The defaults of the constructor. *)
Definition defaultOptions : CleanerOptions := mkOptions 3 200 true false.

(** [CleanerResult] without [reductionPercentage], a rounded
    floating-point quotient that no later step reads. *)
Record CleanerResult := mkResult {
  original : JSString;
  cleaned : JSString;
  wasSpam : bool;
  repetitionsFound : Z;
  pattern : option JSString
}.

Definition createResult (original cleaned : JSString) (wasSpam : bool)
    (repetitions : Z) (pattern : option JSString) : CleanerResult :=
  mkResult original cleaned wasSpam repetitions pattern.

Definition len (s : JSString) : Z := Z.of_nat (length s).

(** ** cleanUrls *)

Definition tlds : Regex :=
  Alt (Lits (str "com")) (Alt (Lits (str "net")) (Alt (Lits (str "org"))
  (Alt (Lits (str "edu")) (Alt (Lits (str "gov")) (Alt (Lits (str "mil"))
  (Alt (Lits (str "info")) (Alt (Lits (str "biz")) (Lits (str "tv"))))))))).

Definition notSpaces1 : Regex := Plus (Chr NotSpace).
Definition dot : Regex := Chr (Lit ".").

(** [/(https?:\/\/[^\s]+)/gi] *)
Definition reProtocol : Regex :=
  Group 1 (Seq (Lits (str "http")) (Seq (Opt (Chr (Lit "s")))
          (Seq (Lits (str "://")) notSpaces1))).

(** [/(www\.[^\s]+)/gi] *)
Definition reWww : Regex := Group 1 (Seq (Lits (str "www.")) notSpaces1).

(** [/([^\s]+\.(com|net|org|edu|gov|mil|info|biz|tv)(G3)?)/gi], where
    the optional third group [G3] is any run of [[^\s]], also empty. *)
Definition reTld : Regex :=
  Group 1 (Seq notSpaces1 (Seq dot (Seq (Group 2 tlds)
          (Opt (Group 3 (Star (Chr NotSpace))))))).

(** [/([^\s]+\.twitch\.[^\s]+)/gi] *)
Definition reTwitch : Regex :=
  Group 1 (Seq notSpaces1 (Seq (Lits (str ".twitch.")) notSpaces1)).

(** [/tmi\.twitch\.tv/gi] *)
Definition reTmi : Regex := Lits (str "tmi.twitch.tv").

(** [/#[a-zA-Z0-9_]+/g] *)
Definition reChannel : Regex := Seq (Chr (Lit "#")) (Plus (Chr WordChar)).

(** [/:[a-zA-Z0-9_]+\.[^\s]+/g] *)
Definition reColon : Regex :=
  Seq (Chr (Lit ":")) (Seq (Plus (Chr WordChar)) (Seq dot notSpaces1)).

(** [/\s+/g] *)
Definition reSpaces : Regex := Plus (Chr Space).

(** [text.replace(r, '')]: every match is removed. *)
Definition remove (i : bool) (r : Regex) (text : JSString) : JSString :=
  replaceWith i r (fun _ _ _ _ => []) text.

Definition cleanUrls (text : JSString) : JSString :=
  let text := remove true reProtocol text in
  let text := remove true reWww text in
  let text := remove true reTld text in
  let text := remove true reTwitch text in
  let text := remove true reTmi text in
  let text := remove false reChannel text in
  let text := remove false reColon text in
  trim (replaceWith false reSpaces (fun _ _ _ _ => str " ") text).

(** ** cleanRepeatedChars *)

(** [/(.)\1{2,}/g] *)
Definition reCharRun : Regex :=
  Seq (Group 1 (Chr Dot)) (Rep 2 None (Backref 1)).

(** The [for] loop over the matches: [maxRepetitions] and [spamChar]. *)
Definition scanMatch (o : CleanerOptions) (st : Z * JSString)
    (mt : JSString) : Z * JSString :=
  let (maxRepetitions, spamChar) := st in
  if minRepetitions o <=? len mt
  then (Z.max maxRepetitions (len mt), firstn 1 mt)
  else st.

(** The callback [(match, char) => ...] of the replacement. *)
Definition collapse (o : CleanerOptions) : Replacer :=
  fun mt caps _ _ =>
    if minRepetitions o <=? len mt then
      match getCapture 1 caps with
      | Some char => char ++ char
      | None => mt
      end
    else mt.

Definition cleanRepeatedChars (o : CleanerOptions) (text : JSString)
    : CleanerResult :=
  let matches := matchAll false reCharRun text in
  let (maxRepetitions, spamChar) :=
    match matches with
    | [] => (0, [])
    | _ => fold_left (scanMatch o) matches (0, [])
    end in
  let cleaned :=
    match matches with
    | [] => text
    | _ =>
        if minRepetitions o <=? maxRepetitions
        then replaceWith false reCharRun (collapse o) text
        else text
    end in
  createResult text cleaned (minRepetitions o <=? maxRepetitions)
    maxRepetitions (Some spamChar).

(** ** cleanRepeatedWords *)

Definition norm (o : CleanerOptions) (w : JSString) : JSString :=
  if caseSensitive o then w else toLowerCase w.

(** The inner [while]: how many of the next words repeat [currentWord]. *)
Fixpoint countSame (o : CleanerOptions) (currentWord : JSString)
    (rest : list JSString) : nat :=
  match rest with
  | nextWord :: rest' =>
      if eqb (norm o currentWord) (norm o nextWord)
      then S (countSame o currentWord rest')
      else 0%nat
  | [] => 0%nat
  end.

Record WordScan := mkWordScan {
  cleanedWords : list JSString;
  maxRepetitions : Z;
  spamPattern : JSString
}.

(** The outer [while] at index [i], [words] being the words from [i]
    on; [skip] is what [i += repetitionCount] still has to pass. *)
Fixpoint wordLoop (o : CleanerOptions) (skip : nat) (words : list JSString)
    (st : WordScan) : WordScan :=
  match words with
  | [] => st
  | currentWord :: rest =>
      match skip with
      | S k => wordLoop o k rest st
      | O =>
          let repetitionCount := S (countSame o currentWord rest) in
          if minRepetitions o <=? Z.of_nat repetitionCount then
            wordLoop o (repetitionCount - 1) rest
              (mkWordScan (cleanedWords st ++ [currentWord])
                 (Z.max (maxRepetitions st) (Z.of_nat repetitionCount))
                 currentWord)
          else
            wordLoop o (repetitionCount - 1) rest
              (mkWordScan (cleanedWords st ++ firstn repetitionCount words)
                 (maxRepetitions st) (spamPattern st))
      end
  end.

Definition cleanRepeatedWords (o : CleanerOptions) (text : JSString)
    : CleanerResult :=
  let words := split false reSpaces text in
  if Z.of_nat (length words) <? minRepetitions o then
    createResult text text false 0 None
  else
    let st := wordLoop o 0 words (mkWordScan [] 0 []) in
    createResult text (join (str " ") (cleanedWords st))
      (minRepetitions o <=? maxRepetitions st) (maxRepetitions st)
      (Some (spamPattern st)).

(** ** cleanRepeatedPhrases *)

(** The inner [while] of [findAndCleanRepeatedPhrase]; every iteration
    moves [nextIndex] on by [phraseLength], so [length words]
    iterations are all there can be. *)
Fixpoint countPhrase (o : CleanerOptions) (words : list JSString)
    (phraseLength : nat) (phrase : JSString) (fuel repetitions nextIndex : nat)
    : nat :=
  match fuel with
  | O => repetitions
  | S fuel' =>
      if (nextIndex + phraseLength <=? length words)%nat then
        let nextPhrase :=
          join (str " ") (slice words nextIndex (nextIndex + phraseLength)) in
        if eqb (norm o phrase) (norm o nextPhrase)
        then countPhrase o words phraseLength phrase fuel'
               (S repetitions) (nextIndex + phraseLength)
        else repetitions
      else repetitions
  end.

(** The [for] loop over [i]; [None] when it runs to its end. *)
Fixpoint phraseLoop (o : CleanerOptions) (text : JSString)
    (words : list JSString) (phraseLength : nat) (indices : list nat)
    : option CleanerResult :=
  match indices with
  | [] => None
  | i :: indices' =>
      let phrase := join (str " ") (slice words i (i + phraseLength)) in
      let repetitions :=
        countPhrase o words phraseLength phrase (length words) 1
          (i + phraseLength) in
      if minRepetitions o <=? Z.of_nat repetitions then
        let before := join (str " ") (slice words 0 i) in
        let after :=
          join (str " ") (skipn (i + phraseLength * repetitions) words) in
        let cleanedParts :=
          filter (fun part => (0 <? length (trim part))%nat)
                 [before; phrase; after] in
        Some (createResult text (join (str " ") cleanedParts) true
                (Z.of_nat repetitions) (Some phrase))
      else phraseLoop o text words phraseLength indices'
  end.

Definition findAndCleanRepeatedPhrase (o : CleanerOptions) (text : JSString)
    (phraseLength : nat) : CleanerResult :=
  let words := split false reSpaces text in
  let need := Z.of_nat phraseLength * minRepetitions o in
  if Z.of_nat (length words) <? need then
    createResult text text false 0 None
  else
    match phraseLoop o text words phraseLength
            (seq 0 (Z.to_nat (Z.of_nat (length words) - need + 1))) with
    | Some r => r
    | None => createResult text text false 0 None
    end.

(** [Math.min(5, Math.floor(words.length / minRepetitions))]; there is
    always at least one word, so the quotient by [0] is [Infinity]. *)
Definition firstPhraseLength (o : CleanerOptions) (words : list JSString) : Z :=
  if minRepetitions o =? 0 then 5
  else Z.min 5 (Z.of_nat (length words) / minRepetitions o).

(** The phrase lengths the [for] loop visits: from [start] down to 2. *)
Definition phraseLengths (start : Z) : list nat :=
  rev (seq 2 (Z.to_nat (start - 1))).

Fixpoint firstSpam (o : CleanerOptions) (text : JSString)
    (lengths : list nat) : option CleanerResult :=
  match lengths with
  | [] => None
  | phraseLength :: lengths' =>
      let result := findAndCleanRepeatedPhrase o text phraseLength in
      if wasSpam result then Some result else firstSpam o text lengths'
  end.

Definition cleanRepeatedPhrases (o : CleanerOptions) (text : JSString)
    : CleanerResult :=
  let words := split false reSpaces text in
  match firstSpam o text (phraseLengths (firstPhraseLength o words)) with
  | Some r => r
  | None => createResult text text false 0 None
  end.

(** ** clean *)

(** The variables of the cascade in [clean]. *)
Record Cascade := mkCascade {
  currentText : JSString;
  totalRepetitions : Z;
  spam : bool;
  mainPattern : JSString
}.

(** [mainPattern || r.pattern || ''] *)
Definition orPattern (mainPattern : JSString) (p : option JSString) : JSString :=
  match mainPattern, p with
  | [], Some q => q
  | _, _ => mainPattern
  end.

(** One pass of the cascade: its result is taken when it found spam. *)
Definition pass (run : JSString -> CleanerResult) (c : Cascade) : Cascade :=
  let r := run (currentText c) in
  if wasSpam r then
    mkCascade (cleaned r) (Z.max (totalRepetitions c) (repetitionsFound r))
      true (orPattern (mainPattern c) (pattern r))
  else c.

(** The text and the counters after the three passes, before the
    truncation; [cleaned] is the trimmed message after [cleanUrls]. *)
Definition cascade (o : CleanerOptions) (cleaned : JSString) : Cascade :=
  pass (cleanRepeatedWords o)
    (pass (cleanRepeatedPhrases o)
       (pass (cleanRepeatedChars o) (mkCascade cleaned 0 false []))).

(** The last step of [clean]. *)
Definition truncate (o : CleanerOptions) (currentText : JSString) : JSString :=
  if maxLength o <? len currentText
  then substring currentText 0 (maxLength o - 3) ++ str "..."
  else currentText.

Definition clean (o : CleanerOptions) (message : JSString) : CleanerResult :=
  let original := message in
  let cleaned := trim message in
  match cleaned with
  | [] => createResult original [] false 0 None
  | _ =>
      let c := cascade o (cleanUrls cleaned) in
      createResult original (truncate o (currentText c)) (spam c)
        (totalRepetitions c) (Some (mainPattern c))
  end.

(** [cleanBatch] *)
Definition cleanBatch (o : CleanerOptions) (messages : list JSString)
    : list CleanerResult :=
  map (clean o) messages.

End SpamCleaner.

(* ================================================================== *)
(** * The webhook payload (src/utils/index.ts) *)

Module Utils.

(** How a call ends: it returns a value, or it throws. *)
Inductive Completion (A : Type) :=
| Returns (a : A)
| Throws.

Arguments Returns {A} a.
Arguments Throws {A}.

(** The rest [k] of a function body after a call. *)
Definition andThen {A B} (call : Completion A) (k : A -> Completion B)
    : Completion B :=
  match call with
  | Returns a => k a
  | Throws => Throws
  end.

(** [normalizeKeysToLowercase] on a plain object: every own property
    is assigned to a new object under its key in lower case, a nested
    object after it has been normalized itself.  Any other value is
    what the [else] branch stores: the value itself. *)
Fixpoint normalizeObject (v : Value) : Value :=
  match v with
  | VObject _ props =>
      let normalized :=
        (fix each (l : list (JSString * Value)) (normalized : Obj) : Obj :=
           match l with
           | [] => normalized
           | (key, value) :: l' =>
               each l' (assign normalized (toLowerCase key)
                          (normalizeObject value))
           end) props emptyObject in
      VObject (fst normalized) (snd normalized)
  | _ => v
  end.

(** [normalizeKeysToLowercase(obj)] for the object or array that
    [extractValue] passes in: the indices are the keys of an array. *)
Definition normalizeKeysToLowercase (obj : Value) : Value :=
  match obj with
  | VArray items => normalizeObject (VObject ObjectPrototype (indexed items))
  | _ => normalizeObject obj
  end.

(** [currentObj.hasOwnProperty] is the function of [Object.prototype]:
    no object on the prototype chain has an own property of that name,
    whose value would not be a function, and the chain does not end in
    [null].  An array has its indices and [length] and is followed by
    [Array.prototype], which is followed by [Object.prototype]. *)
Fixpoint inheritsHasOwnProperty (currentObj : Value) : bool :=
  match currentObj with
  | VObject proto props =>
      if hasOwn (str "hasOwnProperty") props then false
      else match proto with
           | ObjectPrototype => true
           | NullPrototype => false
           | Inherits parent => inheritsHasOwnProperty parent
           end
  | VArray _ => true
  | _ => false
  end.

(** [currentObj.hasOwnProperty(key)] with [currentObj[key]]: an
    object has its properties, an array its indices and [length]. *)
Definition ownProperty (currentObj : Value) (key : JSString) : option Value :=
  match currentObj with
  | VObject _ props => getOwn key props
  | VArray items =>
      if eqb key (str "length") then Some (VNumber (Z.of_nat (length items)))
      else getOwn key (indexed items)
  | _ => None
  end.

(** The loop over the possible keys: the first that is an own
    property with a value other than [undefined] and [null]. *)
Fixpoint firstPresent (keys : list JSString) (currentObj : Value)
    : option Value :=
  match keys with
  | [] => None
  | key :: keys' =>
      match ownProperty currentObj key with
      | Some VUndefined | Some VNull | None => firstPresent keys' currentObj
      | Some v => Some v
      end
  end.

(** [findValueInNormalizedObjRecursive]; [undefined] is [None].  The
    first thing it does with an object or an array is to call its
    [hasOwnProperty], in the loop or, when there is no key, for the
    name [data]; that throws when the object has no such function. *)
Fixpoint findValue (keys : list JSString) (currentObj : Value)
    : Completion (option Value) :=
  match currentObj with
  | VObject _ props =>
      if inheritsHasOwnProperty currentObj then
        match firstPresent keys currentObj with
        | Some v => Returns (Some v)
        | None =>
            let inside name :=
              (fix scan (l : list (JSString * Value))
                 : Completion (option Value) :=
                 match l with
                 | [] => Returns None
                 | (k, v) :: l' =>
                     if eqb k name
                     then if isObjectType v then findValue keys v
                          else Returns None
                     else scan l'
                 end) props in
            match inside (str "data") with
            | Throws => Throws
            | Returns (Some v) => Returns (Some v)
            | Returns None => inside (str "payload")
            end
        end
      else Throws
  | VArray _ => Returns (firstPresent keys currentObj)
  | _ => Returns None
  end.

Definition extractValue (obj : Value) (possibleKeys : list JSString)
    : Completion (option Value) :=
  match obj with
  | VObject _ _ | VArray _ =>
      findValue (map toLowerCase possibleKeys) (normalizeKeysToLowercase obj)
  | _ => Returns None
  end.

Definition ORIGINAL_USER_IDENTIFIER_KEYS : list JSString := [str "id"].
Definition ORIGINAL_USER_DISPLAY_KEYS : list JSString :=
  [str "displayName"; str "nickname"; str "username"].
Definition ORIGINAL_MESSAGE_CONTENT_KEYS : list JSString :=
  [str "message"; str "content"; str "comment"; str "text"; str "msg"].

(** The fields of [Messages] that [processIaResponse] fills;
    [undefined] is [None]. *)
Record Messages := mkMessages {
  id : option Value;
  uniqueId : option Value;
  nickname : option Value;
  displayName : option Value;
  username : option Value;
  comment : option Value;
  content : option Value;
  message : option Value;
  msg : option Value;
  text : option Value
}.

(** [processIaResponse]: the ten calls in their order; the first that
    throws ends it. *)
Definition processIaResponse (iaResponse : Value) : Completion Messages :=
  andThen (extractValue iaResponse ORIGINAL_USER_IDENTIFIER_KEYS) (fun id =>
  andThen (extractValue iaResponse
             (filter (fun k => negb (eqb k (str "id")))
                     ORIGINAL_USER_IDENTIFIER_KEYS)) (fun uniqueId =>
  andThen (extractValue iaResponse ORIGINAL_USER_DISPLAY_KEYS) (fun nickname =>
  andThen (extractValue iaResponse ORIGINAL_USER_DISPLAY_KEYS) (fun displayName =>
  andThen (extractValue iaResponse ORIGINAL_USER_DISPLAY_KEYS) (fun username =>
  andThen (extractValue iaResponse ORIGINAL_MESSAGE_CONTENT_KEYS) (fun comment =>
  andThen (extractValue iaResponse ORIGINAL_MESSAGE_CONTENT_KEYS) (fun content =>
  andThen (extractValue iaResponse ORIGINAL_MESSAGE_CONTENT_KEYS) (fun message =>
  andThen (extractValue iaResponse ORIGINAL_MESSAGE_CONTENT_KEYS) (fun msg =>
  andThen (extractValue iaResponse ORIGINAL_MESSAGE_CONTENT_KEYS) (fun text =>
  Returns
    (mkMessages id uniqueId nickname displayName username comment content
       message msg text))))))))))).

(** [selectValueByPriority(obj, priorityKeys)], the keys being the
    accessors of the fields. *)
Fixpoint selectValueByPriority (obj : Messages)
    (priorityKeys : list (Messages -> option Value)) : option Value :=
  match priorityKeys with
  | [] => None
  | key :: keys' =>
      match key obj with
      | Some VUndefined | Some VNull | None => selectValueByPriority obj keys'
      | Some v => Some v
      end
  end.

Definition preferredUserDisplayNameKeys : list (Messages -> option Value) :=
  [displayName; nickname; username; uniqueId].

Definition preferredMessageContentKeys : list (Messages -> option Value) :=
  [message; content; comment; text; msg].

(** [contentTEXT]: the pair [{ user, msg }]. *)
Definition contentTEXT (processedMessage : Messages)
    : option Value * option Value :=
  (selectValueByPriority processedMessage preferredUserDisplayNameKeys,
   selectValueByPriority processedMessage preferredMessageContentKeys).

End Utils.

(* ================================================================== *)
(** * MessageQueue (src/services/messageQueue.ts) *)

Module MessageQueue.

(** A [Message]: the four fields the queue works with and the other
    properties of the object that was added. *)
Record Message := mkMessage {
  id : JSString;
  isRead : bool;
  createdAt : Date;
  readAt : option Date;
  others : list (JSString * Value)
}.

(** The queue and the writes to the data storage, latest first. *)
Record Queue := mkQueue {
  queue : list Message;
  saved : list (list Message)
}.

Definition save (data : list Message) (q : Queue) : Queue :=
  mkQueue (queue q) (data :: saved q).


(** The message [find] returns is changed in place: the first message
    of the queue that [p] holds of is replaced. *)
Fixpoint changeFirst (p : Message -> bool) (g : Message -> Message)
    (l : list Message) : option (list Message * Message) :=
  match l with
  | [] => None
  | m :: l' =>
      if p m then Some (g m :: l', g m)
      else match changeFirst p g l' with
           | Some (l'', m') => Some (m :: l'', m')
           | None => None
           end
  end.

Definition setRead (isRed : bool) (now : Date) (m : Message) : Message :=
  mkMessage (id m) isRed (createdAt m) (Some now) (others m).

(** [getNextUnread(isRed)]; the default of [isRed] is [true]. *)
Definition getNextUnread (now : Date) (isRed : bool) (q : Queue)
    : Queue * option Message :=
  match changeFirst (fun m => negb (isRead m)) (setRead isRed now) (queue q) with
  | Some (l, msg) =>
      let q' := mkQueue l (saved q) in (save l q', Some msg)
  | None => (save (queue q) q, None)
  end.

(** [markAsRead(id)]. *)
Definition markAsRead (now : Date) (i : JSString) (q : Queue) : Queue * bool :=
  match changeFirst (fun m => eqb (id m) i) (setRead true now) (queue q) with
  | Some (l, _) => let q' := mkQueue l (saved q) in (save l q', true)
  | None => (q, false)
  end.

(** [markAllAsRead]: the queue after it and the count. *)
Definition markAllAsRead (now : Date) (q : Queue) : Queue * nat :=
  let l := map (fun m => if isRead m then m else setRead true now m) (queue q) in
  let count := length (filter (fun m => negb (isRead m)) (queue q)) in
  (save l (mkQueue l (saved q)), count).

Definition snapshot (q : Queue) : list Message := queue q.

Definition unread (q : Queue) : list Message :=
  filter (fun m => negb (isRead m)) (queue q).

Definition size (q : Queue) : nat := length (queue q).

Definition unreadSize (q : Queue) : nat :=
  length (filter (fun m => negb (isRead m)) (queue q)).

(** [clear]. *)
Definition clear (q : Queue) : Queue := mkQueue [] ([] :: saved q).

(** [getAll(isRead)]; without the argument the whole queue. *)
Definition getAll (r : option bool) (q : Queue) : list Message :=
  match r with
  | Some b => filter (fun m => Bool.eqb (isRead m) b) (queue q)
  | None => queue q
  end.

(** The argument of the exported [markAsRead]: nothing, one id or an
    array of ids. *)
Inductive IdArgument :=
| NoId
| OneId (i : JSString)
| ManyIds (ids : list JSString).

(** The exported [markAsRead(id)]; an empty id is falsy. *)
Definition markAsReadExported (now : Date) (arg : IdArgument) (q : Queue)
    : Queue :=
  match arg with
  | NoId | OneId [] => q
  | OneId i => fst (markAsRead now i q)
  | ManyIds ids => fold_left (fun acc i => fst (markAsRead now i acc)) ids q
  end.

End MessageQueue.

(* ================================================================== *)
(** * Vocabulary of the properties

    The notions the statements below are phrased in; none of them is
    part of the program. *)

Module Props.

Import FilterManager.

(** The deny entries of one list that are live at [now] and match. *)
Definition liveMatches (now : Date) (o : CheckOptions) (text : JSString)
    (bl : list BlackItem) : list BlackItem :=
  filter (fun b => negb (expiredEntry now b) && blackMatches o text b) bl.

(** The deny entries of the active filters that are not expired at
    [now] and match the text, in the order the check scans them. *)
Definition denyMatches (now : Date) (o : CheckOptions) (text : JSString)
    (fs : list Filter) : list BlackItem :=
  flat_map (fun f => liveMatches now o text (blackList f))
           (filter isActive fs).

(** The allow entries of the active filters that match the text. *)
Definition allowMatches (o : CheckOptions) (text : JSString)
    (fs : list Filter) : list JSString :=
  flat_map (fun f => filter (whiteMatches o text) (whiteList f))
           (filter isActive fs).

(** The expiry a deny entry carries, if any. *)
Definition expiryOf (b : BlackItem) : option ExpirationReason :=
  match b with
  | BTimed (mkTimed _ (Some e)) => Some (BlockedUntil e)
  | _ => None
  end.

(** The expiry of the first, resp. the last, entry of a list that
    carries one. *)
Fixpoint firstExpiry (l : list BlackItem) : option ExpirationReason :=
  match l with
  | [] => None
  | b :: l' =>
      match expiryOf b with
      | Some r => Some r
      | None => firstExpiry l'
      end
  end.

Definition lastExpiry (l : list BlackItem) : option ExpirationReason :=
  firstExpiry (rev l).

(** [a] when it is there, else [b]. *)
Definition orElse {A} (a b : option A) : option A :=
  match a with
  | Some _ => a
  | None => b
  end.

(** The deny list [l'] is the deny list [l] with some of the entries
    whose [expiresAt] is earlier than [now] absent; every other entry
    is there, in its place. *)
Inductive absentEnded (now : Date) : list BlackItem -> list BlackItem -> Prop :=
| absent_nil : absentEnded now [] []
| absent_kept (b : BlackItem) (l l' : list BlackItem) :
    absentEnded now l l' -> absentEnded now (b :: l) (b :: l')
| absent_ended (it : JSString) (e : Date) (l l' : list BlackItem) :
    e < now -> absentEnded now l l' ->
    absentEnded now (BTimed (mkTimed it (Some e)) :: l) l'.

(** The table [fs'] is the table [fs] with some of the deny entries
    that ended before [now] absent. *)
Definition sameButEnded (now : Date) (fs fs' : list Filter) : Prop :=
  Forall2
    (fun f f' =>
       whiteList f' = whiteList f /\ isActive f' = isActive f
       /\ absentEnded now (blackList f) (blackList f'))
    fs fs'.

(** Every deny entry of the table has an [expiresAt] earlier than
    [now]. *)
Definition allEnded (now : Date) (fs : list Filter) : Prop :=
  forall f b, In f fs -> In b (blackList f) ->
    exists it e, b = BTimed (mkTimed it (Some e)) /\ e < now.

(** Some deny entry of the table is expired at [now]. *)
Definition someExpired (now : Date) (fs : list Filter) : Prop :=
  exists f b, In f fs /\ In b (blackList f) /\ expiredEntry now b = true.

(** The entry has the trim-only identity [k]. *)
Definition hasIdentity (k : JSString) (b : BlackItem) : bool :=
  eqb (normalizeItem b) k.

(** No filter of the table has the id. *)
Definition idFree (i : JSString) (fs : list Filter) : Prop :=
  forall f, In f fs -> id f <> i.

(** The maximal runs of identical consecutive code units of a text,
    each as its unit and its length, and the text of a list of runs. *)
Fixpoint runs (s : JSString) : list (ascii * nat) :=
  match s with
  | [] => []
  | c :: s' =>
      match runs s' with
      | (d, n) :: rs =>
          if Ascii.eqb c d then (c, S n) :: rs else (c, 1%nat) :: (d, n) :: rs
      | [] => [(c, 1%nat)]
      end
  end.

Definition expand (rs : list (ascii * nat)) : JSString :=
  flat_map (fun r => repeat (fst r) (snd r)) rs.

(** A run the character pass finds: three or more of a unit that is
    not a line terminator. *)
Definition found (r : ascii * nat) : bool :=
  negb (isLineTerminator (fst r)) && (3 <=? snd r)%nat.

(** A run that reaches [minRepetitions]. *)
Definition reaches (o : SpamCleaner.CleanerOptions) (r : ascii * nat) : bool :=
  SpamCleaner.minRepetitions o <=? Z.of_nat (snd r).

(** How many units at the front of [s] are the unit [c]. *)
Fixpoint runLength (c : ascii) (s : JSString) : nat :=
  match s with
  | d :: s' => if Ascii.eqb d c then S (runLength c s') else 0%nat
  | [] => 0%nat
  end.

(** The text of one run. *)
Definition runText (r : ascii * nat) : JSString := repeat (fst r) (snd r).

(** Every found run cut to two units. *)
Definition collapseFound (r : ascii * nat) : ascii * nat :=
  if found r then (fst r, 2%nat) else r.

(** Only the found runs that reach [minRepetitions] cut to two units. *)
Definition collapseReaching (o : SpamCleaner.CleanerOptions)
    (r : ascii * nat) : ascii * nat :=
  if found r && reaches o r then (fst r, 2%nat) else r.

(** The text the three passes of [clean] leave, before the truncation;
    empty when the message is blank. *)
Definition intermediateText (o : SpamCleaner.CleanerOptions)
    (message : JSString) : JSString :=
  match trim message with
  | [] => []
  | cleaned =>
      SpamCleaner.currentText
        (SpamCleaner.cascade o (SpamCleaner.cleanUrls cleaned))
  end.

(** The pattern [p] does not occur in [s1 ++ p ++ s2] before the
    occurrence that starts at the end of [s1]. *)
Fixpoint firstOccurrence (p s1 rest : JSString) : bool :=
  match s1 with
  | [] => true
  | c :: s1' =>
      negb (startsWith (s1 ++ rest) p) && firstOccurrence p s1' rest
  end.

(** No pattern of the mapping is the empty text. *)
Definition nonEmptyPatterns (cfg : ConfigurableReplacer.ReplacementConfig)
    : bool :=
  forallb (fun e => match fst e with [] => false | _ => true end) cfg.

(** The replacement of a match by the value [v], as [replace] computes
    it from the value taken as a template. *)
Definition substitute (v : JSString) : RegExp.Replacer :=
  fun matched _ before after => RegExp.getSubstitution matched before after v.

(** How many units at the front of [s] the class [cc] matches. *)
Fixpoint classLength (i : bool) (cc : RegExp.CharClass) (s : JSString) : nat :=
  match s with
  | c :: s' =>
      if RegExp.charMatches i cc c then S (classLength i cc s') else 0%nat
  | [] => 0%nat
  end.

(** A unit that is not white space, or is the space U+0020. *)
Definition plainSpace (c : ascii) : bool :=
  negb (isWhiteSpace c) || Ascii.eqb c " ".

(** A unit other than the backslash. *)
Definition notBackslash (c : ascii) : bool := negb (Ascii.eqb c "\").

(** A text without dollar sign. *)
Definition dollarFree (v : JSString) : bool :=
  forallb (fun c => negb (Ascii.eqb c "$")) v.

(** The keys of a tracking map. *)
Definition mapKeys (mp : ConfigurableReplacer.ReplacementMap) : list JSString :=
  map fst mp.

(** Two properties whose keys are array indices in ascending order. *)
Definition ascending {V} (e1 e2 : JSString * V) : Prop :=
  match arrayIndex (fst e1), arrayIndex (fst e2) with
  | Some x, Some y => (x <= y)%N
  | _, _ => False
  end.

(** The pattern [a] is defined before the pattern [b] in the mapping:
    it stands before the first definition of [b]. *)
Definition declaredBefore (cfg : ConfigurableReplacer.ReplacementConfig)
    (a b : JSString) : Prop :=
  exists l1 l2, map fst cfg = l1 ++ b :: l2 /\ In a l1 /\ ~ In b l1.

(** The order in which the patterns of a mapping are applied: the
    array indices first, in ascending order, then the other patterns
    in the order of their definition. *)
Definition appliedBefore (cfg : ConfigurableReplacer.ReplacementConfig)
    (a b : JSString) : Prop :=
  match arrayIndex a, arrayIndex b with
  | Some x, Some y => (x <= y)%N
  | Some _, None => True
  | None, Some _ => False
  | None, None => declaredBefore cfg a b
  end.

(** The value with every text emptied: what is left is the nesting,
    the lengths of the arrays, the prototypes and the keys of the
    objects and the leaves that are not text. *)
Fixpoint shape (input : Value) : Value :=
  match input with
  | VString _ => VString []
  | VArray items => VArray (map shape items)
  | VObject proto props =>
      VObject
        (match proto with
         | Inherits parent => Inherits (shape parent)
         | ObjectPrototype => ObjectPrototype
         | NullPrototype => NullPrototype
         end)
        ((fix each (l : list (JSString * Value)) :=
            match l with
            | [] => []
            | (key, value) :: l' => (key, shape value) :: each l'
            end) props)
  | _ => input
  end.

(** Keys that are pairwise different. *)
Fixpoint distinct (keys : list JSString) : bool :=
  match keys with
  | [] => true
  | k :: keys' => negb (existsb (eqb k) keys') && distinct keys'
  end.

(** A value as an object literal without the keys [__proto__] and
    [constructor] gives it: every object in it, at any depth, has the
    prototype [Object.prototype], keys that are pairwise different and
    neither of the two keys. *)
Fixpoint plain (input : Value) : bool :=
  match input with
  | VArray items => forallb plain items
  | VObject proto props =>
      match proto with ObjectPrototype => true | _ => false end
      && distinct (map fst props)
      && negb (existsb (eqb (str "__proto__")) (map fst props))
      && negb (existsb (eqb (str "constructor")) (map fst props))
      && (fix each (l : list (JSString * Value)) :=
            match l with
            | [] => true
            | (_, value) :: l' => plain value && each l'
            end) props
  | _ => true
  end.

(** Induction on a value with its parts: the value its prototype is,
    every item of an array and every value of an object has the
    property. *)
Fixpoint Value_nested (P : Value -> Prop)
    (leaf : forall v,
        match v with
        | VArray _ | VObject _ _ => True
        | _ => P v
        end)
    (array : forall items, Forall P items -> P (VArray items))
    (object : forall proto props,
        match proto with Inherits parent => P parent | _ => True end ->
        Forall (fun e => P (snd e)) props -> P (VObject proto props))
    (v : Value) {struct v} : P v :=
  match v return P v with
  | VArray items =>
      array items
        ((fix all (l : list Value) : Forall P l :=
            match l return Forall P l with
            | [] => Forall_nil P
            | x :: l' =>
                Forall_cons x (Value_nested P leaf array object x) (all l')
            end) items)
  | VObject proto props =>
      object proto props
        (match proto
           return match proto with Inherits parent => P parent | _ => True end
         with
         | Inherits parent => Value_nested P leaf array object parent
         | ObjectPrototype => I
         | NullPrototype => I
         end)
        ((fix all (l : list (JSString * Value))
            : Forall (fun e => P (snd e)) l :=
            match l return Forall (fun e => P (snd e)) l with
            | [] => Forall_nil _
            | e :: l' =>
                Forall_cons e (Value_nested P leaf array object (snd e))
                  (all l')
            end) props)
  | VUndefined => leaf VUndefined
  | VNull => leaf VNull
  | VBoolean b => leaf (VBoolean b)
  | VNumber n => leaf (VNumber n)
  | VString s0 => leaf (VString s0)
  end.

Section CopyEach.

Variable functionSource : JSString -> JSString.

Variables (c : ConfigurableReplacer.Config)
  (data : ConfigurableReplacer.ReplacementData).

(** The loop of [processRecursively] over the properties [l], with the
    object built so far. *)
Fixpoint copyEach (l : list (JSString * Value)) (result : Obj) : Obj :=
  match l with
  | [] => result
  | (key, value) :: l' =>
      copyEach l'
        (assign result key
           (ConfigurableReplacer.processRecursively functionSource c value
              data))
  end.

End CopyEach.

(** The loop of [normalizeKeysToLowercase] over the properties [l],
    with the object built so far. *)
Fixpoint lowerEach (l : list (JSString * Value)) (normalized : Obj) : Obj :=
  match l with
  | [] => normalized
  | (key, value) :: l' =>
      lowerEach l'
        (assign normalized (toLowerCase key) (Utils.normalizeObject value))
  end.

(** The search below the property [name] of an object with the
    properties [props]. *)
Definition nested (keys : list JSString) (name : JSString)
    (props : list (JSString * Value)) : Utils.Completion (option Value) :=
  match getOwn name props with
  | Some v =>
      if isObjectType v then Utils.findValue keys v else Utils.Returns None
  | None => Utils.Returns None
  end.

(** The value of the last property of [props] whose key is [name]
    without regard to case: the one that the later assignments leave
    under that name. *)
Definition lastWith (name : JSString) (props : list (JSString * Value))
    : option Value :=
  fold_left
    (fun found e => if eqb (toLowerCase (fst e)) name then Some (snd e) else found)
    props None.

(** A value that is there: neither [undefined] nor [null]. *)
Definition present (v : option Value) : bool :=
  match v with
  | Some VUndefined | Some VNull | None => false
  | Some _ => true
  end.

(** The value under the first of the keys, each without regard to
    case, that the properties have with a value; a nested object with
    its own keys in lower case. *)
Fixpoint firstWith (props : list (JSString * Value)) (keys : list JSString)
    : option Value :=
  match keys with
  | [] => None
  | k :: keys' =>
      match lastWith (toLowerCase k) props with
      | Some v =>
          if present (Some v) then Some (Utils.normalizeObject v)
          else firstWith props keys'
      | None => firstWith props keys'
      end
  end.

(** No key of the properties is [__proto__] without regard to case. *)
Definition protoFreeKeys (props : list (JSString * Value)) : bool :=
  forallb (fun e => negb (eqb (toLowerCase (fst e)) (str "__proto__"))) props.

(** No object of the value, at any depth, has a key that is
    [__proto__] without regard to case. *)
Fixpoint protoFree (v : Value) : bool :=
  match v with
  | VArray items => forallb protoFree items
  | VObject _ props =>
      protoFreeKeys props
      && (fix each (l : list (JSString * Value)) :=
            match l with
            | [] => true
            | (_, value) :: l' => protoFree value && each l'
            end) props
  | _ => true
  end.

(** The maximal runs of consecutive words that are the same word, as
    the word pass compares words (without regard to case unless
    [caseSensitive]). *)
Fixpoint wordGroups (o : SpamCleaner.CleanerOptions) (words : list JSString)
    : list (list JSString) :=
  match words with
  | [] => []
  | w :: rest =>
      match wordGroups o rest with
      | (h :: g) :: gs =>
          if eqb (SpamCleaner.norm o w) (SpamCleaner.norm o h)
          then (w :: h :: g) :: gs
          else [w] :: (h :: g) :: gs
      | [] :: gs => [w] :: gs
      | [] => [[w]]
      end
  end.

(** A run of words that reaches [minRepetitions] cut to its first
    word. *)
Definition collapseGroup (o : SpamCleaner.CleanerOptions) (g : list JSString)
    : list JSString :=
  if SpamCleaner.minRepetitions o <=? Z.of_nat (length g) then firstn 1 g
  else g.

End Props.

Import Props.

(* ================================================================== *)
(** * Concrete tables and texts *)

Module Examples.

Import FilterManager.

(** Scenario D of the specification: a permanent deny entry and an
    allow entry that both occur in the text. *)
Definition scenarioD : Manager :=
  mkManager
    [mkFilter (str "default") [BString (str "spam")]
       [str "not spam at all"] 0 0 true] [].

(** A ban on the word spam that ended at time 500. *)
Definition expiredBan : Manager :=
  mkManager
    [mkFilter (str "default")
       [BTimed (mkTimed (str "spam") (Some 500))] [] 0 0 true] [].

(** The same filter with its deny list empty. *)
Definition emptyBan : Manager :=
  mkManager [mkFilter (str "default") [] [] 0 0 true] [].

(** Two temporary bans that match the text spam: the first ends at
    time 5000, the second at time 9000. *)
Definition twoBans : Manager :=
  mkManager
    [mkFilter (str "default")
       [BTimed (mkTimed (str "spam") (Some 5000));
        BTimed (mkTimed (str "pam") (Some 9000))] [] 0 0 true] [].

(** A table for the sweep: one ban that ended at time 500, one that
    ends at time 5000 and a permanent entry. *)
Definition sweepTable : Manager :=
  mkManager
    [mkFilter (str "default")
       [BTimed (mkTimed (str "old") (Some 500));
        BTimed (mkTimed (str "new") (Some 5000));
        BString (str "always")] [] 0 0 true] [].

(** The manager before any filter is created or loaded. *)
Definition emptyManager : Manager := mkManager [] [].

(** An event whose [uniqueId] is the name superuser. *)
Definition superuser : ConfigurableReplacer.ReplacementData :=
  [(str "uniqueId", ConfigurableReplacer.DString (str "superuser"))].

(** The entries of the default mapping that come before the pattern
    [user], which is its twentieth. *)
Definition beforeUser : ConfigurableReplacer.ReplacementConfig :=
  firstn 19 ConfigurableReplacer.getDefaultReplacements.

(** A limit of ten units, and a message of twenty-six. *)
Definition shortLimit : SpamCleaner.CleanerOptions :=
  SpamCleaner.mkOptions 3 10 true false.

Definition alphabet : JSString := str "abcdefghijklmnopqrstuvwxyz".

(** A limit of five repetitions, and a text with a run of three and a
    run of five. *)
Definition fiveRepetitions : SpamCleaner.CleanerOptions :=
  SpamCleaner.mkOptions 5 200 true false.

Definition threeAndFive : JSString := str "aaa bbbbb".

(** A deny list whose only entry is three spaces. *)
Definition blankBan : Manager :=
  mkManager [mkFilter (str "default") [BString (str "   ")] [] 0 0 true] [].

(** A limit of two units. *)
Definition tinyLimit : SpamCleaner.CleanerOptions :=
  SpamCleaner.mkOptions 3 2 true false.

(** A message of tabs, line breaks and spaces. *)
Definition blankMessage : JSString :=
  [" "; ascii_of_nat 9; ascii_of_nat 10; " "]%char.

(** A mapping with an empty pattern. *)
Definition emptyPattern : ConfigurableReplacer.ReplacementConfig :=
  [(str "user", ConfigurableReplacer.mkOption (str "user") (str "x"));
   ([], ConfigurableReplacer.mkOption (str "msg") (str "y"))].

(** A webhook body with the name at the top and the text below
    [data], in keys of mixed case. *)
Definition chatEvent : Value :=
  VObject ObjectPrototype
    [(str "eventName", VString (str "chat"));
     (str "NickName", VString (str "Ana"));
     (str "Data", VObject ObjectPrototype
                    [(str "Comment", VString (str "hola"));
                     (str "likes", VNumber 3)])].

(** A body whose key [__proto__] holds [null], as a parsed text can
    give it. *)
Definition nullProto : Value :=
  VObject ObjectPrototype
    [(str "__proto__", VNull); (str "nickname", VString (str "Ana"))].

(** The text V8 gives for the built-in function that
    [Object.prototype] has under a key. *)
Definition nativeCode (key : JSString) : JSString :=
  str "function "
  ++ (if eqb key (str "constructor") then str "Object" else key)
  ++ str "() { [native code] }".

(** A mapping that declares the pattern [b] before the pattern [1]. *)
Definition indexLast : ConfigurableReplacer.ReplacementConfig :=
  [(str "b", ConfigurableReplacer.mkOption (str "x") (str "1"));
   (str "1", ConfigurableReplacer.mkOption (str "y") (str "one"))].

(** An input with an own key [__proto__], as a parsed text can give
    it, and one with an own key [constructor]. *)
Definition protoInput : Value :=
  VObject ObjectPrototype
    [(str "__proto__", VString (str "user")); (str "a", VString (str "user"))].

Definition constructorInput : Value :=
  VObject ObjectPrototype
    [(str "constructor", VString (str "user")); (str "a", VString (str "user"))].

(** An input without such keys. *)
Definition plainInput : Value :=
  VObject ObjectPrototype
    [(str "a", VArray [VString (str "user"); VNumber 1]);
     (str "b", VObject ObjectPrototype [(str "c", VString (str "msg"))])].

(** A queue of one read and two unread messages. *)
Definition threeMessages : MessageQueue.Queue :=
  MessageQueue.mkQueue
    [MessageQueue.mkMessage (str "a") true 1 (Some 2) [];
     MessageQueue.mkMessage (str "b") false 3 None [];
     MessageQueue.mkMessage (str "c") false 4 None []] [].

(** Scenario A of the specification after the character pass. *)
Definition helloRun : JSString := str "aa Hello hello HELLO world".

End Examples.

Import Examples.

(* ================================================================== *)
(** * Properties of strings *)

Section Strings.

Lemma eqb_eq (a b : JSString) : eqb a b = true <-> a = b.
Proof.
  revert b; induction a as [|x a IH]; intros [|y b]; simpl;
    try (split; [discriminate | discriminate]); try tauto.
  rewrite andb_true_iff, Ascii.eqb_eq, IH.
  split; [intros [-> ->]; reflexivity | intros H; inversion H; auto].
Qed.

Lemma eqb_refl (a : JSString) : eqb a a = true.
Proof. apply eqb_eq; reflexivity. Qed.

Lemma startsWith_app (p s : JSString) : startsWith (p ++ s) p = true.
Proof.
  induction p as [|x p IH]; simpl; [reflexivity|].
  rewrite Ascii.eqb_refl, IH; reflexivity.
Qed.

Lemma startsWith_split (s p : JSString) :
  startsWith s p = true -> s = p ++ skipn (length p) s.
Proof.
  revert s; induction p as [|x p IH]; intros s; [intros _; reflexivity|].
  destruct s as [|y s]; simpl; [discriminate|].
  rewrite andb_true_iff, Ascii.eqb_eq; intros [-> H].
  f_equal; apply IH, H.
Qed.

End Strings.

(* ================================================================== *)
(** * Properties of FilterManager.checkString *)

Section CheckString.

Import FilterManager.

Variables (now : Date) (o : CheckOptions) (text : JSString).

Lemma firstExpiry_app (l1 l2 : list BlackItem) :
  firstExpiry (l1 ++ l2) = orElse (firstExpiry l1) (firstExpiry l2).
Proof.
  induction l1 as [|b l1 IH]; simpl; [reflexivity|].
  destruct (expiryOf b); [reflexivity | exact IH].
Qed.

Lemma lastExpiry_app (l1 l2 : list BlackItem) :
  lastExpiry (l1 ++ l2) = orElse (lastExpiry l2) (lastExpiry l1).
Proof. unfold lastExpiry; rewrite rev_app_distr; apply firstExpiry_app. Qed.

Lemma orElse_assoc {A} (a b c : option A) :
  orElse a (orElse b c) = orElse (orElse a b) c.
Proof. destruct a; reflexivity. Qed.

(** The loop over an allow list appends its matching entries. *)
Lemma scanWhite_fold (ws : list JSString) (st : Scan) :
  fold_left (scanWhiteItem o text) ws st =
  mkScan (scanBlack st) (scanWhite st ++ filter (whiteMatches o text) ws)
         (scanReason st).
Proof.
  revert st; induction ws as [|w ws IH]; intros st; simpl.
  - rewrite app_nil_r; destruct st; reflexivity.
  - rewrite IH; unfold scanWhiteItem.
    destruct (whiteMatches o text w); simpl; [|reflexivity].
    rewrite <- app_assoc; reflexivity.
Qed.

(** The loop over a deny list appends its live matching entries, and
    every one of them that carries an expiry overwrites the reason. *)
Lemma scanBlack_fold (bs : list BlackItem) (st : Scan) :
  fold_left (scanBlackItem now o text) bs st =
  mkScan (scanBlack st ++ liveMatches now o text bs) (scanWhite st)
         (orElse (lastExpiry (liveMatches now o text bs)) (scanReason st)).
Proof.
  revert st; induction bs as [|b bs IH]; intros st; simpl.
  - rewrite app_nil_r; destruct st; reflexivity.
  - rewrite IH; unfold scanBlackItem, liveMatches; simpl.
    destruct (expiredEntry now b); simpl; [reflexivity|].
    destruct (blackMatches o text b); simpl; [|reflexivity].
    rewrite <- app_assoc; simpl.
    change (b :: ?l) with ([b] ++ l).
    rewrite lastExpiry_app, <- orElse_assoc.
    do 2 f_equal.
    destruct b as [s|[it [e|]]]; reflexivity.
Qed.

Lemma scanFilter_spec (f : Filter) (st : Scan) :
  scanFilter now o text st f =
  mkScan (scanBlack st ++ liveMatches now o text (blackList f))
         (scanWhite st ++ filter (whiteMatches o text) (whiteList f))
         (orElse (lastExpiry (liveMatches now o text (blackList f)))
                 (scanReason st)).
Proof.
  unfold scanFilter; rewrite scanBlack_fold, scanWhite_fold; reflexivity.
Qed.

Lemma scanFilters_fold (fs : list Filter) (st : Scan) :
  fold_left (scanFilter now o text) fs st =
  mkScan
    (scanBlack st ++ flat_map (fun f => liveMatches now o text (blackList f)) fs)
    (scanWhite st ++ flat_map (fun f => filter (whiteMatches o text) (whiteList f)) fs)
    (orElse
       (lastExpiry (flat_map (fun f => liveMatches now o text (blackList f)) fs))
       (scanReason st)).
Proof.
  revert st; induction fs as [|f fs IH]; intros st; simpl.
  - rewrite !app_nil_r; destruct st; reflexivity.
  - rewrite IH, scanFilter_spec; simpl.
    rewrite <- !app_assoc, lastExpiry_app, <- orElse_assoc; reflexivity.
Qed.

(** What the scan of [checkString] collects. *)
Lemma scanAll_spec (fs : list Filter) :
  scanAll now o text fs =
  mkScan (denyMatches now o text fs) (allowMatches o text fs)
         (lastExpiry (denyMatches now o text fs)).
Proof.
  unfold scanAll; rewrite scanFilters_fold; simpl.
  unfold denyMatches, allowMatches.
  destruct (lastExpiry _); reflexivity.
Qed.

Lemma nonempty_length {A} (l : list A) :
  (0 <? length l)%nat = negb (match l with [] => true | _ => false end).
Proof. destruct l; reflexivity. Qed.

(** The verdict in terms of the two lists of matches. *)
Lemma checkString_spec (m : Manager) :
  checkString now m text o =
  match allowMatches o text (filters m), denyMatches now o text (filters m) with
  | _ :: _, _ =>
      mkResult true false (denyMatches now o text (filters m))
        (allowMatches o text (filters m)) whitelist None
  | [], _ :: _ =>
      mkResult false true (denyMatches now o text (filters m)) [] blacklist
        (lastExpiry (denyMatches now o text (filters m)))
  | [], [] => mkResult true false [] [] none None
  end.
Proof.
  unfold checkString; rewrite scanAll_spec; simpl.
  destruct (allowMatches o text (filters m)); simpl; [|reflexivity].
  destruct (denyMatches now o text (filters m)); reflexivity.
Qed.

Lemma matchedBlackList_spec (m : Manager) :
  matchedBlackList (checkString now m text o) =
  denyMatches now o text (filters m).
Proof.
  rewrite checkString_spec.
  destruct (allowMatches o text (filters m));
    [destruct (denyMatches now o text (filters m))|]; reflexivity.
Qed.

Lemma allowMatches_In (fs : list Filter) (w : JSString) :
  In w (allowMatches o text fs) <->
  exists f, In f fs /\ isActive f = true /\ In w (whiteList f)
            /\ whiteMatches o text w = true.
Proof.
  unfold allowMatches; rewrite in_flat_map; split.
  - intros (f & Hf & Hw); apply filter_In in Hf, Hw.
    exists f; tauto.
  - intros (f & Hf & Ha & Hw & Hm); exists f.
    rewrite !filter_In; tauto.
Qed.

Lemma denyMatches_In (fs : list Filter) (b : BlackItem) :
  In b (denyMatches now o text fs) <->
  exists f, In f fs /\ isActive f = true /\ In b (blackList f)
            /\ expiredEntry now b = false /\ blackMatches o text b = true.
Proof.
  unfold denyMatches, liveMatches; rewrite in_flat_map; split.
  - intros (f & Hf & Hb); apply filter_In in Hf, Hb.
    destruct Hb as [Hb Hl]; apply andb_true_iff in Hl.
    rewrite negb_true_iff in Hl; exists f; tauto.
  - intros (f & Hf & Ha & Hb & He & Hm); exists f.
    rewrite !filter_In, He, Hm; tauto.
Qed.

End CheckString.

Section Verdicts.

Import FilterManager.

(** C1.  An allow-list match on any active filter gives the verdict
    [isAllowed = true] with reason [whitelist], whatever the table holds
    otherwise and however many deny entries match. *)
Theorem checkString_whitelist_overrides
    (now : Date) (m : Manager) (text : JSString) (o : CheckOptions)
    (f : Filter) (w : JSString) :
  In f (filters m) -> isActive f = true -> In w (whiteList f) ->
  whiteMatches o text w = true ->
  let r := checkString now m text o in
  isAllowed r = true /\ isBlocked r = false /\ reason r = whitelist
  /\ In w (matchedWhiteList r)
  /\ matchedBlackList r = denyMatches now o text (filters m).
Proof.
  intros Hf Ha Hw Hm r.
  assert (Hin : In w (allowMatches o text (filters m))).
  { apply allowMatches_In; exists f; tauto. }
  subst r; rewrite checkString_spec.
  destruct (allowMatches o text (filters m)) as [|a l]; [destruct Hin|].
  simpl; tauto.
Qed.

Lemma checkString_whitelist_overrides_witness :
  let r := checkString 1000 scenarioD
             (str "this is not spam at all, really") noOptions in
  isAllowed r = true /\ isBlocked r = false /\ reason r = whitelist
  /\ In (str "not spam at all") (matchedWhiteList r)
  /\ matchedBlackList r =
     denyMatches 1000 noOptions (str "this is not spam at all, really")
       (filters scenarioD).
Proof.
  apply (checkString_whitelist_overrides 1000 scenarioD
           (str "this is not spam at all, really") noOptions
           (mkFilter (str "default") [BString (str "spam")]
              [str "not spam at all"] 0 0 true) (str "not spam at all")).
  - left; reflexivity.
  - reflexivity.
  - left; reflexivity.
  - vm_compute; reflexivity.
Defined.

(** Dropping entries that ended before [now] from a deny list does
    not change what the scan finds in it. *)
Lemma liveMatches_absentEnded (now : Date) (o : CheckOptions)
    (text : JSString) (l l' : list BlackItem) :
  absentEnded now l l' -> liveMatches now o text l' = liveMatches now o text l.
Proof.
  unfold liveMatches; induction 1 as [|b l l' _ IH|it e l l' He _ IH];
    cbn [filter]; [reflexivity| |].
  - rewrite IH; reflexivity.
  - cbn [expiredEntry isItemExpired expiresAt].
    apply Z.ltb_lt in He; rewrite He; exact IH.
Qed.

Lemma scan_sameButEnded (now : Date) (o : CheckOptions) (text : JSString)
    (fs fs' : list Filter) :
  sameButEnded now fs fs' ->
  denyMatches now o text fs' = denyMatches now o text fs
  /\ allowMatches o text fs' = allowMatches o text fs.
Proof.
  unfold denyMatches, allowMatches.
  induction 1 as [|f f' fs fs' (Hw & Ha & Hb) _ [IHd IHa]];
    [split; reflexivity|].
  cbn [filter]; rewrite Ha; destruct (isActive f); [|split; assumption].
  cbn [flat_map]; rewrite IHd, IHa, Hw, (liveMatches_absentEnded _ _ _ _ _ Hb).
  split; reflexivity.
Qed.

(** A deny entry among the matches with an expiry has not ended. *)
Lemma denyMatches_not_ended (now : Date) (o : CheckOptions) (text : JSString)
    (fs : list Filter) (it : JSString) (e : Date) :
  In (BTimed (mkTimed it (Some e))) (denyMatches now o text fs) -> now <= e.
Proof.
  intros H; apply denyMatches_In in H.
  destruct H as (f & _ & _ & _ & He & _).
  cbn [expiredEntry isItemExpired expiresAt] in He.
  apply Z.ltb_ge, He.
Qed.

(** C3.  A deny entry whose [expiresAt] is earlier than the time of
    the check is treated as absent.  No such entry is among the matched
    deny entries; the verdict is the one of any table that differs only
    in that some of these entries are not there; a text is blocked only
    when an entry that has not ended matches it; and a table all of
    whose deny entries have ended blocks nothing. *)
Theorem checkString_expired_as_absent
    (now : Date) (m : Manager) (text : JSString) (o : CheckOptions) :
  let r := checkString now m text o in
  (forall it e, e < now ->
     ~ In (BTimed (mkTimed it (Some e))) (matchedBlackList r))
  /\ (forall m', sameButEnded now (filters m) (filters m') ->
        checkString now m' text o = r)
  /\ (isBlocked r = true \/ reason r = blacklist ->
      exists f b, In f (filters m) /\ isActive f = true
                  /\ In b (blackList f) /\ In b (matchedBlackList r)
                  /\ (forall it e, b = BTimed (mkTimed it (Some e)) ->
                                   now <= e))
  /\ (allEnded now (filters m) ->
      isAllowed r = true /\ isBlocked r = false
      /\ matchedBlackList r = [] /\ reason r <> blacklist).
Proof.
  intros r.
  assert (H1 : forall it e, e < now ->
             ~ In (BTimed (mkTimed it (Some e))) (matchedBlackList r)).
  { intros it e He Hin; subst r; rewrite matchedBlackList_spec in Hin.
    apply denyMatches_not_ended in Hin; lia. }
  split; [exact H1|]; split; [|split].
  - intros m' Hm'; subst r; rewrite !checkString_spec.
    destruct (scan_sameButEnded now o text _ _ Hm') as [-> ->]; reflexivity.
  - intros Hb.
    assert (Hd : exists b, In b (matchedBlackList r)).
    { subst r; rewrite checkString_spec in *.
      destruct (allowMatches o text (filters m));
        [destruct (denyMatches now o text (filters m)) as [|b l]|];
        cbn [isBlocked reason matchedBlackList] in *;
        try (destruct Hb; discriminate).
      exists b; left; reflexivity. }
    destruct Hd as [b Hin]; pose proof Hin as Hin'.
    subst r; rewrite matchedBlackList_spec in Hin'.
    pose proof Hin' as Hlive; apply denyMatches_In in Hin'.
    destruct Hin' as (f & Hf & Ha & Hb' & _ & _).
    exists f, b; repeat split; try assumption.
    intros it e ->; exact (denyMatches_not_ended _ _ _ _ _ _ Hlive).
  - intros Hall.
    assert (Hnil : matchedBlackList r = []).
    { destruct (matchedBlackList r) as [|b l] eqn:E; [reflexivity|].
      assert (Hin : In b (matchedBlackList r)) by (rewrite E; left; reflexivity).
      pose proof Hin as Hin'; subst r; rewrite matchedBlackList_spec in Hin'.
      apply denyMatches_In in Hin'.
      destruct Hin' as (f & Hf & _ & Hb & _).
      destruct (Hall f b Hf Hb) as (it & e & -> & He).
      rewrite <- E in H1; destruct (H1 it e He Hin). }
    subst r; rewrite matchedBlackList_spec in Hnil.
    rewrite checkString_spec, Hnil.
    destruct (allowMatches o text (filters m)); cbn;
      repeat split; discriminate.
Qed.

Lemma checkString_expired_as_absent_witness :
  let r := checkString 1000 expiredBan (str "spam") noOptions in
  500 < 1000
  /\ ~ In (BTimed (mkTimed (str "spam") (Some 500))) (matchedBlackList r)
  /\ checkString 1000 emptyBan (str "spam") noOptions = r
  /\ isAllowed r = true /\ isBlocked r = false /\ matchedBlackList r = [].
Proof.
  destruct (checkString_expired_as_absent 1000 expiredBan (str "spam") noOptions)
    as (H1 & H2 & _ & H4).
  assert (He : 500 < 1000) by lia.
  split; [exact He|]; split; [exact (H1 (str "spam") 500 He)|]; split.
  - apply (H2 emptyBan); constructor; [|constructor].
    repeat split; apply absent_ended; [exact He | constructor].
  - assert (Hall : allEnded 1000 (filters expiredBan)).
    { intros f b [<- | []] [<- | []]; exists (str "spam"), 500.
      split; [reflexivity | exact He]. }
    destruct (H4 Hall) as (Ha & Hb & Hm & _); repeat split; assumption.
Defined.

(** C5, as the code has it.  When no allow entry of an active filter
    matches and some live deny entry does, the verdict is [blacklist]
    and its [expirationReason] comes from the last deny match, in scan
    order, that carries an expiry: every such match overwrites it. *)
Theorem checkString_blacklist_last_expiry
    (now : Date) (m : Manager) (text : JSString) (o : CheckOptions) :
  allowMatches o text (filters m) = [] ->
  denyMatches now o text (filters m) <> [] ->
  let r := checkString now m text o in
  isAllowed r = false /\ isBlocked r = true /\ reason r = blacklist
  /\ matchedBlackList r = denyMatches now o text (filters m)
  /\ expirationReason r = lastExpiry (matchedBlackList r).
Proof.
  intros Ha Hd r; subst r; rewrite checkString_spec, Ha.
  destruct (denyMatches now o text (filters m)); [congruence|].
  simpl; tauto.
Qed.

Lemma checkString_blacklist_last_expiry_witness :
  allowMatches noOptions (str "spam") (filters twoBans) = []
  /\ denyMatches 1000 noOptions (str "spam") (filters twoBans) <> []
  /\ let r := checkString 1000 twoBans (str "spam") noOptions in
     isAllowed r = false /\ isBlocked r = true /\ reason r = blacklist
     /\ matchedBlackList r =
        denyMatches 1000 noOptions (str "spam") (filters twoBans)
     /\ expirationReason r = lastExpiry (matchedBlackList r).
Proof.
  split; [reflexivity|]; split; [vm_compute; discriminate|].
  apply (checkString_blacklist_last_expiry 1000 twoBans (str "spam") noOptions).
  - reflexivity.
  - vm_compute; discriminate.
Defined.

(** C5 as it is worded fails: with the two bans above the verdict is
    [blacklist] with both entries matched and no allow match, and the
    reason is the one of the second ban, not of the first. *)
Lemma checkString_first_expiry_counterexample :
  let r := checkString 1000 twoBans (str "spam") noOptions in
  reason r = blacklist
  /\ matchedWhiteList r = []
  /\ matchedBlackList r =
     [BTimed (mkTimed (str "spam") (Some 5000));
      BTimed (mkTimed (str "pam") (Some 9000))]
  /\ firstExpiry (matchedBlackList r) = Some (BlockedUntil 5000)
  /\ expirationReason r = Some (BlockedUntil 9000)
  /\ expirationReason r <> firstExpiry (matchedBlackList r).
Proof.
  vm_compute; repeat split; discriminate.
Qed.

Lemma matches_off (o : CheckOptions) (a b : JSString) :
  optExact o = false -> optPartial o = false -> matches o a b = false.
Proof. unfold matches; intros -> ->; reflexivity. Qed.

(** C10.  With [exactMatch] and [partialMatch] both [false] no entry
    is compared with the text: nothing is matched and the verdict is
    [{isAllowed: true, isBlocked: false, reason: 'none'}], whatever the
    lists hold. *)
Theorem checkString_no_mode_allows
    (now : Date) (m : Manager) (text : JSString) (cs : option bool) :
  checkString now m text (mkOptions cs (Some false) (Some false)) =
  mkResult true false [] [] none None.
Proof.
  set (o := mkOptions cs (Some false) (Some false)).
  assert (Hb : forall b, blackMatches o text b = false)
    by (intros b; apply matches_off; reflexivity).
  assert (Hw : forall w, whiteMatches o text w = false)
    by (intros w; apply matches_off; reflexivity).
  assert (Hd : denyMatches now o text (filters m) = []).
  { unfold denyMatches; induction (filter isActive (filters m)) as [|f fs IH];
      cbn [flat_map]; [reflexivity|].
    rewrite IH, app_nil_r; unfold liveMatches.
    induction (blackList f) as [|b bl IHb]; cbn [filter]; [reflexivity|].
    rewrite Hb, andb_false_r; exact IHb. }
  assert (Ha : allowMatches o text (filters m) = []).
  { unfold allowMatches; induction (filter isActive (filters m)) as [|f fs IH];
      cbn [flat_map]; [reflexivity|].
    rewrite IH, app_nil_r.
    induction (whiteList f) as [|w wl IHw]; cbn [filter]; [reflexivity|].
    rewrite Hw; exact IHw. }
  rewrite checkString_spec, Ha, Hd; reflexivity.
Qed.

End Verdicts.

(* ================================================================== *)
(** * Properties of the expiry sweep *)

Section Sweep.

Import FilterManager.

Lemma filter_all {A} (p : A -> bool) (l : list A) :
  (forall x, In x l -> p x = true) -> filter p l = l.
Proof.
  induction l as [|x l IH]; intros H; simpl; [reflexivity|].
  rewrite (H x (or_introl eq_refl)), IH; [reflexivity|].
  intros y Hy; apply H; right; exact Hy.
Qed.

Lemma filter_length_lt {A} (p : A -> bool) (l : list A) (x : A) :
  In x l -> p x = false -> (length (filter p l) < length l)%nat.
Proof.
  induction l as [|y l IH]; intros Hin Hp; [destruct Hin|].
  simpl; destruct Hin as [-> | Hin].
  - rewrite Hp; pose proof (filter_length_le p l); lia.
  - specialize (IH Hin Hp); destruct (p y); simpl; lia.
Qed.

Lemma setBlackList_same (f : Filter) : setBlackList f (blackList f) = f.
Proof. destruct f; reflexivity. Qed.

(** A filter without expired entries is left as it is. *)
Lemma cleanFilter_noop (now : Date) (f : Filter) :
  (forall b, In b (blackList f) -> expiredEntry now b = false) ->
  cleanFilter now f = (f, false).
Proof.
  intros H; unfold cleanFilter.
  rewrite filter_all by (intros b Hb; rewrite (H b Hb); reflexivity).
  rewrite Nat.ltb_irrefl, setBlackList_same; reflexivity.
Qed.

(** A filter with an expired entry sets [changed]. *)
Lemma cleanFilter_changed (now : Date) (f : Filter) (b : BlackItem) :
  In b (blackList f) -> expiredEntry now b = true ->
  snd (cleanFilter now f) = true.
Proof.
  intros Hb He; unfold cleanFilter.
  assert (Hlt : (length (filter (fun i => negb (expiredEntry now i))
                                (blackList f)) < length (blackList f))%nat).
  { apply (filter_length_lt _ _ b Hb); rewrite He; reflexivity. }
  apply Nat.ltb_lt in Hlt; rewrite Hlt; reflexivity.
Qed.

Lemma unchanged_all (fs : list Filter) :
  existsb snd (map (fun f : Filter => (f, false)) fs) = false.
Proof. induction fs as [|f fs IH]; [reflexivity | exact IH]. Qed.

Lemma sweep_noop (now : Date) (m : Manager) :
  (forall f b, In f (filters m) -> In b (blackList f) ->
               expiredEntry now b = false) ->
  cleanExpiredBlacklistItems now m = m.
Proof.
  intros H; unfold cleanExpiredBlacklistItems.
  assert (E : map (cleanFilter now) (filters m) =
              map (fun f => (f, false)) (filters m)).
  { apply map_ext_in; intros f Hf; apply cleanFilter_noop.
    intros b Hb; exact (H f b Hf Hb). }
  rewrite E.
  rewrite unchanged_all, map_map; simpl; rewrite map_id; destruct m; reflexivity.
Qed.

(** C7.  A second run of the sweep, at a time at which no remaining
    deny entry is expired, changes nothing: not the table and not the
    storage.  A run writes the table to the storage when some deny entry
    was expired, and therefore removed, and leaves table and storage as
    they are when none was. *)
Theorem sweep_idempotent (now1 now2 : Date) (m : Manager) :
  let m1 := cleanExpiredBlacklistItems now1 m in
  (forall f b, In f (filters m1) -> In b (blackList f) ->
               expiredEntry now2 b = false) ->
  cleanExpiredBlacklistItems now2 m1 = m1
  /\ (someExpired now1 (filters m) -> saved m1 = filters m1 :: saved m)
  /\ (~ someExpired now1 (filters m) -> m1 = m).
Proof.
  intros m1 H; split; [exact (sweep_noop now2 m1 H)|]; split.
  - intros (f & b & Hf & Hb & He); subst m1.
    unfold cleanExpiredBlacklistItems.
    assert (E : existsb snd (map (cleanFilter now1) (filters m)) = true).
    { apply existsb_exists; exists (cleanFilter now1 f); split.
      - apply in_map, Hf.
      - exact (cleanFilter_changed now1 f b Hb He). }
    rewrite E; reflexivity.
  - intros Hn; subst m1; apply sweep_noop.
    intros f b Hf Hb; destruct (expiredEntry now1 b) eqn:E; [|reflexivity].
    exfalso; apply Hn; exists f, b; tauto.
Qed.

(** An entry the sweep keeps is not expired at the time of the sweep:
    two runs at the same time always meet the condition above. *)
Lemma sweep_leaves_live (now : Date) (m : Manager) (f : Filter) (b : BlackItem) :
  In f (filters (cleanExpiredBlacklistItems now m)) -> In b (blackList f) ->
  expiredEntry now b = false.
Proof.
  unfold cleanExpiredBlacklistItems.
  assert (E : forall c : bool,
             filters (if c
                      then saveFilters
                             (mkManager (map fst (map (cleanFilter now) (filters m)))
                                        (saved m))
                      else mkManager (map fst (map (cleanFilter now) (filters m)))
                                     (saved m)) =
             map fst (map (cleanFilter now) (filters m)))
    by (intros []; reflexivity).
  rewrite E, map_map; intros Hf Hb.
  apply in_map_iff in Hf; destruct Hf as (g & <- & _).
  unfold cleanFilter in Hb.
  destruct (_ <? _)%nat; simpl in Hb; apply filter_In in Hb;
    destruct Hb as [_ Hb]; apply negb_true_iff in Hb; exact Hb.
Qed.

Lemma sweep_idempotent_witness :
  let m1 := cleanExpiredBlacklistItems 1000 sweepTable in
  (forall f b, In f (filters m1) -> In b (blackList f) ->
               expiredEntry 2000 b = false)
  /\ cleanExpiredBlacklistItems 2000 m1 = m1
  /\ (someExpired 1000 (filters sweepTable) ->
      saved m1 = filters m1 :: saved sweepTable)
  /\ (~ someExpired 1000 (filters sweepTable) -> m1 = sweepTable).
Proof.
  assert (H : forall f b,
             In f (filters (cleanExpiredBlacklistItems 1000 sweepTable)) ->
             In b (blackList f) -> expiredEntry 2000 b = false).
  { intros f b [<- | []] [<- | [<- | []]]; reflexivity. }
  split; [exact H | exact (sweep_idempotent 1000 2000 sweepTable H)].
Defined.

End Sweep.

(* ================================================================== *)
(** * Properties of the mutators *)

Section Mutators.

Import FilterManager.

Lemma find_app_free (i : JSString) (pre post : list Filter) (f : Filter) :
  idFree i pre -> id f = i ->
  find (fun g => eqb (id g) i) (pre ++ f :: post) = Some f.
Proof.
  intros Hpre Hf; induction pre as [|g pre IH]; simpl.
  - rewrite Hf, eqb_refl; reflexivity.
  - destruct (eqb (id g) i) eqn:E.
    + apply eqb_eq in E; destruct (Hpre g (or_introl eq_refl) E).
    + apply IH; intros h Hh; apply Hpre; right; exact Hh.
Qed.

(** The mutators change the first filter with the id and nothing else. *)
Lemma mutateFirst_app_free (i : JSString) (g : Filter -> Filter)
    (pre post : list Filter) (f : Filter) :
  idFree i pre -> id f = i ->
  mutateFirst i g (pre ++ f :: post) = Some (pre ++ g f :: post).
Proof.
  intros Hpre Hf; induction pre as [|h pre IH]; simpl.
  - rewrite Hf, eqb_refl; reflexivity.
  - destruct (eqb (id h) i) eqn:E.
    + apply eqb_eq in E; destruct (Hpre h (or_introl eq_refl) E).
    + rewrite IH; [reflexivity|].
      intros k Hk; apply Hpre; right; exact Hk.
Qed.

Lemma removeFirst_app_free (i : JSString) (pre post : list Filter) (f : Filter) :
  idFree i pre -> id f = i ->
  removeFirst i (pre ++ f :: post) = Some (pre ++ post).
Proof.
  intros Hpre Hf; induction pre as [|h pre IH]; simpl.
  - rewrite Hf, eqb_refl; reflexivity.
  - destruct (eqb (id h) i) eqn:E.
    + apply eqb_eq in E; destruct (Hpre h (or_introl eq_refl) E).
    + rewrite IH; [reflexivity|].
      intros k Hk; apply Hpre; right; exact Hk.
Qed.

Lemma find_split (i : JSString) (fs : list Filter) (f : Filter) :
  find (fun g => eqb (id g) i) fs = Some f ->
  exists pre post, fs = pre ++ f :: post /\ idFree i pre /\ id f = i.
Proof.
  induction fs as [|h fs IH]; simpl; [discriminate|].
  destruct (eqb (id h) i) eqn:E.
  - intros [= ->]; exists [], fs; repeat split.
    + intros g [].
    + apply eqb_eq, E.
  - intros H; destruct (IH H) as (pre & post & -> & Hpre & Hf).
    exists (h :: pre), post; repeat split; [|exact Hf].
    intros g [<- | Hg]; [|apply Hpre, Hg].
    intros Hid; rewrite Hid, eqb_refl in E; discriminate.
Qed.

(** What a mutator does to a table that holds the id. *)
Lemma mutate_found (now : Date) (i : JSString) (g : Filter -> Filter)
    (m : Manager) (f : Filter) :
  getFilter i m = Some f ->
  (forall h, id (g h) = id h) ->
  exists pre post,
    filters m = pre ++ f :: post /\ idFree i pre /\
    mutate now i g m =
    (saveFilters (mkManager (pre ++ setUpdatedAt (g f) now :: post) (saved m)),
     true) /\
    getFilter i (fst (mutate now i g m)) = Some (setUpdatedAt (g f) now).
Proof.
  intros Hget Hid; unfold getFilter in Hget.
  destruct (find_split i (filters m) f Hget) as (pre & post & E & Hpre & Hf).
  exists pre, post; split; [exact E|]; split; [exact Hpre|].
  unfold mutate; rewrite E.
  rewrite (mutateFirst_app_free i _ pre post f Hpre Hf).
  split; [reflexivity|].
  unfold getFilter; simpl; apply find_app_free; [exact Hpre|].
  simpl; rewrite Hid; exact Hf.
Qed.

(** ** De-duplication on insert *)

Lemma findIndex_first {A} (p : A -> bool) (pre l : list A) (x : A) :
  existsb p pre = false -> p x = true ->
  findIndex p (pre ++ x :: l) = Some (length pre).
Proof.
  intros Hpre Hx; induction pre as [|y pre IH]; simpl in *.
  - rewrite Hx; reflexivity.
  - apply orb_false_iff in Hpre; destruct Hpre as [Hy Hpre].
    rewrite Hy, (IH Hpre); reflexivity.
Qed.

Lemma findIndex_earlier {A} (p : A -> bool) (pre l : list A) :
  existsb p pre = true ->
  exists j, findIndex p (pre ++ l) = Some j /\ (j < length pre)%nat.
Proof.
  induction pre as [|y pre IH]; simpl; [discriminate|].
  destruct (p y); simpl.
  - intros _; exists 0%nat; split; [reflexivity | lia].
  - intros H; destruct (IH H) as (j & -> & Hj).
    exists (S j); split; [reflexivity | lia].
Qed.

(** The filter of [addToBlackList] keeps, of the entries with one
    identity, the first and only the first. *)
Lemma dedupFrom_identity (k : JSString) (l pre : list BlackItem) :
  filter (hasIdentity k) (dedupFrom (pre ++ l) (length pre) l) =
  if existsb (hasIdentity k) pre then []
  else match find (hasIdentity k) l with
       | Some e => [e]
       | None => []
       end.
Proof.
  revert pre; induction l as [|v l IH]; intros pre.
  - simpl; destruct (existsb _ pre); reflexivity.
  - assert (Hrec : filter (hasIdentity k)
                     (dedupFrom (pre ++ v :: l) (S (length pre)) l) =
                   if existsb (hasIdentity k) (pre ++ [v]) then []
                   else match find (hasIdentity k) l with
                        | Some e => [e]
                        | None => []
                        end).
    { specialize (IH (pre ++ [v])).
      rewrite <- app_assoc, length_app, Nat.add_1_r in IH; exact IH. }
    rewrite existsb_app in Hrec; simpl in Hrec; rewrite orb_false_r in Hrec.
    cbn [dedupFrom find].
    change (fun t => eqb (normalizeItem t) (normalizeItem v))
      with (hasIdentity (normalizeItem v)).
    assert (Hv : hasIdentity (normalizeItem v) v = true) by apply eqb_refl.
    destruct (existsb (hasIdentity (normalizeItem v)) pre) eqn:Epre.
    + destruct (findIndex_earlier _ pre (v :: l) Epre) as (j & -> & Hj).
      replace (length pre =? j)%nat with false
        by (symmetry; apply Nat.eqb_neq; lia).
      rewrite Hrec.
      destruct (hasIdentity k v) eqn:Ev.
      * apply eqb_eq in Ev; subst k; rewrite Epre; reflexivity.
      * rewrite orb_false_r; reflexivity.
    + rewrite (findIndex_first _ pre l v Epre Hv), Nat.eqb_refl.
      cbn [filter]; rewrite Hrec.
      destruct (hasIdentity k v) eqn:Ev.
      * pose proof Ev as Ek; apply eqb_eq in Ek; subst k.
        rewrite Epre, orb_true_r; reflexivity.
      * rewrite orb_false_r; reflexivity.
Qed.

Lemma dedup_identity (k : JSString) (l : list BlackItem) :
  filter (hasIdentity k) (dedup l) =
  match find (hasIdentity k) l with
  | Some e => [e]
  | None => []
  end.
Proof. exact (dedupFrom_identity k l []). Qed.

Lemma find_app_first {A} (p : A -> bool) (l1 l2 : list A) (e : A) :
  find p l1 = Some e -> find p (l1 ++ l2) = Some e.
Proof.
  induction l1 as [|x l1 IH]; simpl; [discriminate|].
  destruct (p x); [tauto | exact IH].
Qed.

(** C4, as the code has it.  When the deny list of the filter already
    holds an entry with the trim-only identity [k], then after
    [addToBlackList], whatever items it inserts, the list holds exactly
    one entry with that identity, and it is the first entry that was
    there before, with the expiry it had: the colliding new entry is the
    one dropped. *)
Theorem addToBlackList_keeps_existing
    (now : Date) (i : JSString) (items : list JSString)
    (expiresInSeconds : option Z) (m : Manager) (f : Filter)
    (k : JSString) (e : BlackItem) :
  getFilter i m = Some f ->
  find (hasIdentity k) (blackList f) = Some e ->
  let r := addToBlackList now i items expiresInSeconds m in
  snd r = true
  /\ exists f', getFilter i (fst r) = Some f'
                /\ filter (hasIdentity k) (blackList f') = [e].
Proof.
  intros Hget Hfind r; subst r; unfold addToBlackList.
  destruct (mutate_found now i
              (fun f => setBlackList f
                 (dedup (blackList f ++
                         newBlackListItems now items expiresInSeconds)))
              m f Hget (fun h => eq_refl))
    as (pre & post & _ & _ & -> & Hg).
  split; [reflexivity|].
  eexists; split; [exact Hg|].
  simpl; rewrite dedup_identity, (find_app_first _ _ _ _ Hfind); reflexivity.
Qed.

Lemma addToBlackList_keeps_existing_witness :
  getFilter (str "default") scenarioD =
    Some (mkFilter (str "default") [BString (str "spam")]
            [str "not spam at all"] 0 0 true)
  /\ find (hasIdentity (str "spam")) [BString (str "spam")] =
       Some (BString (str "spam"))
  /\ let r := addToBlackList 1000 (str "default") [str " spam "] (Some 60)
                scenarioD in
     snd r = true
     /\ exists f', getFilter (str "default") (fst r) = Some f'
                   /\ filter (hasIdentity (str "spam")) (blackList f') =
                      [BString (str "spam")].
Proof.
  split; [reflexivity|]; split; [reflexivity|].
  apply (addToBlackList_keeps_existing 1000 (str "default") [str " spam "]
           (Some 60) scenarioD
           (mkFilter (str "default") [BString (str "spam")]
              [str "not spam at all"] 0 0 true)
           (str "spam") (BString (str "spam"))); reflexivity.
Defined.

(** C4 as it is worded fails: a ban of 60 seconds on an item that is
    already denied for good leaves the permanent entry, and the entry
    with the new expiry is not in the list. *)
Lemma addToBlackList_later_expiry_counterexample :
  let r := addToBlackList 1000 (str "default") [str "spam"] (Some 60)
             scenarioD in
  snd r = true
  /\ map blackList (filters (fst r)) = [[BString (str "spam")]]
  /\ newBlackListItems 1000 [str "spam"] (Some 60) =
     [BTimed (mkTimed (str "spam") (Some 61000))]
  /\ ~ In (BTimed (mkTimed (str "spam") (Some 61000)))
          (concat (map blackList (filters (fst r)))).
Proof.
  vm_compute; repeat split.
  intros [H | []]; discriminate.
Qed.

End Mutators.

Section CreateFilter.

Import FilterManager.

Lemma idFree_nil (i : JSString) : idFree i [].
Proof. intros f []. Qed.

Lemma idFree_find (i : JSString) (fs : list Filter) :
  find (fun g => eqb (id g) i) fs = None -> idFree i fs.
Proof.
  induction fs as [|h fs IH]; cbn [find]; [intros _ f []|].
  destruct (eqb (id h) i) eqn:E; [discriminate|].
  intros H f [<- | Hf]; [|exact (IH H f Hf)].
  intros Hid; rewrite Hid, eqb_refl in E; discriminate.
Qed.

(** Where the first filter with the id ["default"] stands after a
    filter with that id has been appended twice. *)
Lemma first_default (fs : list Filter) (f1 f2 : Filter) :
  id f1 = str "default" ->
  exists pre first rest,
    fs ++ [f1; f2] = pre ++ first :: rest ++ [f2]
    /\ idFree (str "default") pre /\ id first = str "default"
    /\ (idFree (str "default") fs -> pre = fs /\ first = f1 /\ rest = []).
Proof.
  intros H1.
  destruct (find (fun g => eqb (id g) (str "default")) fs) as [f0|] eqn:E.
  - destruct (find_split _ _ _ E) as (pre & post & -> & Hpre & Hf0).
    exists pre, f0, (post ++ [f1]).
    split; [rewrite <- !app_assoc; reflexivity|].
    split; [exact Hpre|]; split; [exact Hf0|].
    intros Hfree; destruct (Hfree f0); [|exact Hf0].
    apply in_or_app; right; left; reflexivity.
  - exists fs, f1, [].
    split; [reflexivity|]; split; [apply idFree_find, E|].
    split; [exact H1|]; intros _; repeat split.
Qed.

(** C9.  [createFilter] always returns a filter with the id
    ["default"] and appends it to the table, so after two calls the
    table ends with two filters of that id.  Every operation that takes
    an id then addresses one and the same filter, the first of the table
    with the id, which stands before the filter of the second call.  It
    is the filter of the first call when the table held no filter with
    the id before, and the head of the table, its oldest filter, when
    all its filters came from [createFilter].  [getFilter] returns it; [updateFilter],
    [addToBlackList], [addToWhiteList], [removeFromBlackList],
    [removeFromWhiteList] and [toggleFilter] rewrite it, stamp it and
    leave every other filter, the one of the second call among them, as
    it is; [deleteFilter] removes it and nothing else. *)
Theorem createFilter_constant_id
    (now1 now2 : Date) (bl1 wl1 bl2 wl2 : list JSString) (m : Manager) :
  let c1 := createFilter now1 bl1 wl1 m in
  let c2 := createFilter now2 bl2 wl2 (fst c1) in
  let f1 := snd c1 in
  let f2 := snd c2 in
  let m2 := fst c2 in
  id f1 = str "default" /\ id f2 = str "default"
  /\ filters m2 = filters m ++ [f1; f2]
  /\ exists pre first rest,
       let table x := pre ++ x ++ rest ++ [f2] in
       let done now h :=
         (saveFilters (mkManager (table [setUpdatedAt h now]) (saved m2)),
          true) in
       filters m2 = table [first]
       /\ idFree (str "default") pre /\ id first = str "default"
       /\ (idFree (str "default") (filters m) ->
           pre = filters m /\ first = f1 /\ rest = [])
       /\ ((forall f, In f (filters m) -> id f = str "default") -> pre = [])
       /\ getFilter (str "default") m2 = Some first
       /\ (forall now bl wl,
             updateFilter now (str "default") bl wl m2 =
             done now
               (let h :=
                  match bl with
                  | Some l => setBlackList first (map (fun x => BString (trim x)) l)
                  | None => first
                  end in
                match wl with
                | Some l => setWhiteList h (map trim l)
                | None => h
                end))
       /\ (forall now items secs,
             addToBlackList now (str "default") items secs m2 =
             done now
               (setBlackList first
                  (dedup (blackList first ++ newBlackListItems now items secs))))
       /\ (forall now items,
             addToWhiteList now (str "default") items m2 =
             done now
               (setWhiteList first
                  (whiteList first ++
                   filter (fun x => negb (existsb (eqb x) (whiteList first)))
                          (map trim items))))
       /\ (forall now items,
             removeFromBlackList now (str "default") items m2 =
             done now
               (setBlackList first
                  (filter (fun b => negb (existsb (fun x => eqb (normalizeItem b)
                                                              (trim x)) items))
                          (blackList first))))
       /\ (forall now items,
             removeFromWhiteList now (str "default") items m2 =
             done now
               (setWhiteList first
                  (filter (fun w => negb (existsb (fun x => eqb w (trim x)) items))
                          (whiteList first))))
       /\ (forall now active,
             toggleFilter now (str "default") active m2 =
             done now
               (setIsActive first
                  (match active with
                   | Some b => b
                   | None => negb (isActive first)
                   end)))
       /\ deleteFilter (str "default") m2 =
          (saveFilters (mkManager (table []) (saved m2)), true).
Proof.
  intros c1 c2 f1 f2 m2.
  assert (Ht : filters m2 = filters m ++ [f1; f2]).
  { subst m2 c2 c1 f1 f2; simpl; rewrite <- app_assoc; reflexivity. }
  split; [reflexivity|]; split; [reflexivity|]; split; [exact Ht|].
  destruct (first_default (filters m) f1 f2 eq_refl)
    as (pre & first & rest & E & Hpre & Hfirst & Hfree).
  exists pre, first, rest; intros table done.
  assert (Et : filters m2 = pre ++ first :: rest ++ [f2])
    by (rewrite Ht; exact E).
  assert (Hmut : forall now g,
             mutate now (str "default") g m2 = done now (g first)).
  { intros now g; unfold mutate; rewrite Et.
    rewrite (mutateFirst_app_free (str "default") _ pre (rest ++ [f2]) first
               Hpre Hfirst); reflexivity. }
  split; [exact Et|]; split; [exact Hpre|]; split; [exact Hfirst|].
  split; [exact Hfree|]; split.
  { intros Hall; destruct pre as [|h pre]; [reflexivity|].
    destruct (Hpre h (or_introl eq_refl)).
    assert (Hin : In h (filters m ++ [f1; f2]))
      by (rewrite E; left; reflexivity).
    apply in_app_or in Hin; destruct Hin as [Hin | [<- | [<- | []]]];
      [exact (Hall h Hin) | reflexivity | reflexivity]. }
  split.
  { unfold getFilter; rewrite Et; apply find_app_free; assumption. }
  split; [intros now bl wl; unfold updateFilter; apply Hmut|].
  split; [intros now items secs; unfold addToBlackList; apply Hmut|].
  split; [intros now items; unfold addToWhiteList; apply Hmut|].
  split; [intros now items; unfold removeFromBlackList; apply Hmut|].
  split; [intros now items; unfold removeFromWhiteList; apply Hmut|].
  split; [intros now active; unfold toggleFilter; apply Hmut|].
  unfold deleteFilter; rewrite Et.
  rewrite (removeFirst_app_free (str "default") pre (rest ++ [f2]) first
             Hpre Hfirst); reflexivity.
Qed.

Lemma createFilter_constant_id_witness :
  idFree (str "default") (filters emptyManager)
  /\ let c1 := createFilter 10 [str "spam"] [] emptyManager in
     let c2 := createFilter 20 [] [str "ok"] (fst c1) in
     getFilter (str "default") (fst c2) = Some (snd c1)
     /\ filters (fst (updateFilter 30 (str "default") (Some [str " ads "]) None
                       (fst c2))) =
        [mkFilter (str "default") [BString (str "ads")] [] 10 30 true; snd c2]
     /\ filters (fst (deleteFilter (str "default") (fst c2))) = [snd c2].
Proof.
  split; [apply idFree_nil|].
  destruct (createFilter_constant_id 10 20 [str "spam"] [] [] [str "ok"]
              emptyManager)
    as (_ & _ & _ & pre & first & rest & _ & _ & _ & Hfree & _ & Hget & Hupd
        & _ & _ & _ & _ & _ & Hdel).
  destruct (Hfree (idFree_nil _)) as (-> & -> & ->).
  split; [exact Hget|]; split.
  - rewrite (Hupd 30 (Some [str " ads "]) None); reflexivity.
  - rewrite Hdel; reflexivity.
Defined.

End CreateFilter.

(* ================================================================== *)
(** * Properties of objects *)

Section Objects.

Context {V : Type}.

Implicit Types (props defs : list (JSString * V)) (k key : JSString).

Lemma hasOwn_In key props :
  hasOwn key props = true <-> In key (map fst props).
Proof.
  unfold hasOwn; induction props as [|[k v] props IH]; cbn [getOwn map fst].
  - split; [discriminate | intros []].
  - destruct (eqb k key) eqn:E.
    + apply eqb_eq in E; split; [left; exact E | reflexivity].
    + rewrite IH; split; [right; assumption|].
      intros [H | H]; [|exact H].
      subst k; rewrite eqb_refl in E; discriminate.
Qed.

Lemma hasOwn_not_In key props :
  hasOwn key props = false <-> ~ In key (map fst props).
Proof.
  rewrite <- hasOwn_In; destruct (hasOwn key props); split; congruence.
Qed.

Lemma defineProperty_keys key (value : V) props :
  map fst (defineProperty key value props) =
  if hasOwn key props then map fst props else map fst props ++ [key].
Proof.
  unfold hasOwn; induction props as [|[k v] props IH];
    cbn [defineProperty getOwn map fst app]; [reflexivity|].
  destruct (eqb k key) eqn:E; cbn [map fst]; [reflexivity|].
  rewrite IH; destruct (getOwn key props); reflexivity.
Qed.

Lemma defineProperty_In key (value : V) props (e : JSString * V) :
  In e (defineProperty key value props) -> e = (key, value) \/ In e props.
Proof.
  induction props as [|[k v] props IH]; cbn [defineProperty].
  - intros [H | []]; left; symmetry; exact H.
  - destruct (eqb k key) eqn:E.
    + apply eqb_eq in E; subst k.
      intros [H | H]; [left; symmetry; exact H | right; right; exact H].
    + intros [H | H]; [right; left; exact H|].
      destruct (IH H) as [H' | H']; [left; exact H' | right; right; exact H'].
Qed.

Lemma getOwn_defineProperty_same key (value : V) props :
  getOwn key (defineProperty key value props) = Some value.
Proof.
  induction props as [|[k v] props IH]; cbn [defineProperty getOwn].
  - rewrite eqb_refl; reflexivity.
  - destruct (eqb k key) eqn:E; cbn [getOwn]; rewrite E;
      [reflexivity | exact IH].
Qed.

Lemma getOwn_defineProperty_other key key' (value : V) props :
  key <> key' ->
  getOwn key (defineProperty key' value props) = getOwn key props.
Proof.
  intros Hne; induction props as [|[k v] props IH];
    cbn [defineProperty getOwn].
  - destruct (eqb key' key) eqn:E; [|reflexivity].
    apply eqb_eq in E; congruence.
  - destruct (eqb k key') eqn:E; cbn [getOwn].
    + apply eqb_eq in E; subst k.
      destruct (eqb key' key) eqn:E'; [|reflexivity].
      apply eqb_eq in E'; congruence.
    + rewrite IH; reflexivity.
Qed.

Lemma getOwn_In key props (v : V) :
  getOwn key props = Some v -> In (key, v) props.
Proof.
  induction props as [|[k w] props IH]; cbn [getOwn]; [discriminate|].
  destruct (eqb k key) eqn:E.
  - apply eqb_eq in E; intros [= ->]; left; subst; reflexivity.
  - intros H; right; exact (IH H).
Qed.

(** The object of a sequence of definitions that goes on with the
    definition [e]. *)
Lemma object_snoc defs (e : JSString * V) :
  object (defs ++ [e]) = defineProperty (fst e) (snd e) (object defs).
Proof. unfold object; rewrite fold_left_app; reflexivity. Qed.

(** Every property of the object was defined, with its value. *)
Lemma object_In defs (e : JSString * V) : In e (object defs) -> In e defs.
Proof.
  induction defs as [|d defs IH] using rev_ind; [intros []|].
  rewrite object_snoc; intros H; apply in_or_app.
  destruct (defineProperty_In _ _ _ _ H) as [-> | H'].
  - right; left; destruct d; reflexivity.
  - left; exact (IH H').
Qed.

(** Every key that was defined is a key of the object, once. *)
Lemma object_keys defs key :
  In key (map fst (object defs)) <-> In key (map fst defs).
Proof.
  induction defs as [|d defs IH] using rev_ind; [reflexivity|].
  rewrite object_snoc, defineProperty_keys, map_app, in_app_iff; cbn [map In].
  destruct (hasOwn (fst d) (object defs)) eqn:E.
  - rewrite IH; split; [left; assumption|].
    intros [H | [<- | []]]; [exact H|].
    apply IH, hasOwn_In, E.
  - rewrite in_app_iff, IH; cbn [In]; reflexivity.
Qed.

Lemma object_NoDup defs : NoDup (map fst (object defs)).
Proof.
  induction defs as [|d defs IH] using rev_ind; [constructor|].
  rewrite object_snoc, defineProperty_keys.
  destruct (hasOwn (fst d) (object defs)) eqn:E; [exact IH|].
  apply hasOwn_not_In in E.
  apply NoDup_app; [exact IH | repeat constructor; intros [] |].
  intros k Hk [<- | []]; exact (E Hk).
Qed.

(** Definitions with pairwise different keys are the object as they
    stand. *)
Lemma object_distinct defs : NoDup (map fst defs) -> object defs = defs.
Proof.
  induction defs as [|d defs IH] using rev_ind; [reflexivity|].
  rewrite map_app; intros H; apply NoDup_app_remove_r in H as Hl.
  rewrite object_snoc, (IH Hl).
  assert (Hfresh : ~ In (fst d) (map fst defs)).
  { intros Hin; apply NoDup_remove_2 in H; apply H.
    rewrite app_nil_r; exact Hin. }
  clear -Hfresh; destruct d as [k v]; cbn [fst snd] in *.
  induction defs as [|[k0 v0] defs IH]; [reflexivity|].
  cbn [defineProperty app map fst In] in *.
  destruct (eqb k0 k) eqn:E.
  - apply eqb_eq in E; destruct Hfresh; left; exact E.
  - rewrite IH; [reflexivity | tauto].
Qed.

End Objects.

Section Entries.

Context {V : Type}.

Implicit Types (props defs : list (JSString * V)) (e : JSString * V).

Lemma insertIndex_perm e props :
  Permutation (insertIndex e props) (e :: props).
Proof.
  induction props as [|e' props IH]; cbn [insertIndex]; [reflexivity|].
  destruct (indexBefore (fst e) (fst e')); [reflexivity|].
  rewrite IH; apply perm_swap.
Qed.

Lemma sortIndex_perm props :
  Permutation (fold_right insertIndex [] props) props.
Proof.
  induction props as [|e props IH]; cbn [fold_right]; [reflexivity|].
  rewrite insertIndex_perm, IH; reflexivity.
Qed.

Lemma filter_split_perm {A} (p : A -> bool) (l : list A) :
  Permutation (filter p l ++ filter (fun x => negb (p x)) l) l.
Proof.
  induction l as [|x l IH]; cbn [filter]; [reflexivity|].
  destruct (p x); cbn [negb app].
  - rewrite IH; reflexivity.
  - rewrite <- Permutation_middle, IH; reflexivity.
Qed.

(** [Object.entries] lists every property of the object once. *)
Lemma entries_perm defs : Permutation (entries defs) (object defs).
Proof.
  unfold entries; rewrite sortIndex_perm; apply filter_split_perm.
Qed.

Lemma entries_In defs e : In e (entries defs) -> In e defs.
Proof.
  intros H; apply object_In.
  exact (Permutation_in _ (entries_perm defs) H).
Qed.

Lemma entries_keys defs (key : JSString) :
  In key (map fst (entries defs)) <-> In key (map fst defs).
Proof.
  split; intros H.
  - apply object_keys.
    exact (Permutation_in _ (Permutation_map fst (entries_perm defs)) H).
  - apply object_keys in H.
    exact (Permutation_in _
             (Permutation_sym (Permutation_map fst (entries_perm defs))) H).
Qed.

Lemma entries_NoDup defs : NoDup (map fst (entries defs)).
Proof.
  apply (Permutation_NoDup (l := map fst (object defs)));
    [|apply object_NoDup].
  symmetry; apply Permutation_map, entries_perm.
Qed.

(** Among array indices [insertIndex] keeps the ascending order. *)
Lemma insertIndex_sorted e props :
  isArrayIndex (fst e) = true ->
  Forall (fun e' => isArrayIndex (fst e') = true) props ->
  StronglySorted ascending props ->
  StronglySorted ascending (insertIndex e props).
Proof.
  intros He Hall Hs; induction Hs as [|e' props Hs IH Hhd];
    cbn [insertIndex]; [repeat constructor|].
  apply Forall_cons_iff in Hall; destruct Hall as [He' Hall].
  unfold isArrayIndex in He, He'.
  destruct (arrayIndex (fst e)) as [x|] eqn:Ex; [|discriminate].
  destruct (arrayIndex (fst e')) as [y|] eqn:Ey; [|discriminate].
  unfold indexBefore; rewrite Ex, Ey.
  destruct (x <? y)%N eqn:L.
  - apply N.ltb_lt in L; constructor; [constructor; assumption|].
    constructor.
    + unfold ascending; rewrite Ex, Ey; lia.
    + rewrite Forall_forall in Hhd |- *; intros z Hz.
      specialize (Hhd z Hz); unfold ascending in *.
      rewrite Ex; rewrite Ey in Hhd.
      destruct (arrayIndex (fst z)); [lia | exact Hhd].
  - apply N.ltb_ge in L; constructor; [exact (IH Hall)|].
    rewrite Forall_forall in Hhd |- *; intros z Hz.
    apply (Permutation_in _ (insertIndex_perm e props)) in Hz.
    destruct Hz as [<- | Hz]; [|exact (Hhd z Hz)].
    unfold ascending; rewrite Ex, Ey; exact L.
Qed.

Lemma sortIndex_sorted props :
  Forall (fun e => isArrayIndex (fst e) = true) props ->
  StronglySorted ascending (fold_right insertIndex [] props).
Proof.
  induction 1 as [|e props He Hall IH]; cbn [fold_right]; [constructor|].
  apply insertIndex_sorted; [exact He | | exact IH].
  rewrite Forall_forall in Hall |- *; intros z Hz; apply Hall.
  exact (Permutation_in _ (sortIndex_perm props) Hz).
Qed.

Lemma StronglySorted_app {A} (R : A -> A -> Prop) (l1 l2 : list A) :
  StronglySorted R l1 -> StronglySorted R l2 ->
  (forall a b, In a l1 -> In b l2 -> R a b) ->
  StronglySorted R (l1 ++ l2).
Proof.
  intros H1 H2 H; induction H1 as [|a l1 H1 IH Ha]; [exact H2|].
  cbn [app]; constructor.
  - apply IH; intros x y Hx Hy; apply H; [right|]; assumption.
  - apply Forall_app; split; [exact Ha|].
    apply Forall_forall; intros y Hy; apply H; [left; reflexivity | exact Hy].
Qed.

Lemma StronglySorted_impl {A} (R R' : A -> A -> Prop) (l : list A) :
  (forall a b, In a l -> In b l -> R a b -> R' a b) ->
  StronglySorted R l -> StronglySorted R' l.
Proof.
  intros H Hs; induction Hs as [|a l Hs IH Ha]; [constructor|].
  constructor.
  - apply IH; intros x y Hx Hy; apply H; right; assumption.
  - rewrite Forall_forall in Ha |- *; intros y Hy.
    apply H; [left; reflexivity | right; exact Hy | exact (Ha y Hy)].
Qed.

Lemma StronglySorted_filter {A} (R : A -> A -> Prop) (p : A -> bool)
    (l : list A) :
  StronglySorted R l -> StronglySorted R (filter p l).
Proof.
  induction 1 as [|a l Hs IH Ha]; cbn [filter]; [constructor|].
  destruct (p a); [|exact IH].
  constructor; [exact IH|].
  rewrite Forall_forall in Ha |- *; intros y Hy.
  apply filter_In in Hy; apply Ha, Hy.
Qed.

End Entries.

Section DeclarationOrder.

Import ConfigurableReplacer.

Lemma declaredBefore_snoc (cfg : ReplacementConfig)
    (d : JSString * ReplacementOption) (a b : JSString) :
  declaredBefore cfg a b -> declaredBefore (cfg ++ [d]) a b.
Proof.
  intros (l1 & l2 & E & Ha & Hb); exists l1, (l2 ++ [fst d]).
  rewrite map_app, E, <- app_assoc; cbn [map app]; tauto.
Qed.

(** The keys of the object stand in the order of their first
    definition. *)
Lemma object_order (cfg : ReplacementConfig) :
  StronglySorted (declaredBefore cfg) (map fst (object cfg)).
Proof.
  induction cfg as [|d cfg IH] using rev_ind; [constructor|].
  assert (IH' : StronglySorted (declaredBefore (cfg ++ [d]))
                  (map fst (object cfg))).
  { revert IH; apply StronglySorted_impl.
    intros a b _ _; apply declaredBefore_snoc. }
  rewrite object_snoc, defineProperty_keys.
  destruct (hasOwn (fst d) (object cfg)) eqn:E; [exact IH'|].
  apply hasOwn_not_In in E; rewrite object_keys in E.
  apply StronglySorted_app; [exact IH' | repeat constructor |].
  intros a b Ha [<- | []]; apply (proj1 (object_keys _ _)) in Ha.
  exists (map fst cfg), []; rewrite map_app; cbn [map].
  split; [reflexivity | split; assumption].
Qed.

(** The order of [Object.entries] of a mapping. *)
Lemma entries_order (cfg : ReplacementConfig) :
  StronglySorted (fun e1 e2 => appliedBefore cfg (fst e1) (fst e2))
    (entries cfg).
Proof.
  unfold entries; apply StronglySorted_app.
  - assert (Hall : Forall (fun e => isArrayIndex (fst e) = true)
                     (filter (fun e : JSString * ReplacementOption =>
                                isArrayIndex (fst e)) (object cfg))).
    { apply Forall_forall; intros e He; apply filter_In in He; tauto. }
    pose proof (sortIndex_sorted _ Hall) as Hs.
    revert Hs; apply StronglySorted_impl.
    intros a b _ _; unfold ascending, appliedBefore.
    destruct (arrayIndex (fst a)), (arrayIndex (fst b)); tauto.
  - assert (Hs : StronglySorted
                   (fun e1 e2 : JSString * ReplacementOption =>
                      declaredBefore cfg (fst e1) (fst e2)) (object cfg)).
    { pose proof (object_order cfg) as H.
      induction (object cfg) as [|e l IHl]; [constructor|].
      cbn [map] in H; apply StronglySorted_inv in H; destruct H as [H1 H2].
      constructor; [exact (IHl H1)|].
      rewrite Forall_forall in H2 |- *; intros y Hy.
      apply H2, in_map, Hy. }
    apply (StronglySorted_filter _ (fun e => negb (isArrayIndex (fst e)))) in Hs.
    revert Hs; apply StronglySorted_impl.
    intros a b Ha Hb; apply filter_In in Ha, Hb.
    destruct Ha as [_ Ha], Hb as [_ Hb]; apply negb_true_iff in Ha, Hb.
    unfold appliedBefore, isArrayIndex in *.
    destruct (arrayIndex (fst a)); [discriminate|].
    destruct (arrayIndex (fst b)); [discriminate | tauto].
  - intros a b Ha Hb.
    apply (Permutation_in _ (sortIndex_perm _)), filter_In in Ha.
    apply filter_In in Hb.
    destruct Ha as [_ Ha], Hb as [_ Hb]; apply negb_true_iff in Hb.
    unfold appliedBefore, isArrayIndex in *.
    destruct (arrayIndex (fst a)); [|discriminate].
    destruct (arrayIndex (fst b)); [discriminate | exact I].
Qed.

(** A mapping whose patterns are pairwise different and none of them
    an array index is listed as it is declared. *)
Lemma entries_declared (cfg : ReplacementConfig) :
  NoDup (map fst cfg) ->
  forallb (fun e => negb (isArrayIndex (fst e))) cfg = true ->
  entries cfg = cfg.
Proof.
  intros Hnd Hno; unfold entries; rewrite (object_distinct _ Hnd).
  assert (E1 : filter (fun e : JSString * ReplacementOption =>
                         isArrayIndex (fst e)) cfg = []).
  { induction cfg as [|e cfg IH]; [reflexivity|].
    cbn [forallb] in Hno; apply andb_true_iff in Hno; destruct Hno as [He Hno].
    apply negb_true_iff in He; cbn [filter]; rewrite He.
    apply IH; [|exact Hno].
    cbn [map] in Hnd; apply NoDup_cons_iff in Hnd; tauto. }
  rewrite E1; cbn [fold_right app].
  clear E1 Hnd; induction cfg as [|e cfg IH]; [reflexivity|].
  cbn [forallb] in Hno; apply andb_true_iff in Hno; destruct Hno as [He Hno].
  cbn [filter]; rewrite He, (IH Hno); reflexivity.
Qed.

End DeclarationOrder.

(* ================================================================== *)
(** * Properties of the matcher *)

Section Matcher.

Import RegExp.

(** A sequence of pattern characters matches exactly that text. *)
Lemma m_Lits (p s : JSString) (caps : Captures) (k : Cont) :
  m false (Lits p) s caps k =
  if startsWith s p then k (skipn (length p) s) caps else None.
Proof.
  revert s; induction p as [|c p IH]; intros s; [reflexivity|].
  destruct p as [|d p].
  - destruct s as [|y s]; simpl; [reflexivity|].
    rewrite (Ascii.eqb_sym c y), andb_true_r; reflexivity.
  - change (Lits (c :: d :: p)) with (Seq (Chr (Lit c)) (Lits (d :: p))).
    destruct s as [|y s]; [reflexivity|].
    cbn [m charMatches startsWith length skipn].
    rewrite (Ascii.eqb_sym c y).
    destruct (Ascii.eqb y c); [apply IH | reflexivity].
Qed.

Lemma matchAt_Lits (p s : JSString) :
  matchAt false (Lits p) s =
  if startsWith s p then Some (skipn (length p) s, []) else None.
Proof. unfold matchAt; apply m_Lits. Qed.

Section Replace.

Variables (i : bool) (r : Regex) (f : Replacer).

(** Passing the rest of a match. *)
Lemma replaceLoop_skip (t before s : JSString) :
  replaceLoop i r f before (length t) (t ++ s) =
  replaceLoop i r f (before ++ t) 0 s.
Proof.
  revert before; induction t as [|c t IH]; intros before.
  - simpl length; simpl app; rewrite app_nil_r; reflexivity.
  - simpl; rewrite IH, <- app_assoc; reflexivity.
Qed.

(** A position without a match is copied. *)
Lemma replaceLoop_copy (before : JSString) (c : ascii) (s : JSString) :
  matchAt i r (c :: s) = None ->
  replaceLoop i r f before 0 (c :: s) =
  c :: replaceLoop i r f (before ++ [c]) 0 s.
Proof. intros H; cbn [replaceLoop]; rewrite H; reflexivity. Qed.

(** A match that is not empty is replaced and passed. *)
Lemma replaceLoop_match (before t rest : JSString) (caps : Captures)
    (c : ascii) :
  matchAt i r (c :: t ++ rest) = Some (rest, caps) ->
  replaceLoop i r f before 0 (c :: t ++ rest) =
  f (c :: t) caps before rest ++ replaceLoop i r f (before ++ c :: t) 0 rest.
Proof.
  intros H; cbn [replaceLoop]; rewrite H.
  assert (E : (length (c :: t ++ rest) - length rest = S (length t))%nat)
    by (cbn [length]; rewrite length_app; lia).
  rewrite E; cbn [Nat.eqb Nat.sub].
  rewrite Nat.sub_0_r, replaceLoop_skip, <- app_assoc.
  change (firstn (S (length t)) (c :: t ++ rest))
    with (c :: firstn (length t) (t ++ rest)).
  rewrite firstn_app, Nat.sub_diag, firstn_all, firstn_O, app_nil_r.
  reflexivity.
Qed.

End Replace.

End Matcher.

(* ================================================================== *)
(** * Properties of ConfigurableReplacer *)

Section Replacer.

Import RegExp ConfigurableReplacer.

(** One pass of a pattern over a text that holds it: the text before
    its first occurrence is kept, the occurrence is replaced, and the
    scan goes on behind the occurrence. *)
Lemma replaceLoop_first_occurrence (p v s1 s2 before : JSString) :
  p <> [] -> firstOccurrence p s1 (p ++ s2) = true ->
  replaceLoop false (Lits p) (substitute v) before 0 (s1 ++ p ++ s2) =
  s1 ++ getSubstitution p (before ++ s1) s2 v
     ++ replaceLoop false (Lits p) (substitute v) (before ++ s1 ++ p) 0 s2.
Proof.
  intros Hp; revert before; induction s1 as [|c s1 IH]; intros before Hfirst.
  - destruct p as [|c p]; [congruence|].
    cbn [app]; rewrite app_nil_r.
    change ((c :: p) ++ s2) with (c :: p ++ s2).
    rewrite (replaceLoop_match false (Lits (c :: p)) (substitute v) before p s2 []).
    + reflexivity.
    + rewrite matchAt_Lits.
      change (c :: p ++ s2) with ((c :: p) ++ s2).
      rewrite startsWith_app, skipn_app, Nat.sub_diag, skipn_all; reflexivity.
  - cbn [firstOccurrence] in Hfirst; apply andb_true_iff in Hfirst.
    destruct Hfirst as [Hno Hfirst]; apply negb_true_iff in Hno.
    change ((c :: s1) ++ p ++ s2) with (c :: s1 ++ p ++ s2) in *.
    rewrite replaceLoop_copy by (rewrite matchAt_Lits, Hno; reflexivity).
    rewrite (IH (before ++ [c]) Hfirst), <- !app_assoc; reflexivity.
Qed.

Variable functionSource : JSString -> JSString.

Lemma applyPatterns_app (es1 es2 : list (JSString * ReplacementOption))
    (data : ReplacementData) (text : JSString) :
  applyPatterns functionSource (es1 ++ es2) data text =
  applyPatterns functionSource es2 data
    (applyPatterns functionSource es1 data text).
Proof. apply fold_left_app. Qed.

(** ** The loop over the matches *)

(** [exec] with a pattern that is not empty moves [lastIndex] on. *)
Lemma exec_Lits_shorter (p s matched rest : JSString) :
  p <> [] -> exec false (Lits p) s = Some (matched, rest) ->
  (length rest < length s)%nat.
Proof.
  intros Hp; induction s as [|c s IH]; cbn [exec]; rewrite matchAt_Lits.
  - destruct p; [congruence | discriminate].
  - destruct (startsWith (c :: s) p) eqn:E.
    + intros [= _ <-]; rewrite length_skipn.
      destruct p; [congruence | cbn [length]; lia].
    + intros H; specialize (IH H); cbn [length]; lia.
Qed.

(** [exec] finds a match exactly when the pattern occurs. *)
Lemma exec_Lits_includes (p s : JSString) :
  includes s p = true <-> exists res, exec false (Lits p) s = Some res.
Proof.
  induction s as [|c s IH]; cbn [exec includes]; rewrite matchAt_Lits.
  - rewrite orb_false_r; destruct (startsWith [] p).
    + split; [eexists; reflexivity | reflexivity].
    + split; [discriminate | intros [res H]; discriminate H].
  - destruct (startsWith (c :: s) p); cbn [orb].
    + split; [eexists; reflexivity | reflexivity].
    + exact IH.
Qed.

(** With a pattern that is not empty the loop ends within as many
    iterations as the text has units, and one more. *)
Lemma trackMatches_ends (p : JSString) (body : ReplacementMap -> ReplacementMap)
    (fuel : nat) (s : JSString) (mp : ReplacementMap) :
  p <> [] -> (length s < fuel)%nat ->
  exists mp', trackMatches (Lits p) body fuel s mp = Some mp'.
Proof.
  intros Hp; revert s mp; induction fuel as [|fuel IH]; intros s mp Hf; [lia|].
  cbn [trackMatches].
  destruct (exec false (Lits p) s) as [[matched rest]|] eqn:E;
    [|eexists; reflexivity].
  apply IH; pose proof (exec_Lits_shorter p s matched rest Hp E); lia.
Qed.

(** With the empty pattern [exec] matches where it stands and leaves
    [lastIndex] there: the loop does not end. *)
Lemma trackMatches_empty (body : ReplacementMap -> ReplacementMap)
    (fuel : nat) (s : JSString) (mp : ReplacementMap) :
  trackMatches (Lits []) body fuel s mp = None.
Proof.
  revert mp; induction fuel as [|fuel IH]; intros mp; [reflexivity|].
  cbn [trackMatches].
  assert (E : exec false (Lits []) s = Some ([], s)).
  { destruct s; cbn [exec Lits]; unfold matchAt; cbn [m accept];
      rewrite Nat.sub_diag; reflexivity. }
  rewrite E; apply IH.
Qed.

(** With patterns that are not empty the tracking variant computes the
    same text. *)
Lemma trackPattern_text (fuel : nat) (text : JSString) (data : ReplacementData)
    (es : list (JSString * ReplacementOption)) (cur : JSString)
    (mp : ReplacementMap) :
  nonEmptyPatterns es = true -> (length text < fuel)%nat ->
  option_map fst
    (fold_left (trackPattern functionSource fuel text data) es (Some (cur, mp)))
  = Some (applyPatterns functionSource es data cur).
Proof.
  intros H Hf; revert cur mp H; induction es as [|[p opts] es IH];
    intros cur mp H; [reflexivity|].
  cbn [nonEmptyPatterns forallb fst] in H; apply andb_true_iff in H.
  destruct H as [Hp H].
  assert (Hne : p <> []) by (destruct p; [discriminate Hp | discriminate]).
  cbn [fold_left trackPattern]; unfold patternRegex.
  destruct (trackMatches_ends p
              (mapSet (replaceValue functionSource data opts)
                 (mkMapping p (dataKey opts)
                    (replaceValue functionSource data opts)))
              fuel text mp Hne Hf) as [mp' ->].
  rewrite (IH _ _ H); reflexivity.
Qed.

Lemma nonEmptyPatterns_entries (cfg : ReplacementConfig) :
  nonEmptyPatterns (entries cfg) = nonEmptyPatterns cfg.
Proof.
  unfold nonEmptyPatterns.
  set (q := fun e : JSString * ReplacementOption =>
              match fst e with [] => false | _ :: _ => true end).
  change (forallb q (entries cfg) = forallb q cfg).
  destruct (forallb q cfg) eqn:E.
  - apply forallb_forall; intros e He.
    rewrite forallb_forall in E; apply E, entries_In, He.
  - destruct (forallb q (entries cfg)) eqn:E'; [|reflexivity].
    rewrite forallb_forall in E'.
    assert (F : forallb q cfg = true); [|congruence].
    apply forallb_forall; intros e He.
    assert (Hk : In (fst e) (map fst (entries cfg)))
      by (apply entries_keys, in_map, He).
    apply in_map_iff in Hk; destruct Hk as (e' & Hk & He').
    specialize (E' e' He'); unfold q in *; rewrite <- Hk; exact E'.
Qed.

(** C2, as the code has it.  [replace] of a text is [replaceInString]
    of it.  Every pattern that the mapping declares is applied once,
    with options the mapping gives for it.  The order is the one of
    [Object.entries]: the patterns that are array indices first, in
    ascending order, then the others in the order of their
    declaration.  Each pattern is applied to the text that the patterns
    before it have produced, substituted values included.  Within the
    pass of one pattern the value put in for an occurrence is not
    scanned again: the pass goes on behind the occurrence.  The
    tracking variant computes the same text. *)
Theorem replaceInString_sequential
    (cfg : ReplacementConfig) (rb : bool) (data : ReplacementData)
    (text : JSString) :
  replace functionSource (mkConfig cfg rb) (VString text) data =
    VString (replaceInString functionSource (mkConfig cfg rb) text data)
  /\ (forall pattern,
        In pattern (map fst (entries cfg)) <-> In pattern (map fst cfg))
  /\ NoDup (map fst (entries cfg))
  /\ (forall entry, In entry (entries cfg) -> In entry cfg)
  /\ StronglySorted (fun e1 e2 => appliedBefore cfg (fst e1) (fst e2))
       (entries cfg)
  /\ (forall es1 es2, entries cfg = es1 ++ es2 ->
        replaceInString functionSource (mkConfig cfg rb) text data =
        let replacedText :=
          applyPatterns functionSource es2 data
            (applyPatterns functionSource es1 data text) in
        if rb then stripBackslashes replacedText else replacedText)
  /\ (forall (pattern : JSString) (options : ReplacementOption)
             (s1 s2 : JSString),
        pattern <> [] ->
        firstOccurrence pattern s1 (pattern ++ s2) = true ->
        applyPattern functionSource data (s1 ++ pattern ++ s2)
          (pattern, options) =
        s1 ++ getSubstitution pattern s1 s2
                (replaceValue functionSource data options)
           ++ replaceLoop false (patternRegex pattern)
                (substitute (replaceValue functionSource data options))
                (s1 ++ pattern) 0 s2)
  /\ (forall mp fuel,
        nonEmptyPatterns cfg = true -> (length text < fuel)%nat ->
        option_map fst
          (replaceInStringWithTracking functionSource fuel (mkConfig cfg rb)
             text data mp)
        = Some (replaceInString functionSource (mkConfig cfg rb) text data)).
Proof.
  split; [reflexivity|].
  split; [intros pattern; apply entries_keys|].
  split; [apply entries_NoDup|].
  split; [intros entry; apply entries_In|].
  split; [apply entries_order|].
  split; [|split].
  - intros es1 es2 E; unfold replaceInString; cbn [replacements removeBackslashes].
    rewrite E, applyPatterns_app; reflexivity.
  - intros pattern options s1 s2 Hp Hfirst.
    exact (replaceLoop_first_occurrence pattern
             (replaceValue functionSource data options) s1 s2 [] Hp Hfirst).
  - intros mp fuel H Hf; unfold replaceInStringWithTracking, replaceInString.
    cbn [replacements removeBackslashes].
    rewrite <- nonEmptyPatterns_entries in H.
    pose proof (trackPattern_text fuel text data (entries cfg) text mp H Hf)
      as E.
    destruct (fold_left _ _ _) as [[cur mp']|]; [|discriminate].
    simpl in E; injection E as ->; reflexivity.
Qed.

End Replacer.

Section ReplacerExamples.

Import RegExp ConfigurableReplacer.

Lemma replaceInString_sequential_witness :
  str "user" <> []
  /\ firstOccurrence (str "user") (str "hi ") (str "user" ++ str "!") = true
  /\ nonEmptyPatterns getDefaultReplacements = true
  /\ (length (str "uniqueId") < 9)%nat
  /\ entries getDefaultReplacements =
     beforeUser ++ skipn 19 getDefaultReplacements
  /\ replaceInString nativeCode defaultConfig (str "uniqueId") superuser =
     stripBackslashes
       (applyPatterns nativeCode (skipn 19 getDefaultReplacements) superuser
          (applyPatterns nativeCode beforeUser superuser (str "uniqueId")))
  /\ applyPattern nativeCode superuser (str "hi " ++ str "user" ++ str "!")
       (str "user", mkOption (str "uniqueId") (str "?")) =
     str "hi " ++ str "superuser" ++ str "!"
  /\ option_map fst
       (replaceInStringWithTracking nativeCode 9 defaultConfig (str "uniqueId")
          superuser [])
     = Some (replaceInString nativeCode defaultConfig (str "uniqueId") superuser)
  /\ map fst (entries indexLast) = [str "1"; str "b"]
  /\ StronglySorted (fun e1 e2 => appliedBefore indexLast (fst e1) (fst e2))
       (entries indexLast).
Proof.
  assert (Hp : str "user" <> []) by discriminate.
  assert (Hf : (length (str "uniqueId") < 9)%nat) by (cbn; lia).
  assert (He : entries getDefaultReplacements =
               beforeUser ++ skipn 19 getDefaultReplacements)
    by (vm_compute; reflexivity).
  destruct (replaceInString_sequential nativeCode getDefaultReplacements true
              superuser (str "uniqueId"))
    as (_ & _ & _ & _ & _ & Hseq & Hone & Htrack).
  split; [exact Hp|]; split; [reflexivity|]; split; [reflexivity|].
  destruct (replaceInString_sequential nativeCode indexLast false [] (str "b"))
    as (_ & _ & _ & _ & Horder & _).
  split; [exact Hf|]; split; [exact He|]; split; [|split; [|split; [|split]]].
  - exact (Hseq _ _ He).
  - refine (eq_trans (Hone (str "user") (mkOption (str "uniqueId") (str "?"))
                        (str "hi ") (str "!") Hp eq_refl) _).
    reflexivity.
  - exact (Htrack [] 9%nat eq_refl Hf).
  - reflexivity.
  - exact Horder.
Defined.

(** C2 as it is worded fails.  With the default mapping and an event
    whose [uniqueId] is the name superuser, the text [uniqueId] holds no
    occurrence of the later pattern [user]; the patterns before [user]
    turn it into the substituted name, and the pattern [user] then
    matches inside that name and removes its last four letters. *)
Lemma replaceInString_rescan_counterexample :
  includes (str "uniqueId") (str "user") = false
  /\ applyPatterns nativeCode beforeUser superuser (str "uniqueId") =
     str "superuser"
  /\ nth_error (entries getDefaultReplacements) 19 =
     Some (str "user", mkOption (str "user") [])
  /\ replaceInString nativeCode defaultConfig (str "uniqueId") superuser =
     str "super"
  /\ option_map fst
       (replaceInStringWithTracking nativeCode 9 defaultConfig (str "uniqueId")
          superuser [])
     = Some (str "super").
Proof. vm_compute; repeat split. Qed.

(** The order of the declaration is not the order of the passes when a
    pattern is an array index.  The mapping declares the pattern [b],
    with the value 1, before the pattern [1], with the value one; the
    pattern [1] is applied first and finds nothing in the text [b],
    which the pattern [b] then turns into 1.  In the order of the
    declaration the result would be one. *)
Lemma replaceInString_index_first :
  map fst indexLast = [str "b"; str "1"]
  /\ map fst (entries indexLast) = [str "1"; str "b"]
  /\ replaceInString nativeCode (mkConfig indexLast false) (str "b") [] =
     str "1"
  /\ applyPatterns nativeCode indexLast [] (str "b") = str "one".
Proof. vm_compute; repeat split. Qed.

End ReplacerExamples.

(* ================================================================== *)
(** * Properties of SpamCleaner.clean *)

Section Truncation.

Import SpamCleaner.

Lemma substring_prefix (s : JSString) (n : Z) :
  0 <= n <= len s -> substring s 0 n = firstn (Z.to_nat n) s.
Proof.
  intros H; unfold substring, len in *.
  rewrite (Z.max_l 0 0), (Z.min_l 0), (Z.max_l n 0), (Z.min_l n),
    (Z.min_l 0 n), (Z.max_r 0 n) by lia.
  rewrite Z.sub_0_r; reflexivity.
Qed.

Lemma truncate_length (o : CleanerOptions) (s : JSString) :
  3 <= maxLength o -> maxLength o < len s ->
  truncate o s = firstn (Z.to_nat (maxLength o - 3)) s ++ str "..."
  /\ len (truncate o s) = maxLength o.
Proof.
  intros H3 Hlen; unfold truncate.
  apply Z.ltb_lt in Hlen; rewrite Hlen; apply Z.ltb_lt in Hlen.
  rewrite substring_prefix by lia.
  split; [reflexivity|].
  unfold len in *; rewrite length_app, firstn_length_le by lia.
  simpl length; lia.
Qed.

(** C8.  When the text the passes leave is longer than [maxLength],
    and [maxLength] is at least 3, the cleaned text of [clean] is the
    first [maxLength - 3] units of that text followed by the three dots,
    and its length is exactly [maxLength]. *)
Theorem clean_truncates (o : CleanerOptions) (message : JSString) :
  3 <= maxLength o ->
  maxLength o < len (intermediateText o message) ->
  cleaned (clean o message) =
    firstn (Z.to_nat (maxLength o - 3)) (intermediateText o message)
    ++ str "..."
  /\ len (cleaned (clean o message)) = maxLength o.
Proof.
  intros H3 Hlen; unfold clean, intermediateText in *.
  destruct (trim message) as [|c t].
  - unfold len in Hlen; simpl in Hlen; lia.
  - exact (truncate_length o _ H3 Hlen).
Qed.

Lemma clean_truncates_witness :
  3 <= maxLength shortLimit
  /\ maxLength shortLimit < len (intermediateText shortLimit alphabet)
  /\ cleaned (clean shortLimit alphabet) = str "abcdefg..."
  /\ len (cleaned (clean shortLimit alphabet)) = 10.
Proof.
  assert (H3 : 3 <= maxLength shortLimit) by (vm_compute; discriminate).
  assert (Hlen : maxLength shortLimit < len (intermediateText shortLimit alphabet))
    by (vm_compute; reflexivity).
  destruct (clean_truncates shortLimit alphabet H3 Hlen) as [Hc Hl].
  split; [exact H3|]; split; [exact Hlen|]; split; [|exact Hl].
  rewrite Hc; vm_compute; reflexivity.
Defined.

End Truncation.

(* ================================================================== *)
(** * Properties of SpamCleaner.cleanRepeatedChars *)

Section CharRuns.

Import RegExp SpamCleaner.

(** ** Runs *)

Lemma runLength_repeat (c : ascii) (n : nat) (s : JSString) :
  runLength c (repeat c n ++ s) = (n + runLength c s)%nat.
Proof.
  induction n as [|n IH]; simpl; [reflexivity|].
  rewrite Ascii.eqb_refl, IH; reflexivity.
Qed.

Lemma runs_nil (s : JSString) : runs s = [] -> s = [].
Proof.
  destruct s as [|c s]; [reflexivity|]; simpl.
  destruct (runs s) as [|[d n] rs]; [discriminate|].
  destruct (Ascii.eqb c d); discriminate.
Qed.

(** The first run of a text and the text behind it. *)
Lemma runs_inv (s : JSString) (c : ascii) (n : nat) (rs : list (ascii * nat)) :
  runs s = (c, n) :: rs ->
  exists s', s = repeat c n ++ s' /\ runs s' = rs /\ (1 <= n)%nat
             /\ runLength c s' = 0%nat.
Proof.
  revert c n rs; induction s as [|x t IH]; intros c n rs; [discriminate|].
  simpl; destruct (runs t) as [|[d k] rs'] eqn:E.
  - intros [= <- <- <-]; apply runs_nil in E; subst t.
    exists []; repeat split; lia.
  - destruct (IH d k rs' eq_refl) as (s' & Ht & Hs' & Hk & Hrun).
    destruct (Ascii.eqb_spec x d) as [-> | Hne].
    + intros [= <- <- <-]; exists s'; subst t; repeat split; auto; lia.
    + intros [= <- <- <-]; exists t; repeat split; auto.
      subst t; destruct k as [|k]; [lia|]; simpl.
      apply Ascii.eqb_neq in Hne; rewrite Ascii.eqb_sym, Hne; reflexivity.
Qed.

(** The runs of a text spell the text. *)
Lemma expand_runs (s : JSString) : expand (runs s) = s.
Proof.
  remember (runs s) as rs eqn:E; symmetry in E.
  revert s E; induction rs as [|[c n] rs IH]; intros s E.
  - apply runs_nil in E; subst s; reflexivity.
  - destruct (runs_inv s c n rs E) as (s' & -> & Hs' & _ & _).
    unfold expand; simpl; fold (expand rs); rewrite (IH s' Hs'); reflexivity.
Qed.

(** ** The expression for a run of three or more *)

(** The quantified back reference takes every further unit [c], and
    needs [min] of them. *)
Lemma repeat_backref (c : ascii) (fuel min : nat) (s : JSString) :
  (min + length s <= fuel)%nat ->
  repeatMatcher
    (fun s1 caps1 d =>
       m false (Backref 1) s1 (clearCaptures (groups (Backref 1)) caps1) d)
    accept fuel min None s [(1%nat, [c])] =
  if (min <=? runLength c s)%nat
  then Some (skipn (runLength c s) s, [(1%nat, [c])])
  else None.
Proof.
  revert min s; induction fuel as [|fuel IH]; intros min s Hfuel.
  - assert (min = 0%nat) by lia; subst min.
    destruct s as [|y s]; [reflexivity | simpl in Hfuel; lia].
  - cbn [repeatMatcher option_map].
    cbn [m groups clearCaptures filter existsb negb fst getCapture find
         Nat.eqb option_map snd matchText].
    destruct s as [|y s].
    + cbn [runLength skipn]; destruct min; reflexivity.
    + cbn [charMatches runLength].
      destruct (Ascii.eqb y c).
      * replace (length (y :: s) <=? length s)%nat with false
          by (symmetry; apply Nat.leb_gt; cbn [length]; lia).
        rewrite andb_false_r, IH by (cbn [length] in Hfuel; lia).
        cbn [skipn].
        destruct (Nat.leb_spec (pred min) (runLength c s)) as [Hle | Hgt].
        -- replace (min <=? S (runLength c s))%nat with true
             by (symmetry; apply Nat.leb_le; lia).
           reflexivity.
        -- replace (min <=? S (runLength c s))%nat with false
             by (symmetry; apply Nat.leb_gt; lia).
           destruct min; [lia | reflexivity].
      * destruct min; reflexivity.
Qed.

(** [/(.)\1{2,}/] at the front of a text: the first unit, when it is
    not a line terminator, and all the units equal to it that follow,
    when they are two or more. *)
Lemma matchAt_charRun (c : ascii) (s : JSString) :
  matchAt false reCharRun (c :: s) =
  if negb (isLineTerminator c) && (2 <=? runLength c s)%nat
  then Some (skipn (runLength c s) s, [(1%nat, [c])])
  else None.
Proof.
  unfold matchAt, reCharRun.
  cbn [m charMatches].
  destruct (negb (isLineTerminator c)); [|reflexivity].
  replace (length (c :: s) - length s)%nat with 1%nat by (cbn [length]; lia).
  cbn [firstn setCapture filter andb].
  exact (repeat_backref c (2 + length s) 2 s (Nat.le_refl _)).
Qed.

Lemma matchAt_charRun_nil : matchAt false reCharRun [] = None.
Proof. reflexivity. Qed.

End CharRuns.

Section CharPass.

Import RegExp SpamCleaner.

Variable o : CleanerOptions.

Lemma found_true (c : ascii) (n : nat) :
  found (c, n) = true -> negb (isLineTerminator c) = true /\ (3 <= n)%nat.
Proof.
  unfold found; cbn [fst snd]; intros H; apply andb_true_iff in H.
  destruct H as [H1 H2]; apply Nat.leb_le in H2; tauto.
Qed.

Lemma found_false (c : ascii) (n : nat) :
  found (c, n) = false -> isLineTerminator c = true \/ (n <= 2)%nat.
Proof.
  unfold found; cbn [fst snd]; intros H; apply andb_false_iff in H.
  destruct H as [H | H].
  - left; apply negb_false_iff, H.
  - right; apply Nat.leb_gt in H; lia.
Qed.

(** ** The replacement *)

(** A run that the expression does not match is copied. *)
Lemma replace_unfound_run (c : ascii) (n : nat) (s before : JSString) :
  found (c, n) = false -> runLength c s = 0%nat ->
  replaceLoop false reCharRun (collapse o) before 0 (repeat c n ++ s) =
  repeat c n ++
  replaceLoop false reCharRun (collapse o) (before ++ repeat c n) 0 s.
Proof.
  intros Hf Hs; revert before.
  pose proof (found_false c n Hf) as Hn.
  clear Hf; induction n as [|n IH]; intros before.
  - simpl; rewrite app_nil_r; reflexivity.
  - cbn [repeat app].
    rewrite replaceLoop_copy.
    + rewrite IH by (destruct Hn; [left; assumption | right; lia]).
      rewrite <- app_assoc; reflexivity.
    + rewrite matchAt_charRun, runLength_repeat, Hs.
      destruct Hn as [Hn | Hn]; [rewrite Hn; reflexivity|].
      replace (2 <=? n + 0)%nat with false
        by (symmetry; apply Nat.leb_gt; lia).
      rewrite andb_false_r; reflexivity.
Qed.

(** A run that the expression matches is handed to the callback. *)
Lemma replace_found_run (c : ascii) (n : nat) (s before : JSString) :
  found (c, n) = true -> runLength c s = 0%nat ->
  replaceLoop false reCharRun (collapse o) before 0 (repeat c n ++ s) =
  runText (collapseReaching o (c, n)) ++
  replaceLoop false reCharRun (collapse o) (before ++ repeat c n) 0 s.
Proof.
  intros Hf Hs; destruct (found_true c n Hf) as [Hdot Hn].
  destruct n as [|n]; [lia|].
  cbn [repeat app].
  rewrite (replaceLoop_match false reCharRun (collapse o) before
             (repeat c n) s [(1%nat, [c])]).
  - f_equal.
    unfold collapse, collapseReaching, reaches, len; rewrite Hf.
    cbn [fst snd andb length]; rewrite repeat_length.
    destruct (minRepetitions o <=? Z.of_nat (S n)); reflexivity.
  - rewrite matchAt_charRun, runLength_repeat, Hs, Hdot, Nat.add_0_r.
    replace (2 <=? n)%nat with true by (symmetry; apply Nat.leb_le; lia).
    rewrite skipn_app, repeat_length, Nat.sub_diag, skipn_all2
      by (rewrite repeat_length; lia).
    reflexivity.
Qed.

Lemma replace_run (c : ascii) (n : nat) (s before : JSString) :
  runLength c s = 0%nat ->
  replaceLoop false reCharRun (collapse o) before 0 (repeat c n ++ s) =
  runText (collapseReaching o (c, n)) ++
  replaceLoop false reCharRun (collapse o) (before ++ repeat c n) 0 s.
Proof.
  intros Hs; destruct (found (c, n)) eqn:Hf.
  - apply replace_found_run; assumption.
  - rewrite replace_unfound_run by assumption.
    unfold collapseReaching; rewrite Hf; reflexivity.
Qed.

(** The replacement of [cleanRepeatedChars], run by run. *)
Lemma replace_runs (s before : JSString) :
  replaceLoop false reCharRun (collapse o) before 0 s =
  expand (map (collapseReaching o) (runs s)).
Proof.
  remember (runs s) as rs eqn:E; symmetry in E.
  revert s before E; induction rs as [|[c n] rs IH]; intros s before E.
  - apply runs_nil in E; subst s; reflexivity.
  - destruct (runs_inv s c n rs E) as (s' & -> & Hs' & _ & Hrun).
    rewrite (replace_run c n s' before Hrun), (IH s' _ Hs'); reflexivity.
Qed.

(** ** The matches *)

Lemma matchLoop_skip (t s : JSString) :
  matchLoop false reCharRun (length t) (t ++ s) = matchLoop false reCharRun 0 s.
Proof. induction t as [|c t IH]; [reflexivity | exact IH]. Qed.

Lemma match_run (c : ascii) (n : nat) (s : JSString) :
  runLength c s = 0%nat ->
  matchLoop false reCharRun 0 (repeat c n ++ s) =
  (if found (c, n) then [repeat c n] else [])
  ++ matchLoop false reCharRun 0 s.
Proof.
  intros Hs; destruct (found (c, n)) eqn:Hf.
  - destruct (found_true c n Hf) as [Hdot Hn].
    destruct n as [|n]; [lia|].
    cbn [repeat app matchLoop].
    rewrite matchAt_charRun, runLength_repeat, Hs, Hdot, Nat.add_0_r.
    replace (2 <=? n)%nat with true by (symmetry; apply Nat.leb_le; lia).
    cbn [andb].
    rewrite skipn_app, repeat_length, Nat.sub_diag, skipn_all2
      by (rewrite repeat_length; lia).
    cbn [skipn app].
    replace (length (c :: repeat c n ++ s) - length s)%nat with (S n)
      by (cbn [length]; rewrite length_app, repeat_length; lia).
    cbn [Nat.sub]; rewrite Nat.sub_0_r.
    change (firstn (S n) (c :: repeat c n ++ s))
      with (c :: firstn n (repeat c n ++ s)).
    rewrite firstn_app, repeat_length, Nat.sub_diag, firstn_O, app_nil_r,
      firstn_all2 by (rewrite repeat_length; lia).
    f_equal.
    rewrite <- (repeat_length c n) at 1; apply matchLoop_skip.
  - pose proof (found_false c n Hf) as Hn.
    clear Hf; induction n as [|n IH]; [reflexivity|].
    cbn [repeat app matchLoop].
    rewrite matchAt_charRun, runLength_repeat, Hs.
    replace (negb (isLineTerminator c) && (2 <=? n + 0)%nat) with false.
    + apply IH; destruct Hn; [left; assumption | right; lia].
    + symmetry; destruct Hn as [Hn | Hn]; [rewrite Hn; reflexivity|].
      replace (2 <=? n + 0)%nat with false
        by (symmetry; apply Nat.leb_gt; lia).
      apply andb_false_r.
Qed.

(** The matches of [cleanRepeatedChars]: the found runs. *)
Lemma matchAll_runs (s : JSString) :
  matchAll false reCharRun s = map runText (filter found (runs s)).
Proof.
  unfold matchAll.
  remember (runs s) as rs eqn:E; symmetry in E.
  revert s E; induction rs as [|[c n] rs IH]; intros s E.
  - apply runs_nil in E; subst s; reflexivity.
  - destruct (runs_inv s c n rs E) as (s' & -> & Hs' & _ & Hrun).
    rewrite (match_run c n s' Hrun), (IH s' Hs'); cbn [filter].
    destruct (found (c, n)); reflexivity.
Qed.

End CharPass.

Section CharVerdict.

Import RegExp SpamCleaner.

Variable o : CleanerOptions.

(** ** The loop over the matches *)

Lemma scanMatch_grows (ms : list JSString) (st : Z * JSString) :
  fst st <= fst (fold_left (scanMatch o) ms st).
Proof.
  revert st; induction ms as [|mt ms IH]; intros st; simpl; [lia|].
  etransitivity; [|apply IH].
  unfold scanMatch; destruct st as [mx ch].
  destruct (minRepetitions o <=? len mt); simpl; lia.
Qed.

Lemma scanMatch_reaching (ms : list JSString) (st : Z * JSString)
    (mt : JSString) :
  In mt ms -> minRepetitions o <= len mt ->
  minRepetitions o <= fst (fold_left (scanMatch o) ms st).
Proof.
  revert st; induction ms as [|x ms IH]; intros st Hin Hlen; [destruct Hin|].
  simpl; destruct Hin as [-> | Hin]; [|apply IH; assumption].
  etransitivity; [|apply scanMatch_grows].
  unfold scanMatch; destruct st as [mx ch].
  apply Z.leb_le in Hlen; rewrite Hlen; simpl; apply Z.leb_le in Hlen; lia.
Qed.

Lemma matches_fold (ms : list JSString) :
  match ms with
  | [] => (0, [])
  | _ :: _ => fold_left (scanMatch o) ms (0, [])
  end = fold_left (scanMatch o) ms (0, []).
Proof. destruct ms; reflexivity. Qed.

(** With [minRepetitions] at most 3 every found run reaches it. *)
Lemma collapseReaching_found (r : ascii * nat) :
  minRepetitions o <= 3 -> collapseReaching o r = collapseFound r.
Proof.
  intros H3; unfold collapseReaching, collapseFound, reaches.
  destruct r as [c n]; destruct (found (c, n)) eqn:Hf; [|reflexivity].
  destruct (found_true c n Hf) as [_ Hn]; cbn [snd andb].
  replace (minRepetitions o <=? Z.of_nat n) with true
    by (symmetry; apply Z.leb_le; lia).
  reflexivity.
Qed.

(** C6, as the code has it.  When the text has a run of three or more
    identical units (other than line terminators, which the expression
    does not match) whose length reaches [minRepetitions], the character
    pass marks the text as spam and cuts to two units exactly the runs
    of three or more that reach [minRepetitions]; every other run,
    shorter runs of three or more included, stays as it is.  With
    [minRepetitions] at most 3 these are all the runs of three or
    more. *)
Theorem cleanRepeatedChars_collapses (text : JSString) (r : ascii * nat) :
  In r (runs text) -> found r = true -> reaches o r = true ->
  wasSpam (cleanRepeatedChars o text) = true
  /\ cleaned (cleanRepeatedChars o text) =
     expand (map (collapseReaching o) (runs text))
  /\ (minRepetitions o <= 3 ->
      cleaned (cleanRepeatedChars o text) =
      expand (map collapseFound (runs text))).
Proof.
  intros Hin Hf Hr.
  assert (Hm : In (runText r) (matchAll false reCharRun text)).
  { rewrite matchAll_runs; apply in_map, filter_In; tauto. }
  assert (Hmax : minRepetitions o <=
                 fst (fold_left (scanMatch o) (matchAll false reCharRun text)
                        (0, []))).
  { apply (scanMatch_reaching _ _ (runText r) Hm).
    unfold reaches in Hr; apply Z.leb_le in Hr.
    unfold len, runText; rewrite repeat_length; exact Hr. }
  assert (Hc : cleaned (cleanRepeatedChars o text) =
               expand (map (collapseReaching o) (runs text))).
  { unfold cleanRepeatedChars; rewrite matches_fold.
    destruct (fold_left _ _ _) as [mx ch]; cbn [fst] in Hmax.
    apply Z.leb_le in Hmax; cbn [cleaned createResult]; rewrite Hmax.
    destruct (matchAll false reCharRun text); [destruct Hm|].
    apply replace_runs. }
  split; [|split; [exact Hc|]].
  - unfold cleanRepeatedChars; rewrite matches_fold.
    destruct (fold_left _ _ _) as [mx ch]; cbn [fst] in Hmax.
    apply Z.leb_le in Hmax; exact Hmax.
  - intros H3; rewrite Hc; f_equal; apply map_ext.
    intros x; apply collapseReaching_found, H3.
Qed.

End CharVerdict.

Section CharExamples.

Import SpamCleaner.

Lemma cleanRepeatedChars_collapses_witness :
  In ("b"%char, 5%nat) (runs threeAndFive)
  /\ found ("b"%char, 5%nat) = true
  /\ reaches fiveRepetitions ("b"%char, 5%nat) = true
  /\ wasSpam (cleanRepeatedChars fiveRepetitions threeAndFive) = true
  /\ cleaned (cleanRepeatedChars fiveRepetitions threeAndFive) =
     expand (map (collapseReaching fiveRepetitions) (runs threeAndFive)).
Proof.
  assert (Hin : In ("b"%char, 5%nat) (runs threeAndFive))
    by (vm_compute; tauto).
  destruct (cleanRepeatedChars_collapses fiveRepetitions threeAndFive
              ("b"%char, 5%nat) Hin eq_refl eq_refl) as (Hs & Hc & _).
  split; [exact Hin|]; split; [reflexivity|]; split; [reflexivity|].
  split; [exact Hs | exact Hc].
Defined.

(** C6 as it is worded fails.  With [minRepetitions] at 5, the run of
    five letters b makes the text spam and is cut to two, and the run of
    three letters a stays: the cleaned text is not the one with every
    run of three or more cut to two. *)
Lemma cleanRepeatedChars_every_run_counterexample :
  runs threeAndFive = [("a"%char, 3%nat); (" "%char, 1%nat); ("b"%char, 5%nat)]
  /\ reaches fiveRepetitions ("b"%char, 5%nat) = true
  /\ wasSpam (cleanRepeatedChars fiveRepetitions threeAndFive) = true
  /\ cleaned (cleanRepeatedChars fiveRepetitions threeAndFive) = str "aaa bb"
  /\ expand (map collapseFound (runs threeAndFive)) = str "aa bb"
  /\ cleaned (cleanRepeatedChars fiveRepetitions threeAndFive) <>
     expand (map collapseFound (runs threeAndFive)).
Proof. vm_compute; repeat split; discriminate. Qed.

End CharExamples.

(* ================================================================== *)
(** * Further properties of strings *)

Section Trim.

Lemma trimStart_fixed (c : ascii) (s : JSString) :
  isWhiteSpace c = false -> trimStart (c :: s) = c :: s.
Proof. intros H; simpl; rewrite H; reflexivity. Qed.

(** What [trimStart] returns is empty or starts with a unit that is
    not white space. *)
Lemma trimStart_shape (s : JSString) :
  trimStart s = []
  \/ exists c t, trimStart s = c :: t /\ isWhiteSpace c = false.
Proof.
  induction s as [|c s IH]; simpl; [left; reflexivity|].
  destruct (isWhiteSpace c) eqn:E; [exact IH|].
  right; exists c, s; split; [reflexivity | exact E].
Qed.

Lemma trimStart_idempotent (s : JSString) :
  trimStart (trimStart s) = trimStart s.
Proof.
  destruct (trimStart_shape s) as [-> | (c & t & -> & H)]; [reflexivity|].
  apply trimStart_fixed, H.
Qed.

Lemma trimEnd_snoc (s : JSString) (c : ascii) :
  trimEnd (s ++ [c]) = if isWhiteSpace c then trimEnd s else s ++ [c].
Proof.
  unfold trimEnd; rewrite rev_app_distr; simpl.
  destruct (isWhiteSpace c); [reflexivity|].
  simpl; rewrite rev_involutive; reflexivity.
Qed.

Lemma trimEnd_idempotent (s : JSString) : trimEnd (trimEnd s) = trimEnd s.
Proof.
  unfold trimEnd; rewrite rev_involutive, trimStart_idempotent; reflexivity.
Qed.

(** Cutting white space off the end leaves the start as it is. *)
Lemma trimEnd_keeps_start (c : ascii) (s : JSString) :
  isWhiteSpace c = false -> exists t, trimEnd (c :: s) = c :: t.
Proof.
  intros H; induction s as [|x s IH] using rev_ind.
  - exists []; change [c] with ([] ++ [c]); rewrite trimEnd_snoc, H.
    reflexivity.
  - change (c :: s ++ [x]) with ((c :: s) ++ [x]); rewrite trimEnd_snoc.
    destruct (isWhiteSpace x); [exact IH|].
    exists (s ++ [x]); reflexivity.
Qed.

Lemma trimEnd_nil : trimEnd [] = [].
Proof. reflexivity. Qed.

(** [trim] is idempotent. *)
Lemma trim_idempotent (s : JSString) : trim (trim s) = trim s.
Proof.
  unfold trim.
  destruct (trimStart_shape s) as [-> | (c & t & -> & H)]; [reflexivity|].
  destruct (trimEnd_keeps_start c t H) as (u & E).
  rewrite E, (trimStart_fixed c u H), <- E; apply trimEnd_idempotent.
Qed.

Lemma lowerChar_idempotent (c : ascii) : lowerChar (lowerChar c) = lowerChar c.
Proof. destruct c as [[] [] [] [] [] [] [] []]; reflexivity. Qed.

Lemma toLowerCase_idempotent (s : JSString) :
  toLowerCase (toLowerCase s) = toLowerCase s.
Proof.
  unfold toLowerCase; rewrite map_map; apply map_ext, lowerChar_idempotent.
Qed.

Lemma includes_nil (s : JSString) : includes s [] = true.
Proof. destruct s; reflexivity. Qed.

Lemma existsb_eqb_In (x : JSString) (l : list JSString) :
  existsb (eqb x) l = true <-> In x l.
Proof.
  rewrite existsb_exists; split.
  - intros (y & Hy & E); apply eqb_eq in E; subst y; exact Hy.
  - intros H; exists x; split; [exact H | apply eqb_refl].
Qed.

End Trim.

(* ================================================================== *)
(** * Further properties of FilterManager.checkString *)

Section MoreVerdicts.

Import FilterManager.

(** The verdict depends on the active filters only. *)
Lemma checkString_active (now : Date) (m1 m2 : Manager) (text : JSString)
    (o : CheckOptions) :
  filter isActive (filters m1) = filter isActive (filters m2) ->
  checkString now m1 text o = checkString now m2 text o.
Proof.
  intros E; rewrite !checkString_spec.
  unfold denyMatches, allowMatches; rewrite E; reflexivity.
Qed.

(** X1.  The two flags of a verdict are always opposite, a text is
    blocked exactly when the reason is [blacklist], which is when some
    live deny entry matches and no allow entry does, and the reason is
    [none] exactly when nothing matched. *)
Theorem checkString_verdict_consistent
    (now : Date) (m : Manager) (text : JSString) (o : CheckOptions) :
  let r := checkString now m text o in
  isBlocked r = negb (isAllowed r)
  /\ isTextBlocked now m text o = negb (isTextAllowed now m text o)
  /\ (isBlocked r = true <-> reason r = blacklist)
  /\ (reason r = blacklist <->
      matchedWhiteList r = [] /\ matchedBlackList r <> [])
  /\ (reason r = whitelist <-> matchedWhiteList r <> [])
  /\ (reason r = none <-> matchedWhiteList r = [] /\ matchedBlackList r = []).
Proof.
  unfold isTextBlocked, isTextAllowed; cbv zeta; rewrite checkString_spec.
  destruct (allowMatches o text (filters m)) as [|w ws];
    [destruct (denyMatches now o text (filters m)) as [|b bs]|]; simpl;
    repeat split; try congruence; try discriminate;
    try (intros [H1 H2]; congruence); try (intros [H1 H2]; discriminate).
Qed.

Lemma filter_active_mutated (pre post : list Filter) (g : Filter) :
  isActive g = false ->
  filter isActive (pre ++ g :: post) = filter isActive (pre ++ post).
Proof.
  intros H; rewrite !filter_app; simpl; rewrite H; reflexivity.
Qed.

(** X2.  A filter that is switched off counts for nothing in a check:
    after [toggleFilter(id, false)] every text gets the verdict it gets
    after [deleteFilter(id)]. *)
Theorem toggleFilter_off_as_deleted
    (now now' : Date) (i : JSString) (m : Manager) (f : Filter)
    (text : JSString) (o : CheckOptions) :
  getFilter i m = Some f ->
  snd (toggleFilter now i (Some false) m) = true
  /\ snd (deleteFilter i m) = true
  /\ checkString now' (fst (toggleFilter now i (Some false) m)) text o =
     checkString now' (fst (deleteFilter i m)) text o.
Proof.
  intros Hget; unfold toggleFilter.
  destruct (mutate_found now i (fun f => setIsActive f false) m f Hget
              (fun h => eq_refl)) as (pre & post & E & Hpre & -> & _).
  unfold getFilter in Hget.
  destruct (find_split i (filters m) f Hget) as (pre' & post' & E' & Hpre' & Hf).
  unfold deleteFilter; rewrite E.
  rewrite (removeFirst_app_free i pre post f Hpre Hf).
  split; [reflexivity|]; split; [reflexivity|].
  apply checkString_active; simpl.
  apply filter_active_mutated; reflexivity.
Qed.

Lemma toggleFilter_off_as_deleted_witness :
  getFilter (str "default") scenarioD =
    Some (mkFilter (str "default") [BString (str "spam")]
            [str "not spam at all"] 0 0 true)
  /\ checkString 7 (fst (toggleFilter 5 (str "default") (Some false) scenarioD))
       (str "spam") noOptions =
     checkString 7 (fst (deleteFilter (str "default") scenarioD))
       (str "spam") noOptions.
Proof.
  split; [reflexivity|].
  apply (toggleFilter_off_as_deleted 5 7 (str "default") scenarioD
           (mkFilter (str "default") [BString (str "spam")]
              [str "not spam at all"] 0 0 true) (str "spam") noOptions
           eq_refl).
Defined.

Lemma expired_later (now now' : Date) (b : BlackItem) :
  now <= now' -> expiredEntry now b = true -> expiredEntry now' b = true.
Proof.
  intros Hle; destruct b as [s|[it [e|]]]; simpl; try discriminate.
  unfold isItemExpired; simpl; rewrite !Z.ltb_lt; lia.
Qed.

Lemma liveMatches_after_sweep (now now' : Date) (o : CheckOptions)
    (text : JSString) (bl : list BlackItem) :
  now <= now' ->
  liveMatches now' o text (filter (fun b => negb (expiredEntry now b)) bl) =
  liveMatches now' o text bl.
Proof.
  intros Hle; unfold liveMatches; induction bl as [|b bl IH];
    [reflexivity|].
  cbn [filter]; destruct (expiredEntry now b) eqn:E; cbn [negb].
  - rewrite (expired_later now now' b Hle E); cbn [negb andb]; exact IH.
  - cbn [filter]; rewrite IH; reflexivity.
Qed.

Lemma cleanFilter_fields (now : Date) (f : Filter) :
  blackList (fst (cleanFilter now f)) =
    filter (fun b => negb (expiredEntry now b)) (blackList f)
  /\ whiteList (fst (cleanFilter now f)) = whiteList f
  /\ isActive (fst (cleanFilter now f)) = isActive f
  /\ id (fst (cleanFilter now f)) = id f.
Proof. unfold cleanFilter; destruct (_ <? _)%nat; simpl; tauto. Qed.

Lemma sweep_filters (now : Date) (m : Manager) :
  filters (cleanExpiredBlacklistItems now m) =
  map (fun f => fst (cleanFilter now f)) (filters m).
Proof.
  unfold cleanExpiredBlacklistItems.
  destruct (existsb _ _); simpl; rewrite map_map; reflexivity.
Qed.

Lemma denyMatches_swept (now now' : Date) (o : CheckOptions)
    (text : JSString) (fs : list Filter) :
  now <= now' ->
  denyMatches now' o text (map (fun f => fst (cleanFilter now f)) fs) =
  denyMatches now' o text fs.
Proof.
  intros Hle; unfold denyMatches; induction fs as [|f fs IH]; [reflexivity|].
  destruct (cleanFilter_fields now f) as (Hb & _ & Ha & _).
  cbn [map filter]; rewrite Ha; destruct (isActive f); [|exact IH].
  cbn [flat_map]; rewrite Hb, (liveMatches_after_sweep now now') by exact Hle.
  f_equal; exact IH.
Qed.

Lemma allowMatches_swept (now : Date) (o : CheckOptions) (text : JSString)
    (fs : list Filter) :
  allowMatches o text (map (fun f => fst (cleanFilter now f)) fs) =
  allowMatches o text fs.
Proof.
  unfold allowMatches; induction fs as [|f fs IH]; [reflexivity|].
  destruct (cleanFilter_fields now f) as (_ & Hw & Hact & _).
  cbn [map filter]; rewrite Hact; destruct (isActive f); [|exact IH].
  cbn [flat_map]; rewrite Hw; f_equal; exact IH.
Qed.

(** X3.  The sweep never changes a verdict: a check at the time of
    the sweep or later gives the same result on the swept table as on
    the table that was not swept. *)
Theorem sweep_keeps_verdicts
    (now now' : Date) (m : Manager) (text : JSString) (o : CheckOptions) :
  now <= now' ->
  checkString now' (cleanExpiredBlacklistItems now m) text o =
  checkString now' m text o.
Proof.
  intros Hle; rewrite !checkString_spec, sweep_filters.
  rewrite (denyMatches_swept now now') by exact Hle.
  rewrite allowMatches_swept; reflexivity.
Qed.

Lemma sweep_keeps_verdicts_witness :
  1000 <= 2000
  /\ checkString 2000 (cleanExpiredBlacklistItems 1000 sweepTable)
       (str "something new") noOptions =
     checkString 2000 sweepTable (str "something new") noOptions.
Proof.
  assert (H : 1000 <= 2000) by lia.
  split; [exact H|].
  exact (sweep_keeps_verdicts 1000 2000 sweepTable (str "something new")
           noOptions H).
Defined.

Lemma matches_lower (o : CheckOptions) (t1 t2 item : JSString) :
  optCase o = false -> toLowerCase t1 = toLowerCase t2 ->
  matches o (processText o t1) item = matches o (processText o t2) item.
Proof. unfold processText; intros -> ->; reflexivity. Qed.

(** X8.  Unless [caseSensitive] is set, the case of the text does not
    count: two texts that differ in case only get the same verdict, and
    so does a text and its lower-case form. *)
Theorem checkString_ignores_case
    (now : Date) (m : Manager) (t1 t2 : JSString) (o : CheckOptions) :
  optCase o = false -> toLowerCase t1 = toLowerCase t2 ->
  checkString now m t1 o = checkString now m t2 o
  /\ checkString now m (toLowerCase t1) o = checkString now m t1 o.
Proof.
  intros Hc.
  assert (H : forall a b, toLowerCase a = toLowerCase b ->
                checkString now m a o = checkString now m b o).
  { intros a b E; rewrite !checkString_spec.
    assert (Hd : denyMatches now o a (filters m) =
                 denyMatches now o b (filters m)).
    { unfold denyMatches, liveMatches.
      apply flat_map_ext; intros f; apply filter_ext; intros x.
      unfold blackMatches; rewrite (matches_lower o a b _ Hc E); reflexivity. }
    assert (Ha : allowMatches o a (filters m) = allowMatches o b (filters m)).
    { unfold allowMatches.
      apply flat_map_ext; intros f; apply filter_ext; intros x.
      unfold whiteMatches; rewrite (matches_lower o a b _ Hc E); reflexivity. }
    rewrite Hd, Ha; reflexivity. }
  intros E; split; [exact (H t1 t2 E)|].
  apply H, toLowerCase_idempotent.
Qed.

Lemma checkString_ignores_case_witness :
  optCase noOptions = false
  /\ toLowerCase (str "Buy SPAM now") = toLowerCase (str "buy spam NOW")
  /\ checkString 1000 scenarioD (str "Buy SPAM now") noOptions =
     checkString 1000 scenarioD (str "buy spam NOW") noOptions.
Proof.
  split; [reflexivity|]; split; [reflexivity|].
  apply (checkString_ignores_case 1000 scenarioD (str "Buy SPAM now")
           (str "buy spam NOW") noOptions); reflexivity.
Defined.

(** X9.  A deny entry that is blank after trimming is contained in
    every text: under substring matching, which is the default, it
    blocks every text that no allow entry matches. *)
Theorem blank_deny_entry_blocks_all
    (now : Date) (m : Manager) (text : JSString) (o : CheckOptions)
    (f : Filter) (b : BlackItem) :
  optExact o = false -> optPartial o = true ->
  In f (filters m) -> isActive f = true -> In b (blackList f) ->
  expiredEntry now b = false -> normalizeItem b = [] ->
  allowMatches o text (filters m) = [] ->
  isBlocked (checkString now m text o) = true
  /\ In b (matchedBlackList (checkString now m text o)).
Proof.
  intros He Hp Hf Ha Hb Hexp Hn Hallow.
  assert (Hm : blackMatches o text b = true).
  { unfold blackMatches, matches; rewrite He, Hp, Hn.
    destruct (optCase o); apply includes_nil. }
  assert (Hin : In b (denyMatches now o text (filters m))).
  { apply denyMatches_In; exists f; tauto. }
  rewrite matchedBlackList_spec; split; [|exact Hin].
  rewrite checkString_spec, Hallow.
  destruct (denyMatches now o text (filters m)); [destruct Hin | reflexivity].
Qed.

Lemma blank_deny_entry_blocks_all_witness :
  isBlocked (checkString 1000 blankBan (str "hello world") noOptions) = true
  /\ In (BString (str "   "))
        (matchedBlackList
           (checkString 1000 blankBan (str "hello world") noOptions)).
Proof.
  apply (blank_deny_entry_blocks_all 1000 blankBan (str "hello world")
           noOptions
           (mkFilter (str "default") [BString (str "   ")] [] 0 0 true)
           (BString (str "   "))); try reflexivity.
  - left; reflexivity.
  - left; reflexivity.
Defined.

End MoreVerdicts.

(* ================================================================== *)
(** * Further properties of the table operations *)

Section MoreMutators.

Import FilterManager.

Lemma counted_live (now : Date) (b : BlackItem) :
  counted now b = negb (expiredEntry now b).
Proof. destruct b; reflexivity. Qed.

Lemma counted_after_sweep (now now' : Date) (bl : list BlackItem) :
  now <= now' ->
  filter (counted now') (filter (fun b => negb (expiredEntry now b)) bl) =
  filter (counted now') bl.
Proof.
  intros Hle; induction bl as [|b bl IH]; [reflexivity|].
  cbn [filter]; destruct (expiredEntry now b) eqn:E; cbn [negb].
  - rewrite counted_live, (expired_later now now' b Hle E); exact IH.
  - cbn [filter]; rewrite IH; reflexivity.
Qed.

Lemma sum_swept (g h : Filter -> nat) (k : Filter -> Filter)
    (fs : list Filter) (acc : nat) :
  (forall f, g (k f) = h f) ->
  fold_left (fun sum f => (sum + g f)%nat) (map k fs) acc =
  fold_left (fun sum f => (sum + h f)%nat) fs acc.
Proof.
  intros H; revert acc; induction fs as [|f fs IH]; intros acc;
    [reflexivity|].
  cbn [map fold_left]; rewrite H; apply IH.
Qed.

Lemma active_swept (now : Date) (fs : list Filter) :
  length (filter isActive (map (fun f => fst (cleanFilter now f)) fs)) =
  length (filter isActive fs).
Proof.
  induction fs as [|f fs IH]; [reflexivity|].
  destruct (cleanFilter_fields now f) as (_ & _ & Ha & _).
  cbn [map filter]; rewrite Ha; destruct (isActive f); simpl; rewrite IH;
    reflexivity.
Qed.

(** X4.  [getStats] counts the deny entries that are not expired, so
    the sweep does not change the statistics: taken at the time of the
    sweep or later they are the same on the swept table. *)
Theorem getStats_unchanged_by_sweep (now now' : Date) (m : Manager) :
  now <= now' ->
  getStats now' (cleanExpiredBlacklistItems now m) = getStats now' m.
Proof.
  intros Hle; unfold getStats; rewrite sweep_filters.
  rewrite length_map, active_swept.
  rewrite (sum_swept
             (fun f => length (filter (counted now') (blackList f)))
             (fun f => length (filter (counted now') (blackList f)))).
  - rewrite (sum_swept (fun f => length (whiteList f))
               (fun f => length (whiteList f))); [reflexivity|].
    intros f; destruct (cleanFilter_fields now f) as (_ & -> & _);
      reflexivity.
  - intros f; destruct (cleanFilter_fields now f) as (-> & _).
    rewrite (counted_after_sweep now now') by exact Hle; reflexivity.
Qed.

Lemma getStats_unchanged_by_sweep_witness :
  1000 <= 2000
  /\ getStats 2000 (cleanExpiredBlacklistItems 1000 sweepTable) =
     getStats 2000 sweepTable
  /\ totalBlackListItems (getStats 2000 sweepTable) = 2%nat.
Proof.
  assert (H : 1000 <= 2000) by lia.
  split; [exact H|]; split; [|reflexivity].
  exact (getStats_unchanged_by_sweep 1000 2000 sweepTable H).
Defined.

Lemma mutateFirst_none (i : JSString) (g : Filter -> Filter)
    (fs : list Filter) :
  find (fun f => eqb (id f) i) fs = None -> mutateFirst i g fs = None.
Proof.
  induction fs as [|f fs IH]; simpl; [reflexivity|].
  destruct (eqb (id f) i); [discriminate|].
  intros H; rewrite (IH H); reflexivity.
Qed.

Lemma removeFirst_none (i : JSString) (fs : list Filter) :
  find (fun f => eqb (id f) i) fs = None -> removeFirst i fs = None.
Proof.
  induction fs as [|f fs IH]; simpl; [reflexivity|].
  destruct (eqb (id f) i); [discriminate|].
  intros H; rewrite (IH H); reflexivity.
Qed.

Lemma mutate_none (now : Date) (i : JSString) (g : Filter -> Filter)
    (m : Manager) :
  getFilter i m = None -> mutate now i g m = (m, false).
Proof.
  intros H; unfold mutate; rewrite (mutateFirst_none i _ _ H); reflexivity.
Qed.

(** X5.  With an id that no filter of the table has, every operation
    that takes an id returns [false] and changes nothing: not the table
    and not the storage. *)
Theorem unknown_id_changes_nothing
    (now : Date) (i : JSString) (m : Manager) (items : list JSString)
    (bl wl : option (list JSString)) (secs : option Z) (active : option bool) :
  getFilter i m = None ->
  updateFilter now i bl wl m = (m, false)
  /\ addToBlackList now i items secs m = (m, false)
  /\ addToWhiteList now i items m = (m, false)
  /\ removeFromBlackList now i items m = (m, false)
  /\ removeFromWhiteList now i items m = (m, false)
  /\ toggleFilter now i active m = (m, false)
  /\ deleteFilter i m = (m, false).
Proof.
  intros H; repeat split; try (apply mutate_none, H).
  unfold deleteFilter; rewrite (removeFirst_none i _ H); reflexivity.
Qed.

Lemma unknown_id_changes_nothing_witness :
  getFilter (str "other") scenarioD = None
  /\ addToBlackList 5 (str "other") [str "x"] None scenarioD =
     (scenarioD, false)
  /\ deleteFilter (str "other") scenarioD = (scenarioD, false).
Proof.
  destruct (unknown_id_changes_nothing 5 (str "other") scenarioD [str "x"]
              None None None None eq_refl) as (_ & H1 & _ & _ & _ & _ & H2).
  split; [reflexivity|]; split; [exact H1 | exact H2].
Defined.

(** ** The deny list after an insertion *)

Lemma single_identity_NoDup (l : list BlackItem) :
  (forall k, (length (filter (hasIdentity k) l) <= 1)%nat) ->
  NoDup (map normalizeItem l).
Proof.
  induction l as [|x l IH]; intros H; [constructor|].
  cbn [map]; constructor.
  - intros Hin; apply in_map_iff in Hin; destruct Hin as (y & Ey & Hy).
    specialize (H (normalizeItem x)); cbn [filter] in H.
    unfold hasIdentity at 1 in H; rewrite eqb_refl in H.
    assert (Hy' : In y (filter (hasIdentity (normalizeItem x)) l)).
    { apply filter_In; split; [exact Hy|].
      unfold hasIdentity; rewrite Ey; apply eqb_refl. }
    destruct (filter (hasIdentity (normalizeItem x)) l);
      [destruct Hy' | simpl in H; lia].
  - apply IH; intros k; specialize (H k); cbn [filter] in H.
    destruct (hasIdentity k x); simpl in H; lia.
Qed.

Lemma dedup_NoDup (l : list BlackItem) : NoDup (map normalizeItem (dedup l)).
Proof.
  apply single_identity_NoDup; intros k; rewrite dedup_identity.
  destruct (find (hasIdentity k) l); simpl; lia.
Qed.

Lemma find_some_app {A} (p : A -> bool) (l1 l2 : list A) (x : A) :
  In x l2 -> p x = true -> exists e, find p (l1 ++ l2) = Some e.
Proof.
  intros Hin Hp; destruct (find p (l1 ++ l2)) as [e|] eqn:E;
    [exists e; reflexivity|].
  exfalso; pose proof (find_none p _ E x) as Hn.
  rewrite Hn in Hp; [discriminate|]. apply in_or_app; right; exact Hin.
Qed.

Lemma newItem_identity (now : Date) (items : list JSString) (secs : option Z)
    (b : BlackItem) :
  In b (newBlackListItems now items secs) ->
  exists x, In x items /\ normalizeItem b = trim x.
Proof.
  unfold newBlackListItems; intros H; apply in_map_iff in H.
  destruct H as (x & <- & Hx); exists x; split; [exact Hx|].
  destruct secs as [z|]; [destruct (z =? 0)|]; simpl; apply trim_idempotent.
Qed.

Lemma newItem_present (now : Date) (items : list JSString) (secs : option Z)
    (x : JSString) :
  In x items ->
  exists b, In b (newBlackListItems now items secs)
            /\ hasIdentity (trim x) b = true.
Proof.
  intros Hx; unfold newBlackListItems.
  eexists; split; [apply in_map, Hx|].
  unfold hasIdentity; apply eqb_eq.
  destruct secs as [z|]; [destruct (z =? 0)|]; simpl; apply trim_idempotent.
Qed.

(** X6.  After [addToBlackList] no two entries of the deny list have
    the same trim-only identity, and the identity of every inserted item
    is carried by exactly one entry: the first entry with that identity
    among the entries that were stored followed by the new ones, a
    stored entry that has ended included. *)
Theorem addToBlackList_unique_identities
    (now : Date) (i : JSString) (items : list JSString) (secs : option Z)
    (m : Manager) (f : Filter) :
  getFilter i m = Some f ->
  exists f',
    getFilter i (fst (addToBlackList now i items secs m)) = Some f'
    /\ NoDup (map normalizeItem (blackList f'))
    /\ (forall x, In x items ->
          exists b,
            filter (hasIdentity (trim x)) (blackList f') = [b]
            /\ find (hasIdentity (trim x))
                 (blackList f ++ newBlackListItems now items secs) = Some b).
Proof.
  intros Hget; unfold addToBlackList.
  destruct (mutate_found now i
              (fun f => setBlackList f
                 (dedup (blackList f ++ newBlackListItems now items secs)))
              m f Hget (fun h => eq_refl))
    as (pre & post & _ & _ & _ & Hg).
  eexists; split; [exact Hg|]; simpl; split; [apply dedup_NoDup|].
  intros x Hx; rewrite dedup_identity.
  destruct (newItem_present now items secs x Hx) as (b & Hb & Hid).
  destruct (find_some_app (hasIdentity (trim x)) (blackList f) _ b Hb Hid)
    as (e & ->).
  exists e; split; reflexivity.
Qed.

Lemma addToBlackList_unique_identities_witness :
  exists f',
    getFilter (str "default")
      (fst (addToBlackList 1000 (str "default")
              [str " spam"; str "spam "; str "x"] (Some 60) expiredBan))
    = Some f'
    /\ NoDup (map normalizeItem (blackList f'))
    /\ (forall x, In x [str " spam"; str "spam "; str "x"] ->
          exists b,
            filter (hasIdentity (trim x)) (blackList f') = [b]
            /\ find (hasIdentity (trim x))
                 (blackList
                    (mkFilter (str "default")
                       [BTimed (mkTimed (str "spam") (Some 500))] [] 0 0 true)
                  ++ newBlackListItems 1000
                       [str " spam"; str "spam "; str "x"] (Some 60))
               = Some b).
Proof.
  apply (addToBlackList_unique_identities 1000 (str "default")
           [str " spam"; str "spam "; str "x"] (Some 60) expiredBan
           (mkFilter (str "default")
              [BTimed (mkTimed (str "spam") (Some 500))] [] 0 0 true)).
  reflexivity.
Defined.

Lemma dedupFrom_In (self l : list BlackItem) (k : nat) (b : BlackItem) :
  In b (dedupFrom self k l) -> In b l.
Proof.
  revert k; induction l as [|v l IH]; intros k; [intros []|].
  cbn [dedupFrom]; destruct (findIndex _ self) as [j|].
  - destruct (k =? j)%nat.
    + intros [<- | H]; [left; reflexivity | right; exact (IH _ H)].
    + intros H; right; exact (IH _ H).
  - intros H; right; exact (IH _ H).
Qed.

(** Entries with fresh, distinct identities survive the filter of
    [addToBlackList], and what it keeps of the rest comes from there. *)
Lemma dedupFrom_fresh (keep : BlackItem -> bool)
    (bl new pre : list BlackItem) :
  NoDup (map normalizeItem (pre ++ bl)) ->
  (forall b, In b bl -> keep b = true) ->
  (forall b, In b new -> keep b = false) ->
  filter keep (dedupFrom (pre ++ bl ++ new) (length pre) (bl ++ new)) = bl.
Proof.
  intros Hnd Hbl Hnew; revert pre Hnd; induction bl as [|b bl IH];
    intros pre Hnd.
  - cbn [app].
    destruct (filter keep _) as [|y ys] eqn:E; [reflexivity|].
    assert (Hy : In y (filter keep (dedupFrom (pre ++ new) (length pre) new)))
      by (rewrite E; left; reflexivity).
    apply filter_In in Hy; destruct Hy as [Hy Hk].
    rewrite (Hnew y (dedupFrom_In _ _ _ _ Hy)) in Hk; discriminate.
  - cbn [app dedupFrom].
    change (fun t => eqb (normalizeItem t) (normalizeItem b))
      with (hasIdentity (normalizeItem b)).
    assert (Hpre : existsb (hasIdentity (normalizeItem b)) pre = false).
    { destruct (existsb _ pre) eqn:E; [|reflexivity].
      apply existsb_exists in E; destruct E as (y & Hy & Ey).
      apply eqb_eq in Ey.
      rewrite map_app in Hnd; cbn [map] in Hnd.
      apply NoDup_remove_2 in Hnd; exfalso; apply Hnd.
      apply in_or_app; left; rewrite <- Ey; apply in_map, Hy. }
    rewrite (findIndex_first _ pre (bl ++ new) b Hpre (eqb_refl _)),
      Nat.eqb_refl.
    cbn [filter]; rewrite (Hbl b (or_introl eq_refl)); f_equal.
    specialize (IH (fun y Hy => Hbl y (or_intror Hy)) (pre ++ [b])).
    rewrite <- !app_assoc, length_app, Nat.add_1_r in IH; apply IH.
    exact Hnd.
Qed.

(** X7.  Inserting items and removing the same items again gives back
    the deny list, when its entries had distinct identities and none of
    them was the identity of an inserted item. *)
Theorem removeFromBlackList_undoes_add
    (now1 now2 : Date) (i : JSString) (items : list JSString)
    (secs : option Z) (m : Manager) (f : Filter) :
  getFilter i m = Some f ->
  NoDup (map normalizeItem (blackList f)) ->
  (forall b x, In b (blackList f) -> In x items -> normalizeItem b <> trim x) ->
  let m1 := fst (addToBlackList now1 i items secs m) in
  let m2 := fst (removeFromBlackList now2 i items m1) in
  exists f2, getFilter i m2 = Some f2 /\ blackList f2 = blackList f.
Proof.
  intros Hget Hnd Hfresh m1 m2; subst m2 m1.
  unfold addToBlackList.
  destruct (mutate_found now1 i
              (fun f => setBlackList f
                 (dedup (blackList f ++ newBlackListItems now1 items secs)))
              m f Hget (fun h => eq_refl))
    as (pre & post & _ & _ & _ & Hg1).
  unfold removeFromBlackList.
  destruct (mutate_found now2 i
              (fun f =>
                 setBlackList f
                   (filter (fun blackItem =>
                              negb (existsb (fun removeItem =>
                                       eqb (normalizeItem blackItem)
                                           (trim removeItem)) items))
                           (blackList f)))
              _ _ Hg1 (fun h => eq_refl))
    as (pre2 & post2 & _ & _ & _ & Hg2).
  eexists; split; [exact Hg2|]; simpl.
  apply (dedupFrom_fresh _ (blackList f) _ []); [exact Hnd| |].
  - intros b Hb; apply negb_true_iff.
    destruct (existsb _ items) eqn:E; [|reflexivity].
    apply existsb_exists in E; destruct E as (x & Hx & Ex).
    apply eqb_eq in Ex; destruct (Hfresh b x Hb Hx Ex).
  - intros b Hb; apply negb_false_iff, existsb_exists.
    destruct (newItem_identity now1 items secs b Hb) as (x & Hx & Ex).
    exists x; split; [exact Hx | apply eqb_eq, Ex].
Qed.

Lemma removeFromBlackList_undoes_add_witness :
  let m1 := fst (addToBlackList 5 (str "default") [str " ads "; str "ads"]
                   (Some 60) scenarioD) in
  let m2 := fst (removeFromBlackList 6 (str "default") [str " ads "; str "ads"]
                   m1) in
  exists f2, getFilter (str "default") m2 = Some f2
             /\ blackList f2 = [BString (str "spam")].
Proof.
  apply (removeFromBlackList_undoes_add 5 6 (str "default")
           [str " ads "; str "ads"] (Some 60) scenarioD
           (mkFilter (str "default") [BString (str "spam")]
              [str "not spam at all"] 0 0 true)).
  - reflexivity.
  - repeat constructor; intros [].
  - intros b x [<- | []] [<- | [<- | []]]; vm_compute; discriminate.
Defined.

Lemma filter_none {A} (p : A -> bool) (l : list A) :
  (forall x, In x l -> p x = false) -> filter p l = [].
Proof.
  induction l as [|x l IH]; intros H; [reflexivity|].
  cbn [filter]; rewrite (H x (or_introl eq_refl)).
  apply IH; intros y Hy; apply H; right; exact Hy.
Qed.

(** X10.  After [addToWhiteList] every item is in the allow list in
    its trimmed form, and a second call with the same items adds
    nothing. *)
Theorem addToWhiteList_twice
    (now1 now2 : Date) (i : JSString) (items : list JSString)
    (m : Manager) (f : Filter) :
  getFilter i m = Some f ->
  let m1 := fst (addToWhiteList now1 i items m) in
  let m2 := fst (addToWhiteList now2 i items m1) in
  exists f1 f2,
    getFilter i m1 = Some f1 /\ getFilter i m2 = Some f2
    /\ (forall x, In x items -> In (trim x) (whiteList f1))
    /\ (forall w, In w (whiteList f) -> In w (whiteList f1))
    /\ whiteList f2 = whiteList f1.
Proof.
  intros Hget m1 m2; subst m2 m1; unfold addToWhiteList.
  destruct (mutate_found now1 i
              (fun f => setWhiteList f
                 (whiteList f ++
                  filter (fun x => negb (existsb (eqb x) (whiteList f)))
                         (map trim items)))
              m f Hget (fun h => eq_refl))
    as (pre & post & _ & _ & _ & Hg1).
  destruct (mutate_found now2 i
              (fun f => setWhiteList f
                 (whiteList f ++
                  filter (fun x => negb (existsb (eqb x) (whiteList f)))
                         (map trim items)))
              _ _ Hg1 (fun h => eq_refl))
    as (pre2 & post2 & _ & _ & _ & Hg2).
  eexists; eexists; split; [exact Hg1|]; split; [exact Hg2|]; simpl.
  assert (Hall : forall x, In x items ->
            In (trim x)
               (whiteList f ++
                filter (fun x => negb (existsb (eqb x) (whiteList f)))
                       (map trim items))).
  { intros x Hx; apply in_or_app.
    destruct (existsb (eqb (trim x)) (whiteList f)) eqn:E.
    - left; apply existsb_eqb_In, E.
    - right; apply filter_In; split; [apply in_map, Hx|].
      rewrite E; reflexivity. }
  split; [exact Hall|]; split; [intros w Hw; apply in_or_app; left; exact Hw|].
  rewrite <- app_nil_r; f_equal.
  apply filter_none; intros y Hy.
  apply in_map_iff in Hy; destruct Hy as (x & <- & Hx).
  apply negb_false_iff, existsb_eqb_In, Hall, Hx.
Qed.

Lemma addToWhiteList_twice_witness :
  let m1 := fst (addToWhiteList 5 (str "default") [str " ok "; str "ok"]
                   scenarioD) in
  let m2 := fst (addToWhiteList 6 (str "default") [str " ok "; str "ok"] m1) in
  exists f1 f2,
    getFilter (str "default") m1 = Some f1
    /\ getFilter (str "default") m2 = Some f2
    /\ (forall x, In x [str " ok "; str "ok"] -> In (trim x) (whiteList f1))
    /\ (forall w, In w [str "not spam at all"] -> In w (whiteList f1))
    /\ whiteList f2 = whiteList f1.
Proof.
  apply (addToWhiteList_twice 5 6 (str "default") [str " ok "; str "ok"]
           scenarioD
           (mkFilter (str "default") [BString (str "spam")]
              [str "not spam at all"] 0 0 true)).
  reflexivity.
Defined.

End MoreMutators.

(* ================================================================== *)
(** * Further properties of SpamCleaner *)

Section MoreClean.

Import RegExp SpamCleaner.

Variable o : CleanerOptions.

(** X11.  With [maxLength] at least 3, the cleaned text of [clean]
    is never longer than [maxLength], whatever the message. *)
Theorem clean_length_bound (message : JSString) :
  3 <= maxLength o -> len (cleaned (clean o message)) <= maxLength o.
Proof.
  intros H3; unfold clean.
  destruct (trim message) as [|c t]; [unfold len; simpl; lia|].
  cbn [cleaned createResult].
  set (s := currentText _).
  destruct (Z.ltb_spec (maxLength o) (len s)) as [Hlt | Hge].
  - destruct (truncate_length o s H3 Hlt) as [_ ->]; lia.
  - unfold truncate; apply Z.ltb_ge in Hge; rewrite Hge.
    apply Z.ltb_ge in Hge; exact Hge.
Qed.

(** X12.  With [maxLength] below 3, a text that is longer than
    [maxLength] after the passes is replaced by the three dots alone,
    which are longer than the limit. *)
Theorem clean_limit_below_three (message : JSString) :
  maxLength o < 3 -> trim message <> [] ->
  maxLength o < len (intermediateText o message) ->
  cleaned (clean o message) = str "..."
  /\ maxLength o < len (cleaned (clean o message)).
Proof.
  intros H3 Hne Hlen; unfold clean, intermediateText in *.
  destruct (trim message) as [|c t]; [congruence|].
  cbn [cleaned createResult].
  assert (E : truncate o
                (currentText (cascade o (cleanUrls (c :: t)))) = str "...").
  { unfold truncate; apply Z.ltb_lt in Hlen; rewrite Hlen.
    unfold substring.
    rewrite (Z.max_r (maxLength o - 3) 0), (Z.max_l 0 0) by lia.
    rewrite (Z.min_l 0) by lia.
    rewrite Z.min_id, Z.max_id; reflexivity. }
  rewrite E; split; [reflexivity | unfold len; simpl; lia].
Qed.

End MoreClean.

Section MoreCleanExamples.

Import SpamCleaner.

Lemma clean_length_bound_witness :
  3 <= maxLength shortLimit
  /\ len (cleaned (clean shortLimit alphabet)) <= maxLength shortLimit.
Proof.
  assert (H : 3 <= maxLength shortLimit) by (vm_compute; discriminate).
  split; [exact H | exact (clean_length_bound shortLimit alphabet H)].
Defined.

Lemma clean_limit_below_three_witness :
  maxLength tinyLimit < 3
  /\ trim alphabet <> []
  /\ maxLength tinyLimit < len (intermediateText tinyLimit alphabet)
  /\ cleaned (clean tinyLimit alphabet) = str "..."
  /\ maxLength tinyLimit < len (cleaned (clean tinyLimit alphabet)).
Proof.
  assert (H1 : maxLength tinyLimit < 3) by reflexivity.
  assert (H2 : trim alphabet <> []) by (vm_compute; discriminate).
  assert (H3 : maxLength tinyLimit < len (intermediateText tinyLimit alphabet))
    by (vm_compute; reflexivity).
  split; [exact H1|]; split; [exact H2|]; split; [exact H3|].
  exact (clean_limit_below_three tinyLimit alphabet H1 H2 H3).
Defined.

Lemma trimStart_blank (s : JSString) :
  forallb isWhiteSpace s = true -> trimStart s = [].
Proof.
  induction s as [|c s IH]; simpl; [reflexivity|].
  intros H; apply andb_true_iff in H; destruct H as [-> H]; exact (IH H).
Qed.

(** X13.  A message of white space only, the empty message included,
    is not looked at any further: the result has the empty text, is not
    spam and counts no repetition. *)
Theorem clean_blank_message (o : CleanerOptions) (message : JSString) :
  forallb isWhiteSpace message = true ->
  clean o message = createResult message [] false 0 None.
Proof.
  intros H; unfold clean, trim; rewrite (trimStart_blank message H).
  reflexivity.
Qed.

Lemma clean_blank_message_witness :
  forallb isWhiteSpace blankMessage = true
  /\ clean defaultOptions blankMessage =
     createResult blankMessage [] false 0 None.
Proof.
  split; [reflexivity|].
  exact (clean_blank_message defaultOptions blankMessage eq_refl).
Defined.

End MoreCleanExamples.

Section CharPassMore.

Import RegExp SpamCleaner.

Variable o : CleanerOptions.

Lemma runs_head (s : JSString) (c d : ascii) (n : nat)
    (rs : list (ascii * nat)) :
  runs s = (d, n) :: rs -> runLength c s = 0%nat -> Ascii.eqb c d = false.
Proof.
  intros E Hc; destruct (runs_inv s d n rs E) as (s' & -> & _ & Hn & _).
  destruct n as [|n]; [lia|]; simpl in Hc.
  rewrite Ascii.eqb_sym; destruct (Ascii.eqb d c); [discriminate | reflexivity].
Qed.

(** A run put before a text that does not start with its unit is the
    first run of the result. *)
Lemma runs_cons_run (c : ascii) (n : nat) (t : JSString) :
  (1 <= n)%nat -> runLength c t = 0%nat ->
  runs (repeat c n ++ t) = (c, n) :: runs t.
Proof.
  intros Hn Ht; destruct n as [|n]; [lia|]; clear Hn.
  induction n as [|n IH].
  - cbn [repeat app runs].
    destruct (runs t) as [|[d k] rs] eqn:E; [reflexivity|].
    rewrite (runs_head t c d k rs E Ht); reflexivity.
  - change (repeat c (S (S n)) ++ t) with (c :: (repeat c (S n) ++ t)).
    cbn [runs]; rewrite IH, Ascii.eqb_refl; reflexivity.
Qed.

Lemma collapseReaching_unit (r : ascii * nat) :
  fst (collapseReaching o r) = fst r
  /\ ((1 <= snd r)%nat -> (1 <= snd (collapseReaching o r) <= snd r)%nat).
Proof.
  unfold collapseReaching; destruct r as [c n].
  destruct (found (c, n)) eqn:Hf; cbn [andb fst snd]; [|split; [reflexivity|lia]].
  destruct (reaches o (c, n)); cbn [fst snd]; [|split; [reflexivity|lia]].
  destruct (found_true c n Hf) as [_ Hn]; split; [reflexivity | lia].
Qed.

Lemma runLength_collapsed (c : ascii) (s : JSString) :
  runLength c s = 0%nat ->
  runLength c (expand (map (collapseReaching o) (runs s))) = 0%nat.
Proof.
  intros Hc; destruct (runs s) as [|[d n] rs] eqn:E; [reflexivity|].
  pose proof (runs_head s c d n rs E Hc) as Hd.
  destruct (runs_inv s d n rs E) as (_ & _ & _ & Hn & _).
  destruct (collapseReaching_unit (d, n)) as [H1 H2].
  specialize (H2 Hn); cbn [fst snd] in H1, H2.
  unfold expand; cbn [map flat_map]; rewrite H1.
  destruct (snd (collapseReaching o (d, n))) as [|k]; [lia|].
  simpl; rewrite Ascii.eqb_sym, Hd; reflexivity.
Qed.

(** The runs of the collapsed text are the collapsed runs. *)
Lemma runs_collapsed (s : JSString) :
  runs (expand (map (collapseReaching o) (runs s))) =
  map (collapseReaching o) (runs s).
Proof.
  remember (runs s) as rs eqn:E; symmetry in E.
  revert s E; induction rs as [|[c n] rs IH]; intros s E; [reflexivity|].
  destruct (runs_inv s c n rs E) as (s' & -> & Hs' & Hn & Hrun).
  destruct (collapseReaching_unit (c, n)) as [H1 H2].
  specialize (H2 Hn); cbn [fst snd] in H1, H2.
  cbn [map]; unfold expand; cbn [flat_map]; fold (expand (map (collapseReaching o) rs)).
  rewrite H1, runs_cons_run.
  - rewrite (IH s' Hs').
    destruct (collapseReaching o (c, n)) as [c' n']; cbn [fst snd] in *.
    subst c'; reflexivity.
  - lia.
  - rewrite <- Hs'; apply runLength_collapsed, Hrun.
Qed.

Lemma collapseReaching_idempotent (r : ascii * nat) :
  collapseReaching o (collapseReaching o r) = collapseReaching o r.
Proof.
  destruct (found r && reaches o r) eqn:E.
  - assert (H : collapseReaching o r = (fst r, 2%nat))
      by (unfold collapseReaching; rewrite E; reflexivity).
    rewrite H; unfold collapseReaching, found; simpl.
    rewrite andb_false_r; reflexivity.
  - assert (H : collapseReaching o r = r)
      by (unfold collapseReaching; rewrite E; reflexivity).
    rewrite !H; reflexivity.
Qed.

Lemma expand_length (rs : list (ascii * nat)) :
  length (expand rs) = list_sum (map snd rs).
Proof.
  induction rs as [|[c n] rs IH]; [reflexivity|].
  unfold expand in *; cbn [flat_map map list_sum fst snd].
  rewrite length_app, repeat_length, IH; reflexivity.
Qed.

(** No match that reaches [minRepetitions]: the loop leaves the two
    variables as they are. *)
Lemma scanMatch_none (ms : list JSString) (st : Z * JSString) :
  (forall mt, In mt ms -> len mt < minRepetitions o) ->
  fold_left (scanMatch o) ms st = st.
Proof.
  revert st; induction ms as [|mt ms IH]; intros st H; [reflexivity|].
  cbn [fold_left]; unfold scanMatch at 2; destruct st as [mx ch].
  replace (minRepetitions o <=? len mt) with false
    by (symmetry; apply Z.leb_gt, H; left; reflexivity).
  apply IH; intros x Hx; apply H; right; exact Hx.
Qed.

(** What the character pass returns, for every text: the text with the
    found runs that reach [minRepetitions] cut to two units. *)
Lemma cleanRepeatedChars_runs (text : JSString) :
  cleaned (cleanRepeatedChars o text) =
  expand (map (collapseReaching o) (runs text)).
Proof.
  assert (Hid : (forall r, In r (runs text) -> found r && reaches o r = false)
                -> expand (map (collapseReaching o) (runs text)) = text).
  { intros H; rewrite <- (expand_runs text) at 2; f_equal.
    rewrite <- (map_id (runs text)) at 2; apply map_ext_in; intros r Hr.
    unfold collapseReaching; rewrite (H r Hr); reflexivity. }
  unfold cleanRepeatedChars; rewrite matches_fold.
  destruct (fold_left _ _ _) as [mx ch] eqn:F; cbn [cleaned createResult].
  destruct (matchAll false reCharRun text) as [|mt ms] eqn:Em.
  - symmetry; apply Hid; intros r Hr.
    destruct (found r) eqn:Hf; [|reflexivity].
    assert (Hin : In (runText r) (map runText (filter found (runs text))))
      by (apply in_map, filter_In; tauto).
    rewrite <- matchAll_runs, Em in Hin; destruct Hin.
  - destruct (minRepetitions o <=? mx) eqn:L; [apply replace_runs|].
    symmetry; apply Hid; intros r Hr.
    destruct (found r) eqn:Hf; [|reflexivity].
    destruct (reaches o r) eqn:Hre; [|reflexivity].
    assert (Hin : In (runText r) (mt :: ms)).
    { rewrite <- Em, matchAll_runs; apply in_map, filter_In; tauto. }
    pose proof (scanMatch_reaching o (mt :: ms) (0, []) (runText r) Hin) as Hm.
    rewrite F in Hm; cbn [fst] in Hm.
    apply Z.leb_gt in L; unfold reaches in Hre; apply Z.leb_le in Hre.
    unfold len, runText in Hm; rewrite repeat_length in Hm.
    specialize (Hm Hre); lia.
Qed.

(** X14.  The character pass is idempotent, never makes a text
    longer, and leaves no run of three or more units (line terminators
    apart) that reaches [minRepetitions]. *)
Theorem cleanRepeatedChars_idempotent (text : JSString) :
  let once := cleaned (cleanRepeatedChars o text) in
  cleaned (cleanRepeatedChars o once) = once
  /\ (length once <= length text)%nat
  /\ (forall r, In r (runs once) -> found r && reaches o r = false).
Proof.
  cbv zeta; rewrite !cleanRepeatedChars_runs, runs_collapsed.
  split; [|split].
  - rewrite map_map; f_equal; apply map_ext, collapseReaching_idempotent.
  - rewrite <- (expand_runs text) at 2; rewrite !expand_length.
    induction (runs text) as [|r rs IH]; [simpl; lia|].
    cbn [map list_sum].
    assert (H : (snd (collapseReaching o r) <= snd r)%nat).
    { unfold collapseReaching; destruct (found r && reaches o r) eqn:E;
        [|lia].
      apply andb_true_iff in E; destruct E as [Hf _]; destruct r as [c n].
      destruct (found_true c n Hf) as [_ Hn]; cbn [snd]; lia. }
    simpl list_sum; lia.
  - intros r Hr; apply in_map_iff in Hr; destruct Hr as (r0 & <- & _).
    destruct (found r0 && reaches o r0) eqn:E.
    + assert (H : collapseReaching o r0 = (fst r0, 2%nat))
        by (unfold collapseReaching; rewrite E; reflexivity).
      rewrite H; unfold found; simpl; rewrite andb_false_r; reflexivity.
    + assert (H : collapseReaching o r0 = r0)
        by (unfold collapseReaching; rewrite E; reflexivity).
      rewrite H; exact E.
Qed.

End CharPassMore.

Section UrlPass.

Import RegExp SpamCleaner.

(** A quantified class takes every unit of the class that follows,
    and needs [min] of them. *)
Lemma repeat_class (i : bool) (cc : CharClass) (fuel min : nat)
    (s : JSString) :
  (min + length s <= fuel)%nat ->
  repeatMatcher
    (fun s1 caps1 d =>
       m i (Chr cc) s1 (clearCaptures (groups (Chr cc)) caps1) d)
    accept fuel min None s [] =
  if (min <=? classLength i cc s)%nat
  then Some (skipn (classLength i cc s) s, [])
  else None.
Proof.
  revert min s; induction fuel as [|fuel IH]; intros min s Hfuel.
  - assert (min = 0%nat) by lia; subst min.
    destruct s as [|y s]; [reflexivity | cbn [length] in Hfuel; lia].
  - cbn [repeatMatcher option_map m groups clearCaptures filter].
    destruct s as [|y s].
    + cbn [classLength skipn]; destruct min; reflexivity.
    + cbn [classLength].
      destruct (charMatches i cc y).
      * replace (length (y :: s) <=? length s)%nat with false
          by (symmetry; apply Nat.leb_gt; cbn [length]; lia).
        rewrite andb_false_r, IH by (cbn [length] in Hfuel; lia).
        cbn [skipn].
        destruct (Nat.leb_spec (pred min) (classLength i cc s)) as [Hle | Hgt].
        -- replace (min <=? S (classLength i cc s))%nat with true
             by (symmetry; apply Nat.leb_le; lia).
           reflexivity.
        -- replace (min <=? S (classLength i cc s))%nat with false
             by (symmetry; apply Nat.leb_gt; lia).
           destruct min; [lia | reflexivity].
      * destruct min; reflexivity.
Qed.

(** [/\s+/] at the front of a text: all the white space there, when
    there is some. *)
Lemma matchAt_spaces (s : JSString) :
  matchAt false reSpaces s =
  if (1 <=? classLength false Space s)%nat
  then Some (skipn (classLength false Space s) s, [])
  else None.
Proof.
  unfold matchAt, reSpaces, Plus; cbn [m].
  apply repeat_class; lia.
Qed.

Lemma classLength_le (i : bool) (cc : CharClass) (s : JSString) :
  (classLength i cc s <= length s)%nat.
Proof.
  induction s as [|c s IH]; simpl; [lia|].
  destruct (charMatches i cc c); simpl; lia.
Qed.

(** What [replace(/\s+/g, ' ')] returns holds no white space but the
    space. *)
Lemma spaces_replaced (s before : JSString) (skip : nat) :
  forallb plainSpace
    (replaceLoop false reSpaces (fun _ _ _ _ => str " ") before skip s) = true.
Proof.
  revert before skip; induction s as [|c s IH]; intros before skip.
  - destruct skip; reflexivity.
  - destruct skip as [|k]; [|apply IH].
    cbn [replaceLoop]; rewrite matchAt_spaces; cbn [classLength charMatches].
    destruct (isWhiteSpace c) eqn:Ec.
    + cbn [Nat.leb skipn].
      pose proof (classLength_le false Space s) as Hle.
      replace (length (c :: s) - length (skipn (classLength false Space s) s))%nat
        with (S (classLength false Space s))
        by (rewrite length_skipn; cbn [length]; lia).
      cbn [Nat.eqb app str list_ascii_of_string forallb].
      rewrite IH; reflexivity.
    + cbn [Nat.leb forallb]; unfold plainSpace at 1; rewrite Ec, IH.
      reflexivity.
Qed.

Lemma forallb_trimStart (p : ascii -> bool) (s : JSString) :
  forallb p s = true -> forallb p (trimStart s) = true.
Proof.
  induction s as [|c s IH]; simpl; [reflexivity|].
  intros H; destruct (isWhiteSpace c); [|exact H].
  apply andb_true_iff in H; apply IH, H.
Qed.

Lemma forallb_rev (p : ascii -> bool) (s : JSString) :
  forallb p s = true -> forallb p (rev s) = true.
Proof.
  rewrite !forallb_forall; intros H x Hx; apply H, in_rev, Hx.
Qed.

Lemma forallb_trim (p : ascii -> bool) (s : JSString) :
  forallb p s = true -> forallb p (trim s) = true.
Proof.
  intros H; unfold trim, trimEnd.
  apply forallb_rev, forallb_trimStart, forallb_rev, forallb_trimStart, H.
Qed.

Lemma plainSpace_not_terminator (c : ascii) :
  plainSpace c = true -> isLineTerminator c = false.
Proof.
  destruct c as [[] [] [] [] [] [] [] []]; vm_compute; intros H;
    first [reflexivity | discriminate H].
Qed.

Lemma runs_In (s : JSString) (c : ascii) (n : nat) :
  In (c, n) (runs s) -> In c s.
Proof.
  remember (runs s) as rs eqn:E; symmetry in E.
  revert s E; induction rs as [|[d k] rs IH]; intros s E; [intros []|].
  destruct (runs_inv s d k rs E) as (s' & -> & Hs' & Hk & _).
  intros [H | H]; apply in_or_app.
  - injection H as -> ->; left; destruct n; [lia | left; reflexivity].
  - right; exact (IH s' Hs' H).
Qed.

(** X15.  The text [cleanUrls] returns holds no white space but
    single-unit spaces U+0020 (no tab, no line break), and none at
    its ends.  The character pass of [clean] works on such a text, so
    there it finds every run of three or more identical units. *)
Theorem cleanUrls_plain_spaces (text : JSString) :
  forallb plainSpace (cleanUrls text) = true
  /\ trim (cleanUrls text) = cleanUrls text
  /\ (forall r, In r (runs (cleanUrls text)) -> found r = (3 <=? snd r)%nat).
Proof.
  assert (H : forallb plainSpace (cleanUrls text) = true).
  { unfold cleanUrls; apply forallb_trim; unfold replaceWith.
    apply spaces_replaced. }
  split; [exact H|]; split; [unfold cleanUrls; apply trim_idempotent|].
  intros [c n] Hr; unfold found; cbn [fst snd].
  rewrite forallb_forall in H.
  rewrite (plainSpace_not_terminator c (H c (runs_In _ c n Hr))).
  reflexivity.
Qed.

End UrlPass.

(* ================================================================== *)
(** * Further properties of ConfigurableReplacer *)

Section MoreReplacer.

Import RegExp ConfigurableReplacer.

Lemma strip_loop (s before : JSString) :
  replaceLoop false (Chr (Lit "\"))
    (fun matched _ before after => getSubstitution matched before after [])
    before 0 s =
  filter notBackslash s.
Proof.
  revert before; induction s as [|c s IH]; intros before; [reflexivity|].
  cbn [replaceLoop filter]; unfold matchAt; cbn [m charMatches].
  unfold notBackslash at 1.
  destruct (Ascii.eqb c "\"); cbn [negb accept].
  - replace (length (c :: s) - length s)%nat with 1%nat
      by (cbn [length]; lia).
    cbn [Nat.eqb Nat.sub getSubstitution app]; apply IH.
  - f_equal; apply IH.
Qed.

(** [replace(/\\/g, '')] drops the backslashes and nothing else. *)
Lemma stripBackslashes_filter (s : JSString) :
  stripBackslashes s = filter notBackslash s.
Proof. apply strip_loop. Qed.

(** X16.  With [removeBackslashes], which is the default, what
    [replaceInString] returns is the text after the patterns with every
    backslash dropped and nothing else: the result holds no backslash,
    also none that came in with a data value. *)
Theorem replaceInString_no_backslash
    (functionSource : JSString -> JSString)
    (cfg : ReplacementConfig) (text : JSString) (data : ReplacementData) :
  replaceInString functionSource (mkConfig cfg true) text data =
    filter notBackslash (applyPatterns functionSource (entries cfg) data text)
  /\ ~ In "\"%char (replaceInString functionSource (mkConfig cfg true) text data).
Proof.
  unfold replaceInString; cbn [replacements removeBackslashes].
  rewrite stripBackslashes_filter; split; [reflexivity|].
  intros H; apply filter_In in H; destruct H as [_ H]; discriminate H.
Qed.

Lemma absent_loop (p v s before : JSString) :
  includes s p = false ->
  replaceLoop false (Lits p) (substitute v) before 0 s = s.
Proof.
  revert before; induction s as [|c s IH]; intros before H.
  - cbn [replaceLoop]; rewrite matchAt_Lits.
    simpl in H; rewrite orb_false_r in H; rewrite H; reflexivity.
  - cbn [includes] in H; apply orb_false_iff in H; destruct H as [H1 H2].
    rewrite replaceLoop_copy by (rewrite matchAt_Lits, H1; reflexivity).
    f_equal; apply IH, H2.
Qed.

(** A pattern that does not occur changes nothing. *)
Lemma replace_absent (p v s : JSString) :
  includes s p = false -> RegExp.replace false (Lits p) v s = s.
Proof. apply absent_loop. Qed.

Lemma applyPatterns_absent (functionSource : JSString -> JSString)
    (es : list (JSString * ReplacementOption)) (text : JSString)
    (data : ReplacementData) :
  (forall entry, In entry es -> includes text (fst entry) = false) ->
  applyPatterns functionSource es data text = text.
Proof.
  intros H; unfold applyPatterns; induction es as [|[p opts] es IH];
    [reflexivity|].
  cbn [fold_left applyPattern].
  unfold patternRegex; rewrite replace_absent
    by exact (H (p, opts) (or_introl eq_refl)).
  apply IH; intros e He; apply H; right; exact He.
Qed.

(** X17.  A text in which no pattern of the mapping occurs is
    returned as it is, but for the backslashes that [removeBackslashes]
    drops. *)
Theorem replaceInString_without_patterns
    (functionSource : JSString -> JSString)
    (cfg : ReplacementConfig) (text : JSString) (data : ReplacementData) :
  (forall entry, In entry cfg -> includes text (fst entry) = false) ->
  applyPatterns functionSource cfg data text = text
  /\ applyPatterns functionSource (entries cfg) data text = text
  /\ replaceInString functionSource (mkConfig cfg false) text data = text
  /\ replaceInString functionSource (mkConfig cfg true) text data =
     filter notBackslash text.
Proof.
  intros H.
  assert (E : applyPatterns functionSource (entries cfg) data text = text).
  { apply applyPatterns_absent; intros e He; apply H, entries_In, He. }
  split; [apply applyPatterns_absent, H|]; split; [exact E|].
  unfold replaceInString; cbn [replacements removeBackslashes]; rewrite E.
  split; [reflexivity | apply stripBackslashes_filter].
Qed.

Lemma getSubstitution_literal (matched before after v : JSString) :
  dollarFree v = true -> getSubstitution matched before after v = v.
Proof.
  unfold dollarFree; induction v as [|c v IH]; [reflexivity|].
  cbn [forallb getSubstitution]; intros H; apply andb_true_iff in H.
  destruct H as [Hc Hv]; apply negb_true_iff in Hc; rewrite Hc.
  f_equal; exact (IH Hv).
Qed.

(** X18.  A text that is exactly one pattern becomes the replacement
    value of the pattern expanded as a replacement template, in which
    the matched text is the pattern and nothing stands before or after
    it; a value without dollar sign is put in as it is. *)
Theorem applyPattern_whole_text
    (functionSource : JSString -> JSString)
    (data : ReplacementData) (pattern : JSString) (options : ReplacementOption) :
  pattern <> [] ->
  applyPattern functionSource data pattern (pattern, options) =
    getSubstitution pattern [] [] (replaceValue functionSource data options)
  /\ (dollarFree (replaceValue functionSource data options) = true ->
      applyPattern functionSource data pattern (pattern, options) =
      replaceValue functionSource data options).
Proof.
  intros Hp.
  assert (E : applyPattern functionSource data pattern (pattern, options) =
              getSubstitution pattern [] []
                (replaceValue functionSource data options)).
  { pose proof (replaceLoop_first_occurrence pattern
                  (replaceValue functionSource data options) [] [] [] Hp eq_refl)
      as H.
    cbn [app] in H; rewrite app_nil_r in H.
    unfold applyPattern, RegExp.replace, replaceWith, patternRegex.
    fold (substitute (replaceValue functionSource data options)); rewrite H.
    destruct pattern as [|c p]; [congruence|].
    cbn [replaceLoop]; rewrite matchAt_Lits; cbn [startsWith].
    apply app_nil_r. }
  split; [exact E|].
  intros Hd; rewrite E; apply getSubstitution_literal, Hd.
Qed.

End MoreReplacer.

Section MoreReplacerExamples.

Import RegExp ConfigurableReplacer.

Lemma replaceInString_without_patterns_witness :
  (forall entry, In entry getDefaultReplacements ->
                 includes (str "hello\ world") (fst entry) = false)
  /\ replaceInString nativeCode defaultConfig (str "hello\ world") [] =
     str "hello world".
Proof.
  assert (H : forall entry, In entry getDefaultReplacements ->
                includes (str "hello\ world") (fst entry) = false).
  { intros entry Hin.
    assert (Hall : forallb
                     (fun e => negb (includes (str "hello\ world") (fst e)))
                     getDefaultReplacements = true) by reflexivity.
    rewrite forallb_forall in Hall; apply negb_true_iff, Hall, Hin. }
  split; [exact H|].
  destruct (replaceInString_without_patterns nativeCode getDefaultReplacements
              (str "hello\ world") [] H) as (_ & _ & _ & E).
  exact E.
Defined.

Lemma applyPattern_whole_text_witness :
  str "nickname" <> []
  /\ dollarFree
       (replaceValue nativeCode []
          (mkOption (str "nickname") (str "testUser"))) = true
  /\ applyPattern nativeCode [] (str "nickname")
       (str "nickname", mkOption (str "nickname") (str "testUser")) =
     str "testUser".
Proof.
  assert (Hp : str "nickname" <> []) by discriminate.
  destruct (applyPattern_whole_text nativeCode [] (str "nickname")
              (mkOption (str "nickname") (str "testUser")) Hp)
    as (_ & H).
  split; [exact Hp|]; split; [reflexivity | exact (H eq_refl)].
Defined.

(** The value of a data key that names a property of
    [Object.prototype]: the data inherits it, so the default value is
    not used. *)
Lemma replaceValue_inherited :
  replaceValue nativeCode [] (mkOption (str "constructor") (str "nobody")) =
    str "function Object() { [native code] }"
  /\ replaceValue nativeCode [] (mkOption (str "__proto__") (str "nobody")) =
    str "[object Object]"
  /\ replaceValue nativeCode [] (mkOption (str "nickname") (str "nobody")) =
    str "nobody".
Proof. vm_compute; repeat split. Qed.

End MoreReplacerExamples.

Section Tracking.

Import RegExp ConfigurableReplacer.

Variable functionSource : JSString -> JSString.

Variables (text : JSString) (data : ReplacementData).

Lemma track_none (fuel : nat) (es : list (JSString * ReplacementOption)) :
  fold_left (trackPattern functionSource fuel text data) es None = None.
Proof. induction es as [|[p opts] es IH]; [reflexivity | exact IH]. Qed.

Lemma track_some (fuel : nat) (es : list (JSString * ReplacementOption))
    (st : Tracking) :
  nonEmptyPatterns es = true -> (length text < fuel)%nat ->
  exists st',
    fold_left (trackPattern functionSource fuel text data) es (Some st) =
    Some st'.
Proof.
  intros H Hf; revert st H; induction es as [|[p opts] es IH];
    intros [cur mp] H.
  - eexists; reflexivity.
  - cbn [nonEmptyPatterns forallb fst] in H; apply andb_true_iff in H.
    destruct H as [Hp H].
    assert (Hne : p <> []) by (destruct p; [discriminate Hp | discriminate]).
    cbn [fold_left trackPattern]; unfold patternRegex.
    destruct (trackMatches_ends p
                (mapSet (replaceValue functionSource data opts)
                   (mkMapping p (dataKey opts)
                      (replaceValue functionSource data opts)))
                fuel text mp Hne Hf) as [mp' ->].
    apply IH, H.
Qed.

Lemma track_empty (fuel : nat) (es : list (JSString * ReplacementOption))
    (st : option Tracking) :
  nonEmptyPatterns es = false ->
  fold_left (trackPattern functionSource fuel text data) es st = None.
Proof.
  revert st; induction es as [|[p opts] es IH]; intros st H;
    [discriminate|].
  cbn [nonEmptyPatterns forallb fst] in H.
  destruct p as [|c p].
  - cbn [fold_left]; destruct st as [[cur mp]|]; cbn [trackPattern];
      [|apply track_none].
    unfold patternRegex; rewrite trackMatches_empty; apply track_none.
  - cbn [fold_left]; apply IH; exact H.
Qed.

(** X19.  The tracking variant returns exactly when no pattern of the
    mapping is the empty text.  With an empty pattern the loop over the
    matches does not end, however many iterations are run; without one
    every loop ends within as many iterations as the text has units,
    and one more. *)
Theorem tracking_ends_without_empty_pattern
    (cfg : ReplacementConfig) (rb : bool) (mp : ReplacementMap) :
  (nonEmptyPatterns cfg = false ->
   forall fuel,
     replaceInStringWithTracking functionSource fuel (mkConfig cfg rb) text
       data mp = None)
  /\ (nonEmptyPatterns cfg = true ->
      forall fuel, (length text < fuel)%nat ->
      exists out mp',
        replaceInStringWithTracking functionSource fuel (mkConfig cfg rb) text
          data mp = Some (out, mp')).
Proof.
  unfold replaceInStringWithTracking; cbn [replacements removeBackslashes].
  split; intros H fuel; rewrite <- nonEmptyPatterns_entries in H.
  - pose proof (track_empty fuel (entries cfg) (Some (text, mp)) H) as E.
    destruct (fold_left _ _ _) as [[cur0 mp0]|]; [discriminate E|reflexivity].
  - intros Hf.
    destruct (track_some fuel (entries cfg) (text, mp) H Hf) as ([cur mp'] & E).
    destruct (fold_left _ _ _) as [[cur0 mp0]|]; [|discriminate E].
    eexists; eexists; reflexivity.
Qed.

Lemma mapSet_In (key : JSString) (value : ReplacementMapping)
    (mp : ReplacementMap) (k : JSString) (v : ReplacementMapping) :
  In (k, v) (mapSet key value mp) -> (k, v) = (key, value) \/ In (k, v) mp.
Proof.
  induction mp as [|[k0 v0] mp IH]; cbn [mapSet].
  - intros [H | []]; left; symmetry; exact H.
  - destruct (eqb k0 key) eqn:E.
    + apply eqb_eq in E; subst k0.
      intros [H | H]; [left; symmetry; exact H | right; right; exact H].
    + intros [H | H]; [right; left; exact H|].
      destruct (IH H) as [H' | H']; [left; exact H' | right; right; exact H'].
Qed.

Lemma mapSet_keys (key : JSString) (value : ReplacementMapping)
    (mp : ReplacementMap) :
  In key (mapKeys (mapSet key value mp))
  /\ (forall k, In k (mapKeys mp) -> In k (mapKeys (mapSet key value mp))).
Proof.
  unfold mapKeys; induction mp as [|[k0 v0] mp [IH1 IH2]]; cbn [mapSet].
  - split; [left; reflexivity | intros k []].
  - destruct (eqb k0 key) eqn:E.
    + apply eqb_eq in E; subst k0; split; [left; reflexivity|].
      intros k H; exact H.
    + split; [right; exact IH1|].
      intros k [H | H]; [left; exact H | right; apply IH2, H].
Qed.

(** What the loop over the matches leaves in the map: an entry it
    adds is the one it sets, and it sets it only when [exec] finds a
    match. *)
Lemma trackMatches_In (r : Regex) (key : JSString) (value : ReplacementMapping)
    (fuel : nat) (s : JSString) (mp mp' : ReplacementMap)
    (k : JSString) (v : ReplacementMapping) :
  trackMatches r (mapSet key value) fuel s mp = Some mp' ->
  In (k, v) mp' ->
  ((exists res, exec false r s = Some res) /\ (k, v) = (key, value))
  \/ In (k, v) mp.
Proof.
  revert s mp; induction fuel as [|fuel IH]; intros s mp; [discriminate|].
  cbn [trackMatches].
  destruct (exec false r s) as [[matched rest]|] eqn:E.
  - intros Ht Hin; destruct (IH _ _ Ht Hin) as [[_ Heq] | Hm].
    + left; split; [eexists; reflexivity | exact Heq].
    + destruct (mapSet_In _ _ _ _ _ Hm) as [Heq | Hold];
        [left; split; [eexists; reflexivity | exact Heq] | right; exact Hold].
  - intros [= <-] Hin; right; exact Hin.
Qed.

Lemma trackMatches_keys (r : Regex) (key : JSString) (value : ReplacementMapping)
    (fuel : nat) (s : JSString) (mp mp' : ReplacementMap) :
  trackMatches r (mapSet key value) fuel s mp = Some mp' ->
  ((exists res, exec false r s = Some res) -> In key (mapKeys mp'))
  /\ (forall k, In k (mapKeys mp) -> In k (mapKeys mp')).
Proof.
  revert s mp; induction fuel as [|fuel IH]; intros s mp; [discriminate|].
  cbn [trackMatches].
  destruct (exec false r s) as [[matched rest]|] eqn:E.
  - intros Ht; destruct (IH _ _ Ht) as [_ K2].
    destruct (mapSet_keys key value mp) as [M1 M2].
    split; [intros _; apply K2, M1 | intros k Hk; apply K2, M2, Hk].
  - intros [= <-]; split; [intros [res H]; discriminate H | tauto].
Qed.

(** X20.  The tracking map is written from the text as it came in,
    not from the running text: an entry that the call adds belongs to a
    pattern that occurs in the incoming text, with the value put in for
    it as its key; and the value of every pattern that occurs there is a
    key of the map afterwards. *)
Theorem tracking_records_incoming_text
    (fuel : nat) (cfg : ReplacementConfig) (rb : bool)
    (mp mp' : ReplacementMap) (out : JSString) :
  replaceInStringWithTracking functionSource fuel (mkConfig cfg rb) text data mp
    = Some (out, mp') ->
  (forall k v, In (k, v) mp' ->
     In (k, v) mp
     \/ exists p opts,
          In (p, opts) (entries cfg) /\ In (p, opts) cfg
          /\ includes text p = true
          /\ k = replaceValue functionSource data opts
          /\ v = mkMapping p (dataKey opts)
                   (replaceValue functionSource data opts))
  /\ (forall p opts, In (p, opts) (entries cfg) -> includes text p = true ->
        In (replaceValue functionSource data opts) (mapKeys mp'))
  /\ (forall k, In k (mapKeys mp) -> In k (mapKeys mp')).
Proof.
  unfold replaceInStringWithTracking; cbn [replacements removeBackslashes].
  destruct (fold_left _ (entries cfg) _) as [[cur mpf]|] eqn:F; [|discriminate].
  intros [= _ <-]; clear out.
  assert (Hsub : forall e, In e (entries cfg) -> In e cfg)
    by (intros e; apply entries_In).
  revert Hsub F; generalize (entries cfg) as es.
  generalize dependent mp; generalize text at 2 as cur0.
  intros cur0 mp0 es; revert cur0 mp0.
  induction es as [|[p opts] es IH]; intros cur0 mp0 Hsub F.
  - cbn [fold_left] in F; injection F as _ <-.
    split; [intros k v H; left; exact H|]; split;
      [intros p opts [] | intros k H; exact H].
  - cbn [fold_left trackPattern] in F.
    set (val := replaceValue functionSource data opts) in *.
    destruct (trackMatches (patternRegex p)
                (mapSet val (mkMapping p (dataKey opts) val)) fuel text mp0)
      as [mp1|] eqn:T; [|rewrite track_none in F; discriminate].
    destruct (IH _ _ (fun e He => Hsub e (or_intror He)) F) as (H1 & H2 & H3);
      clear IH.
    destruct (trackMatches_keys _ _ _ _ _ _ _ T) as [K1 K2].
    unfold patternRegex in *.
    split; [|split].
    + intros k v Hin; destruct (H1 k v Hin) as [Hm | (q & qo & Hq & Hrest)].
      * destruct (trackMatches_In _ _ _ _ _ _ _ _ _ T Hm) as [[Hex E] | Hold];
          [|left; exact Hold].
        right; exists p, opts; injection E as -> ->.
        split; [left; reflexivity|].
        split; [apply Hsub; left; reflexivity|].
        split; [apply exec_Lits_includes, Hex | split; reflexivity].
      * right; exists q, qo; split; [right; exact Hq | exact Hrest].
    + intros q qo [E | Hq] Hi; [|exact (H2 q qo Hq Hi)].
      injection E as <- <-; apply H3, K1, exec_Lits_includes, Hi.
    + intros k Hk; apply H3, K2, Hk.
Qed.

End Tracking.

Section TrackingExamples.

Import ConfigurableReplacer.

Lemma tracking_ends_without_empty_pattern_witness :
  nonEmptyPatterns emptyPattern = false
  /\ nonEmptyPatterns getDefaultReplacements = true
  /\ (length (str "user") < 5)%nat
  /\ replaceInStringWithTracking nativeCode 1000 (mkConfig emptyPattern true)
       (str "user") [] [] = None
  /\ exists out mp',
       replaceInStringWithTracking nativeCode 5 defaultConfig (str "user")
         [] [] = Some (out, mp').
Proof.
  assert (Hf : (length (str "user") < 5)%nat) by (cbn; lia).
  split; [reflexivity|]; split; [reflexivity|]; split; [exact Hf|]; split.
  - exact (proj1 (tracking_ends_without_empty_pattern nativeCode (str "user")
                    [] emptyPattern true []) eq_refl 1000%nat).
  - exact (proj2 (tracking_ends_without_empty_pattern nativeCode (str "user")
                    [] getDefaultReplacements true []) eq_refl 5%nat Hf).
Defined.

Lemma tracking_records_incoming_text_witness :
  replaceInStringWithTracking nativeCode 9 defaultConfig (str "uniqueId")
    superuser [] =
    Some (str "super",
          [(str "superuser",
            mkMapping (str "uniqueId") (str "uniqueId") (str "superuser"))])
  /\ (forall k, In k (mapKeys ([] : ReplacementMap)) ->
        In k (mapKeys [(str "superuser",
                        mkMapping (str "uniqueId") (str "uniqueId")
                          (str "superuser"))])).
Proof.
  assert (H : replaceInStringWithTracking nativeCode 9 defaultConfig
                (str "uniqueId") superuser [] =
              Some (str "super",
                    [(str "superuser",
                      mkMapping (str "uniqueId") (str "uniqueId")
                        (str "superuser"))])) by (vm_compute; reflexivity).
  split; [exact H|].
  exact (proj2 (proj2 (tracking_records_incoming_text nativeCode
                         (str "uniqueId") superuser 9 getDefaultReplacements
                         true [] _ _ H))).
Defined.

End TrackingExamples.

(* ================================================================== *)
(** * Properties of ConfigurableReplacer.replace *)

Section Copy.

Import ConfigurableReplacer.

Variable functionSource : JSString -> JSString.

Variables (c : Config) (data : ReplacementData).

Lemma processRecursively_object (proto : Proto Value)
    (props : list (JSString * Value)) :
  processRecursively functionSource c (VObject proto props) data =
  if constructorIsObject (VObject proto props) then
    VObject (fst (copyEach functionSource c data props emptyObject))
            (snd (copyEach functionSource c data props emptyObject))
  else VObject proto props.
Proof. reflexivity. Qed.

Lemma distinct_NoDup (keys : list JSString) :
  distinct keys = true -> NoDup keys.
Proof.
  induction keys as [|k keys IH]; cbn [distinct]; [constructor|].
  intros H; apply andb_true_iff in H; destruct H as [Hk H].
  constructor; [|exact (IH H)].
  intros Hin; apply negb_true_iff in Hk.
  apply existsb_eqb_In in Hin; congruence.
Qed.

Lemma existsb_eqb_not_In (k : JSString) (keys : list JSString) :
  existsb (eqb k) keys = false -> ~ In k keys.
Proof. intros H Hin; apply existsb_eqb_In in Hin; congruence. Qed.

Lemma defineProperty_fresh {V} (key : JSString) (value : V)
    (props : list (JSString * V)) :
  ~ In key (map fst props) ->
  defineProperty key value props = props ++ [(key, value)].
Proof.
  induction props as [|[k v] props IH]; intros H; [reflexivity|].
  cbn [defineProperty app map fst In] in *.
  destruct (eqb k key) eqn:E.
  - apply eqb_eq in E; destruct H; left; exact E.
  - rewrite IH; [reflexivity | tauto].
Qed.

(** The loop over properties with pairwise different keys, none of
    them [__proto__], copies them one after the other. *)
Lemma copyEach_plain (l acc : list (JSString * Value)) :
  NoDup (map fst l) -> ~ In (str "__proto__") (map fst l) ->
  (forall k, In k (map fst l) -> ~ In k (map fst acc)) ->
  copyEach functionSource c data l (ObjectPrototype, acc) =
  (ObjectPrototype,
   acc ++ map (fun e => (fst e, processRecursively functionSource c (snd e) data))
              l).
Proof.
  revert acc; induction l as [|[k v] l IH]; intros acc Hnd Hp Hfresh.
  - cbn [copyEach map]; rewrite app_nil_r; reflexivity.
  - cbn [map fst] in Hnd, Hp, Hfresh; apply NoDup_cons_iff in Hnd.
    destruct Hnd as [Hk Hnd].
    cbn [copyEach assign].
    assert (E : eqb k (str "__proto__") = false).
    { destruct (eqb k (str "__proto__")) eqn:E; [|reflexivity].
      apply eqb_eq in E; destruct Hp; left; exact E. }
    rewrite E; cbn [andb].
    rewrite defineProperty_fresh by (apply Hfresh; left; reflexivity).
    rewrite IH.
    + cbn [map fst snd]; rewrite <- app_assoc; reflexivity.
    + exact Hnd.
    + intros H; apply Hp; right; exact H.
    + intros k' Hk'; rewrite map_app, in_app_iff; cbn [map fst In].
      intros [H | [<- | []]]; [|exact (Hk Hk')].
      exact (Hfresh k' (or_intror Hk') H).
Qed.

(** The copy of an object that has the key [__proto__] once at most
    has no own property of that name. *)
Lemma copyEach_no_proto (l : list (JSString * Value)) (o : Obj) :
  NoDup (map fst l) ->
  hasOwn (str "__proto__") (snd o) = false ->
  (In (str "__proto__") (map fst l) -> fst o = ObjectPrototype) ->
  hasOwn (str "__proto__") (snd (copyEach functionSource c data l o)) = false.
Proof.
  revert o; induction l as [|[k v] l IH]; intros [proto acc] Hnd Hacc Hproto;
    [exact Hacc|].
  cbn [map fst] in Hnd, Hproto; apply NoDup_cons_iff in Hnd.
  destruct Hnd as [Hk Hnd]; cbn [fst snd] in *.
  cbn [copyEach]; apply IH; [exact Hnd| |].
  - cbn [assign]; destruct (eqb k (str "__proto__")) eqn:E; cbn [andb].
    + apply eqb_eq in E; subst k.
      rewrite (Hproto (or_introl eq_refl)); cbn [findsProtoAccessor].
      rewrite Hacc.
      destruct (processRecursively functionSource c v data); exact Hacc.
    + cbn [snd]; apply hasOwn_not_In; rewrite defineProperty_keys.
      apply hasOwn_not_In in Hacc.
      destruct (hasOwn k acc); [exact Hacc|].
      rewrite in_app_iff; intros [H | [H | []]]; [exact (Hacc H)|].
      subst k; rewrite eqb_refl in E; discriminate.
  - intros Hin; cbn [assign].
    destruct (eqb k (str "__proto__")) eqn:E; cbn [andb].
    + apply eqb_eq in E; subst k; destruct (Hk Hin).
    + cbn [fst]; apply Hproto; right; exact Hin.
Qed.

Lemma plain_object (proto : Proto Value) (props : list (JSString * Value)) :
  plain (VObject proto props) = true ->
  proto = ObjectPrototype /\ NoDup (map fst props)
  /\ ~ In (str "__proto__") (map fst props)
  /\ ~ In (str "constructor") (map fst props)
  /\ Forall (fun e => plain (snd e) = true) props.
Proof.
  cbn [plain]; intros H.
  repeat (apply andb_true_iff in H; destruct H as [H ?]).
  split; [destruct proto; [reflexivity | discriminate | discriminate]|].
  split; [apply distinct_NoDup; assumption|].
  split; [apply existsb_eqb_not_In, negb_true_iff; assumption|].
  split; [apply existsb_eqb_not_In, negb_true_iff; assumption|].
  match goal with
  | Hv : _ props = true |- _ =>
      clear -Hv; induction props as [|[k v] props IH]; [constructor|];
      apply andb_true_iff in Hv; destruct Hv as [Hv1 Hv2];
      constructor; [exact Hv1 | exact (IH Hv2)]
  end.
Qed.

(** X21.  [replace] keeps the shape of an input as an object literal
    without the keys [__proto__] and [constructor] gives it: the
    nesting, the length of every array, the keys of every object in
    their order, and every leaf that is not a text; only texts are
    rewritten.  An object with an own property [constructor] is
    returned as it is, the texts in it not rewritten; and an own
    property [__proto__] of an object is not copied. *)
Theorem replace_keeps_shape (input : Input) :
  (plain input = true ->
   shape (replace functionSource c input data) = shape input)
  /\ (forall proto props,
        input = VObject proto props ->
        hasOwn (str "constructor") props = true ->
        replace functionSource c input data = input)
  /\ (forall props,
        input = VObject ObjectPrototype props ->
        NoDup (map fst props) ->
        hasOwn (str "constructor") props = false ->
        exists proto' props',
          replace functionSource c input data = VObject proto' props'
          /\ hasOwn (str "__proto__") props' = false).
Proof.
  unfold replace; split; [|split].
  - revert input.
    apply (Value_nested
             (fun input =>
                plain input = true ->
                shape (processRecursively functionSource c input data) =
                shape input)).
    + intros [ | | b | n | s | items | proto props]; try reflexivity; exact I.
    + intros items H Hp; cbn [processRecursively shape]; f_equal.
      cbn [plain] in Hp; rewrite forallb_forall in Hp.
      rewrite map_map; induction H as [|x l Hx _ IH]; [reflexivity|].
      cbn [map]; rewrite Hx, IH; [reflexivity| |].
      * intros y Hy; apply Hp; right; exact Hy.
      * apply Hp; left; reflexivity.
    + intros proto props _ H Hp.
      destruct (plain_object _ _ Hp) as (-> & Hnd & Hproto & Hcons & Hall).
      rewrite processRecursively_object; cbn [constructorIsObject].
      apply hasOwn_not_In in Hcons; rewrite Hcons.
      unfold emptyObject.
      rewrite (copyEach_plain props [] Hnd Hproto (fun _ _ H => H)).
      cbn [fst snd app shape]; f_equal.
      clear -H Hall; induction H as [|[k v] l Hv _ IH]; [reflexivity|].
      apply Forall_cons_iff in Hall; destruct Hall as [Hpv Hall].
      cbn [map fst snd] in *; rewrite (Hv Hpv), (IH Hall); reflexivity.
  - intros proto props -> Hc; rewrite processRecursively_object.
    cbn [constructorIsObject]; rewrite Hc; reflexivity.
  - intros props -> Hnd Hc; rewrite processRecursively_object.
    cbn [constructorIsObject]; rewrite Hc.
    eexists; eexists; split; [reflexivity|].
    apply copyEach_no_proto; [exact Hnd | reflexivity | reflexivity].
Qed.

End Copy.

Section CopyExamples.

Import ConfigurableReplacer.

Lemma replace_keeps_shape_witness :
  plain plainInput = true
  /\ shape (replace nativeCode defaultConfig plainInput []) = shape plainInput
  /\ hasOwn (str "constructor")
       [(str "constructor", VString (str "user")); (str "a", VString (str "user"))]
     = true
  /\ replace nativeCode defaultConfig constructorInput [] = constructorInput.
Proof.
  destruct (replace_keeps_shape nativeCode defaultConfig [] plainInput)
    as (H1 & _ & _).
  destruct (replace_keeps_shape nativeCode defaultConfig [] constructorInput)
    as (_ & H2 & _).
  split; [reflexivity|]; split; [exact (H1 eq_refl)|].
  split; [reflexivity | exact (H2 _ _ eq_refl eq_refl)].
Defined.

(** An input with an own property [__proto__]: the copy has the other
    property, rewritten, and not this one. *)
Lemma replace_drops_proto :
  replace nativeCode (mkConfig getDefaultReplacements true) protoInput
    [(str "user", DString (str "Ana"))] =
  VObject ObjectPrototype [(str "a", VString (str "Ana"))].
Proof. vm_compute; reflexivity. Qed.

End CopyExamples.

(* ================================================================== *)
(** * Properties of the webhook payload *)

Section Payload.

Import Utils.

Lemma firstPresent_present (keys : list JSString) (obj : Value) (v : Value) :
  firstPresent keys obj = Some v -> present (Some v) = true.
Proof.
  induction keys as [|k keys IH]; cbn [firstPresent]; [discriminate|].
  destruct (ownProperty obj k) as [[]|]; try exact IH;
    intros [= <-]; reflexivity.
Qed.

(** The search below a property, as the search function has it. *)
Lemma findValue_object (keys : list JSString) (proto : Proto Value)
    (props : list (JSString * Value)) :
  findValue keys (VObject proto props) =
  if inheritsHasOwnProperty (VObject proto props) then
    match firstPresent keys (VObject proto props) with
    | Some v => Returns (Some v)
    | None =>
        match nested keys (str "data") props with
        | Throws => Throws
        | Returns (Some v) => Returns (Some v)
        | Returns None => nested keys (str "payload") props
        end
    end
  else Throws.
Proof.
  cbn [findValue]; destruct (inheritsHasOwnProperty _); [|reflexivity].
  destruct (firstPresent keys (VObject proto props)); [reflexivity|].
  assert (H : forall name,
             (fix scan (l : list (JSString * Value))
                : Completion (option Value) :=
                match l with
                | [] => Returns None
                | (k, v) :: l' =>
                    if eqb k name
                    then if isObjectType v then findValue keys v
                         else Returns None
                    else scan l'
                end) props = nested keys name props).
  { intros name; unfold nested; induction props as [|[k v] props IH];
      [reflexivity|].
    cbn [getOwn]; destruct (eqb k name); [reflexivity | exact IH]. }
  rewrite !H; reflexivity.
Qed.

(** The search never returns [null] or a value that is [undefined]. *)
Lemma findValue_present (keys : list JSString) (v w : Value) :
  findValue keys v = Returns (Some w) -> present (Some w) = true.
Proof.
  revert v w; apply (Value_nested
    (fun v => forall w, findValue keys v = Returns (Some w) ->
                        present (Some w) = true)).
  - intros [ | | b | n | s | items | proto props]; try exact I; discriminate.
  - intros items _ w; cbn [findValue]; intros [= H].
    exact (firstPresent_present _ _ _ H).
  - intros proto props _ H w; rewrite findValue_object.
    destruct (inheritsHasOwnProperty _); [|discriminate].
    destruct (firstPresent keys (VObject proto props)) as [u|] eqn:F.
    { intros [= <-]; exact (firstPresent_present _ _ _ F). }
    assert (Hn : forall name u, nested keys name props = Returns (Some u) ->
                                present (Some u) = true).
    { intros name u; unfold nested.
      destruct (getOwn name props) as [x|] eqn:E; [|discriminate].
      destruct (isObjectType x); [|discriminate].
      rewrite Forall_forall in H; exact (H _ (getOwn_In name props x E) u). }
    destruct (nested keys (str "data") props) as [[u|]|] eqn:D;
      [intros [= <-]; exact (Hn _ _ D) | apply Hn | discriminate].
Qed.

(** A search for no key finds nothing. *)
Lemma findValue_no_keys (v : Value) (r : option Value) :
  findValue [] v = Returns r -> r = None.
Proof.
  revert v r; apply (Value_nested
    (fun v => forall r, findValue [] v = Returns r -> r = None)).
  - intros [ | | b | n | s | items | proto props]; try exact I;
      intros r [= <-]; reflexivity.
  - intros items _ r [= <-]; reflexivity.
  - intros proto props _ H r; rewrite findValue_object; cbn [firstPresent].
    destruct (inheritsHasOwnProperty _); [|discriminate].
    assert (Hn : forall name u, nested [] name props = Returns u -> u = None).
    { intros name u; unfold nested.
      destruct (getOwn name props) as [x|] eqn:E; [|intros [= <-]; reflexivity].
      destruct (isObjectType x); [|intros [= <-]; reflexivity].
      rewrite Forall_forall in H; exact (H _ (getOwn_In name props x E) u). }
    destruct (nested [] (str "data") props) as [[u|]|] eqn:D;
      [|apply Hn | discriminate].
    discriminate (Hn _ _ D).
Qed.

Lemma extractValue_present (obj : Value) (keys : list JSString) (w : Value) :
  extractValue obj keys = Returns (Some w) -> present (Some w) = true.
Proof.
  unfold extractValue; destruct obj; try discriminate;
    apply findValue_present.
Qed.

Lemma extractValue_no_keys (obj : Value) (r : option Value) :
  extractValue obj [] = Returns r -> r = None.
Proof.
  unfold extractValue; destruct obj; try (intros [= <-]; reflexivity);
    apply findValue_no_keys.
Qed.

Lemma select_same (r : Messages) (e : option Value)
    (keys : list (Messages -> option Value)) :
  (forall w, e = Some w -> present e = true) ->
  (forall key, In key keys -> key r = e \/ key r = None) ->
  (exists key rest, keys = key :: rest /\ key r = e) ->
  selectValueByPriority r keys = e.
Proof.
  intros Hn Hall (key & rest & -> & Hk).
  cbn [selectValueByPriority]; rewrite Hk.
  destruct e as [v|].
  - specialize (Hn v eq_refl); destruct v; try reflexivity; discriminate Hn.
  - assert (Hrest : forall key', In key' rest -> key' r = None).
    { intros key' Hin; destruct (Hall key' (or_intror Hin)) as [H | H];
        [rewrite H; reflexivity | exact H]. }
    clear Hall Hk; induction rest as [|k' rest IH]; [reflexivity|].
    cbn [selectValueByPriority]; rewrite (Hrest k' (or_introl eq_refl)).
    apply IH; intros key' Hin; apply Hrest; right; exact Hin.
Qed.

(** ** Keys without case *)

Lemma normalizeObject_object (proto : Proto Value)
    (props : list (JSString * Value)) :
  normalizeObject (VObject proto props) =
  VObject (fst (lowerEach props emptyObject))
          (snd (lowerEach props emptyObject)).
Proof. reflexivity. Qed.

(** No key in lower case is the name [hasOwnProperty]. *)
Lemma toLowerCase_hasOwnProperty (k : JSString) :
  toLowerCase k <> str "hasOwnProperty".
Proof.
  assert (Hc : forall c, lowerChar c <> "O"%char).
  { intros [[] [] [] [] [] [] [] []]; vm_compute; discriminate. }
  destruct k as [|c0 [|c1 [|c2 [|c3 k]]]]; try discriminate.
  cbn [toLowerCase map]; intros H; injection H as _ _ _ H _.
  exact (Hc c3 H).
Qed.

(** The keys of the object the loop builds are in lower case. *)
Lemma lowerEach_keys (l : list (JSString * Value)) (o : Obj) (k : JSString) :
  In k (map fst (snd (lowerEach l o))) ->
  In k (map fst (snd o)) \/ exists k', k = toLowerCase k'.
Proof.
  revert o; induction l as [|[key value] l IH]; intros [proto acc];
    [left; assumption|].
  cbn [lowerEach]; intros H; destruct (IH _ H) as [Hin | Hex];
    [|right; exact Hex].
  clear IH H; cbn [assign] in Hin.
  destruct (eqb (toLowerCase key) (str "__proto__")
            && findsProtoAccessor (VObject proto acc)).
  - left; destruct (normalizeObject value); exact Hin.
  - cbn [snd] in *; rewrite defineProperty_keys in Hin.
    destruct (hasOwn (toLowerCase key) acc); [left; exact Hin|].
    apply in_app_or in Hin; destruct Hin as [Hin | [<- | []]];
      [left; exact Hin | right; eexists; reflexivity].
Qed.

Lemma normalized_hasOwnProperty (props : list (JSString * Value)) :
  hasOwn (str "hasOwnProperty") (snd (lowerEach props emptyObject)) = false.
Proof.
  apply hasOwn_not_In; intros H.
  destruct (lowerEach_keys _ _ _ H) as [[] | [k' E]].
  exact (toLowerCase_hasOwnProperty k' (eq_sym E)).
Qed.

(** Without a key that is [__proto__] without regard to case the
    prototype stays and every assignment defines a property. *)
Lemma lowerEach_fst (l : list (JSString * Value)) (o : Obj) :
  protoFreeKeys l = true -> fst (lowerEach l o) = fst o.
Proof.
  revert o; induction l as [|[key value] l IH]; intros [proto acc] H;
    [reflexivity|].
  cbn [protoFreeKeys forallb fst] in H; apply andb_true_iff in H.
  destruct H as [Hk H]; apply negb_true_iff in Hk.
  cbn [lowerEach assign]; rewrite Hk; cbn [andb].
  rewrite (IH _ H); reflexivity.
Qed.

Lemma lastWith_init (name : JSString) (l : list (JSString * Value))
    (init : option Value) :
  fold_left
    (fun found e => if eqb (toLowerCase (fst e)) name then Some (snd e) else found)
    l init =
  match lastWith name l with
  | Some v => Some v
  | None => init
  end.
Proof.
  unfold lastWith; revert init; induction l as [|[k v] l IH]; intros init;
    [reflexivity|].
  cbn [fold_left fst snd].
  rewrite IH, (IH (if eqb (toLowerCase k) name then Some v else None)).
  destruct (fold_left _ l None); [reflexivity|].
  destruct (eqb (toLowerCase k) name); reflexivity.
Qed.

Lemma lastWith_cons (name k : JSString) (v : Value)
    (l : list (JSString * Value)) :
  lastWith name ((k, v) :: l) =
  match lastWith name l with
  | Some w => Some w
  | None => if eqb (toLowerCase k) name then Some v else None
  end.
Proof. unfold lastWith at 1; cbn [fold_left fst snd]; apply lastWith_init. Qed.

Lemma lastWith_In (name : JSString) (l : list (JSString * Value)) (v : Value) :
  lastWith name l = Some v ->
  exists k, In (k, v) l /\ toLowerCase k = name.
Proof.
  induction l as [|[k w] l IH]; [discriminate|].
  rewrite lastWith_cons; destruct (lastWith name l) as [u|].
  - intros [= ->]; destruct (IH eq_refl) as (k' & Hin & E).
    exists k'; split; [right; exact Hin | exact E].
  - destruct (eqb (toLowerCase k) name) eqn:E; [|discriminate].
    intros [= ->]; exists k; split; [left; reflexivity | apply eqb_eq, E].
Qed.

(** The property that the loop leaves under a name is the last one of
    that name without regard to case. *)
Lemma lowerEach_getOwn (name : JSString) (l : list (JSString * Value))
    (o : Obj) :
  protoFreeKeys l = true ->
  getOwn name (snd (lowerEach l o)) =
  match lastWith name l with
  | Some v => Some (normalizeObject v)
  | None => getOwn name (snd o)
  end.
Proof.
  revert o; induction l as [|[key value] l IH]; intros [proto acc] H;
    [reflexivity|].
  cbn [protoFreeKeys forallb fst] in H; apply andb_true_iff in H.
  destruct H as [Hk H]; apply negb_true_iff in Hk.
  cbn [lowerEach assign]; rewrite Hk; cbn [andb].
  rewrite (IH _ H), lastWith_cons; cbn [snd].
  destruct (lastWith name l); [reflexivity|].
  destruct (eqb (toLowerCase key) name) eqn:E.
  - apply eqb_eq in E; subst name; apply getOwn_defineProperty_same.
  - apply getOwn_defineProperty_other; intros Heq; subst name.
    rewrite eqb_refl in E; discriminate.
Qed.

Lemma normalizeObject_present (v : Value) :
  present (Some (normalizeObject v)) = present (Some v).
Proof. destruct v; reflexivity. Qed.

(** What the search finds at the top of a normalized object. *)
Lemma firstPresent_normalized (proto : Proto Value)
    (props : list (JSString * Value)) (keys : list JSString) :
  protoFreeKeys props = true ->
  firstPresent (map toLowerCase keys) (normalizeObject (VObject proto props)) =
  firstWith props keys.
Proof.
  intros H; rewrite normalizeObject_object.
  induction keys as [|k keys IH]; [reflexivity|].
  cbn [map firstPresent ownProperty firstWith].
  rewrite (lowerEach_getOwn _ _ _ H).
  cbn [emptyObject snd getOwn].
  destruct (lastWith (toLowerCase k) props) as [v|]; [|exact IH].
  rewrite <- (normalizeObject_present v).
  destruct (normalizeObject v); cbn [present]; try reflexivity; exact IH.
Qed.

Lemma firstWith_first (props : list (JSString * Value))
    (before : list JSString) (key : JSString) (after : list JSString)
    (v : Value) :
  (forall p, In p before -> present (lastWith (toLowerCase p) props) = false) ->
  lastWith (toLowerCase key) props = Some v -> present (Some v) = true ->
  firstWith props (before ++ key :: after) = Some (normalizeObject v).
Proof.
  intros Hbefore Hkey Hv; induction before as [|p before IH];
    cbn [app firstWith].
  - rewrite Hkey, Hv; reflexivity.
  - pose proof (Hbefore p (or_introl eq_refl)) as Hp.
    destruct (lastWith (toLowerCase p) props) as [w|].
    + rewrite Hp; apply IH; intros q Hq; apply Hbefore; right; exact Hq.
    + apply IH; intros q Hq; apply Hbefore; right; exact Hq.
Qed.

Lemma firstWith_absent (props : list (JSString * Value))
    (keys : list JSString) :
  (forall p, In p keys -> present (lastWith (toLowerCase p) props) = false) ->
  firstWith props keys = None.
Proof.
  intros H; induction keys as [|p keys IH]; [reflexivity|].
  cbn [firstWith]; pose proof (H p (or_introl eq_refl)) as Hp.
  destruct (lastWith (toLowerCase p) props) as [w|].
  - rewrite Hp; apply IH; intros q Hq; apply H; right; exact Hq.
  - apply IH; intros q Hq; apply H; right; exact Hq.
Qed.

Lemma normalized_inherits (proto : Proto Value)
    (props : list (JSString * Value)) :
  protoFreeKeys props = true ->
  inheritsHasOwnProperty (normalizeObject (VObject proto props)) = true.
Proof.
  intros H; rewrite normalizeObject_object; cbn [inheritsHasOwnProperty].
  rewrite normalized_hasOwnProperty, (lowerEach_fst _ _ H); reflexivity.
Qed.

Lemma nested_normalized (keys : list JSString) (name : JSString)
    (props : list (JSString * Value)) :
  protoFreeKeys props = true ->
  nested keys name (snd (lowerEach props emptyObject)) =
  match lastWith name props with
  | Some v =>
      if isObjectType v then findValue keys (normalizeObject v)
      else Returns None
  | None => Returns None
  end.
Proof.
  intros H; unfold nested; rewrite (lowerEach_getOwn _ _ _ H).
  destruct (lastWith name props) as [v|]; [|reflexivity].
  destruct v; reflexivity.
Qed.

(** ** Bodies without the key [__proto__] *)

Lemma protoFree_object (proto : Proto Value) (props : list (JSString * Value)) :
  protoFree (VObject proto props) = true ->
  protoFreeKeys props = true /\ Forall (fun e => protoFree (snd e) = true) props.
Proof.
  cbn [protoFree]; intros H; apply andb_true_iff in H; destruct H as [H1 H2].
  split; [exact H1|].
  induction props as [|[k v] props IH]; [constructor|].
  apply andb_true_iff in H2; destruct H2 as [Hv H2].
  cbn [protoFreeKeys forallb] in H1; apply andb_true_iff in H1.
  constructor; [exact Hv | apply IH; tauto].
Qed.

(** The search in a normalized body without such a key returns. *)
Lemma findValue_returns (keys : list JSString) (v : Value) :
  protoFree v = true ->
  exists r, findValue keys (normalizeObject v) = Returns r.
Proof.
  revert v; apply (Value_nested
    (fun v => protoFree v = true ->
              exists r, findValue keys (normalizeObject v) = Returns r)).
  - intros [ | | b | n | s | items | proto props]; try exact I;
      intros _; eexists; reflexivity.
  - intros items _ _; eexists; reflexivity.
  - intros proto props _ H Hp.
    destruct (protoFree_object _ _ Hp) as [Hk Hall].
    pose proof (normalized_inherits proto props Hk) as Hi.
    rewrite normalizeObject_object in *; rewrite findValue_object, Hi.
    destruct (firstPresent keys _); [eexists; reflexivity|].
    assert (Hn : forall name,
               exists r, nested keys name (snd (lowerEach props emptyObject))
                         = Returns r).
    { intros name; rewrite (nested_normalized _ _ _ Hk).
      destruct (lastWith name props) as [x|] eqn:E; [|eexists; reflexivity].
      destruct (isObjectType x); [|eexists; reflexivity].
      destruct (lastWith_In _ _ _ E) as (k & Hin & _).
      rewrite Forall_forall in H, Hall.
      exact (H _ Hin (Hall _ Hin)). }
    destruct (Hn (str "data")) as [[u|] ->]; [eexists; reflexivity | apply Hn].
Qed.

(** ** Bodies with the key [__proto__] *)

Lemma lowerEach_app (l1 l2 : list (JSString * Value)) (o : Obj) :
  lowerEach (l1 ++ l2) o = lowerEach l2 (lowerEach l1 o).
Proof.
  revert o; induction l1 as [|[k v] l1 IH]; intros o; [reflexivity|].
  cbn [app lowerEach]; apply IH.
Qed.

Lemma lastWith_protoFree (l : list (JSString * Value)) :
  protoFreeKeys l = true -> lastWith (str "__proto__") l = None.
Proof.
  induction l as [|[k v] l IH]; [reflexivity|].
  cbn [protoFreeKeys forallb fst]; intros H; apply andb_true_iff in H.
  destruct H as [Hk H]; apply negb_true_iff in Hk.
  rewrite lastWith_cons, (IH H), Hk; reflexivity.
Qed.

(** A property [__proto__], in any letter case, that holds [null] and
    is the only one of that name leaves the normalized object without
    prototype. *)
Lemma lowerEach_null (l1 l2 : list (JSString * Value)) (k : JSString) :
  toLowerCase k = str "__proto__" ->
  protoFreeKeys l1 = true -> protoFreeKeys l2 = true ->
  fst (lowerEach (l1 ++ (k, VNull) :: l2) emptyObject) = NullPrototype.
Proof.
  intros Hk H1 H2; rewrite lowerEach_app; cbn [lowerEach].
  rewrite (lowerEach_fst _ _ H2).
  pose proof (lowerEach_fst l1 emptyObject H1) as Hf.
  pose proof (lowerEach_getOwn (str "__proto__") l1 emptyObject H1) as Hg.
  rewrite (lastWith_protoFree _ H1) in Hg.
  destruct (lowerEach l1 emptyObject) as [proto acc].
  cbn [emptyObject fst snd getOwn] in *; rewrite Hf.
  cbn [assign normalizeObject findsProtoAccessor]; unfold hasOwn.
  rewrite Hk, Hg; reflexivity.
Qed.

Lemma indexKey_not_proto (i : nat) :
  eqb (toLowerCase (indexKey i)) (str "__proto__") = false.
Proof. unfold indexKey; destruct (Nat.to_uint i); reflexivity. Qed.

Lemma protoFree_indexed (proto : Proto Value) (items : list Value) :
  forallb protoFree items = true ->
  protoFree (VObject proto (indexed items)) = true.
Proof.
  unfold indexed; generalize 0%nat as start.
  induction items as [|x items IH]; intros start H; [reflexivity|].
  cbn [forallb] in H; apply andb_true_iff in H; destruct H as [Hx H].
  specialize (IH (S start) H).
  cbn [protoFree length seq map combine protoFreeKeys forallb fst] in *.
  rewrite indexKey_not_proto, Hx; exact IH.
Qed.

Lemma extractValue_returns (body : Value) (keys : list JSString) :
  protoFree body = true -> exists r, extractValue body keys = Returns r.
Proof.
  intros H; unfold extractValue, normalizeKeysToLowercase.
  destruct body; try (eexists; reflexivity).
  - apply findValue_returns, protoFree_indexed, H.
  - apply findValue_returns, H.
Qed.

(** X22.  Of a webhook body the handler uses two values: [user] is
    what [extractValue] finds for the display keys and [msg] what it
    finds for the content keys; the ten fields in between carry nothing
    else, and [uniqueId] is never filled.  [processIaResponse] throws
    exactly when one of its searches does.  It returns for every body
    without a key that is [__proto__] without regard to case, and it
    throws for an object whose only such key holds [null]; a body that
    is neither an object nor an array gives neither value. *)
Theorem contentTEXT_of_response (body : Value) :
  (forall msgs, processIaResponse body = Returns msgs ->
     exists user msg,
       extractValue body ORIGINAL_USER_DISPLAY_KEYS = Returns user
       /\ extractValue body ORIGINAL_MESSAGE_CONTENT_KEYS = Returns msg
       /\ contentTEXT msgs = (user, msg)
       /\ uniqueId msgs = None)
  /\ (processIaResponse body = Throws <->
      extractValue body ORIGINAL_USER_IDENTIFIER_KEYS = Throws
      \/ extractValue body [] = Throws
      \/ extractValue body ORIGINAL_USER_DISPLAY_KEYS = Throws
      \/ extractValue body ORIGINAL_MESSAGE_CONTENT_KEYS = Throws)
  /\ (protoFree body = true ->
      exists msgs, processIaResponse body = Returns msgs)
  /\ (forall proto l1 k l2,
        body = VObject proto (l1 ++ (k, VNull) :: l2) ->
        toLowerCase k = str "__proto__" ->
        protoFreeKeys l1 = true -> protoFreeKeys l2 = true ->
        processIaResponse body = Throws)
  /\ (match body with
      | VObject _ _ | VArray _ => True
      | _ => exists msgs, processIaResponse body = Returns msgs
                          /\ contentTEXT msgs = (None, None)
      end).
Proof.
  assert (Hthrow : forall proto l1 k l2,
             body = VObject proto (l1 ++ (k, VNull) :: l2) ->
             toLowerCase k = str "__proto__" ->
             protoFreeKeys l1 = true -> protoFreeKeys l2 = true ->
             processIaResponse body = Throws).
  { intros proto l1 k l2 -> Hk H1 H2.
    assert (E : extractValue (VObject proto (l1 ++ (k, VNull) :: l2))
                  ORIGINAL_USER_IDENTIFIER_KEYS = Throws).
    { unfold extractValue, normalizeKeysToLowercase.
      rewrite normalizeObject_object, findValue_object.
      cbn [inheritsHasOwnProperty].
      rewrite normalized_hasOwnProperty, (lowerEach_null _ _ _ Hk H1 H2).
      reflexivity. }
    unfold processIaResponse; rewrite E; reflexivity. }
  assert (Hlast : match body with
                  | VObject _ _ | VArray _ => True
                  | _ => exists msgs, processIaResponse body = Returns msgs
                                      /\ contentTEXT msgs = (None, None)
                  end)
    by (destruct body; try exact I; eexists; split; reflexivity).
  unfold processIaResponse in *.
  change (filter (fun k => negb (eqb k (str "id")))
            ORIGINAL_USER_IDENTIFIER_KEYS) with (@nil JSString) in *.
  split; [|split; [|split; [|split; [exact Hthrow | exact Hlast]]]].
  - intros msgs.
    destruct (extractValue body ORIGINAL_USER_IDENTIFIER_KEYS) as [i|];
      [|discriminate].
    destruct (extractValue body []) as [u|] eqn:Eu; [|discriminate].
    destruct (extractValue body ORIGINAL_USER_DISPLAY_KEYS) as [user|] eqn:Ed;
      [|discriminate].
    destruct (extractValue body ORIGINAL_MESSAGE_CONTENT_KEYS) as [msg|] eqn:Ec;
      [|discriminate].
    cbn [andThen]; intros [= <-].
    pose proof (extractValue_no_keys _ _ Eu) as ->.
    exists user, msg; repeat split.
    unfold contentTEXT; f_equal.
    + apply select_same.
      * intros w ->; exact (extractValue_present _ _ _ Ed).
      * intros key [<- | [<- | [<- | [<- | []]]]];
          try (left; reflexivity); right; reflexivity.
      * eexists; eexists; split; reflexivity.
    + apply select_same.
      * intros w ->; exact (extractValue_present _ _ _ Ec).
      * intros key [<- | [<- | [<- | [<- | [<- | []]]]]]; left; reflexivity.
      * eexists; eexists; split; reflexivity.
  - destruct (extractValue body ORIGINAL_USER_IDENTIFIER_KEYS) as [i|];
      [|split; [left; reflexivity | reflexivity]].
    destruct (extractValue body []) as [u|];
      [|split; [right; left; reflexivity | reflexivity]].
    destruct (extractValue body ORIGINAL_USER_DISPLAY_KEYS) as [user|];
      [|split; [right; right; left; reflexivity | reflexivity]].
    destruct (extractValue body ORIGINAL_MESSAGE_CONTENT_KEYS) as [msg|];
      [|split; [right; right; right; reflexivity | reflexivity]].
    cbn [andThen]; split; [discriminate|].
    intros [H | [H | [H | H]]]; discriminate H.
  - intros Hp.
    destruct (extractValue_returns body ORIGINAL_USER_IDENTIFIER_KEYS Hp)
      as [i ->].
    destruct (extractValue_returns body [] Hp) as [u ->].
    destruct (extractValue_returns body ORIGINAL_USER_DISPLAY_KEYS Hp)
      as [user ->].
    destruct (extractValue_returns body ORIGINAL_MESSAGE_CONTENT_KEYS Hp)
      as [msg ->].
    eexists; reflexivity.
Qed.

(** X23.  [extractValue] takes the keys of the object without regard
    to case, and the first possible key that the object has with a
    value decides, whatever keys come after it and before anything
    nested: its value is returned, a nested object with its own keys in
    lower case.  Of two properties with the same key without regard to
    case the later one counts. *)
Theorem extractValue_first_key
    (proto : Proto Value) (props : list (JSString * Value))
    (before : list JSString) (key : JSString) (after : list JSString)
    (v : Value) :
  protoFreeKeys props = true ->
  (forall p, In p before -> present (lastWith (toLowerCase p) props) = false) ->
  lastWith (toLowerCase key) props = Some v -> present (Some v) = true ->
  extractValue (VObject proto props) (before ++ key :: after) =
  Returns (Some (normalizeObject v)).
Proof.
  intros Hk Hbefore Hkey Hv; unfold extractValue, normalizeKeysToLowercase.
  pose proof (normalized_inherits proto props Hk) as Hi.
  pose proof (firstPresent_normalized proto props (before ++ key :: after) Hk)
    as Hf.
  rewrite normalizeObject_object in *; rewrite findValue_object, Hi, Hf.
  rewrite (firstWith_first _ _ _ _ _ Hbefore Hkey Hv); reflexivity.
Qed.

Lemma firstPresent_absent (proto : Proto Value)
    (props : list (JSString * Value)) (keys : list JSString) :
  protoFreeKeys props = true ->
  (forall p, In p keys -> present (lastWith (toLowerCase p) props) = false) ->
  firstPresent (map toLowerCase keys) (normalizeObject (VObject proto props))
  = None.
Proof.
  intros Hk H; rewrite (firstPresent_normalized _ _ _ Hk).
  apply firstWith_absent, H.
Qed.

(** X24.  When the object has none of the possible keys with a value
    at its top, [extractValue] goes on below its property [data],
    whatever the case of that name: what the search finds in that
    object is the result, and when the search throws there, it
    throws. *)
Theorem extractValue_below_data
    (proto dproto : Proto Value) (props dprops : list (JSString * Value))
    (keys : list JSString) (r : Completion (option Value)) :
  protoFreeKeys props = true ->
  (forall p, In p keys -> present (lastWith (toLowerCase p) props) = false) ->
  lastWith (str "data") props = Some (VObject dproto dprops) ->
  extractValue (VObject dproto dprops) keys = r -> r <> Returns None ->
  extractValue (VObject proto props) keys = r.
Proof.
  intros Hk Hnone Hdata Hr Hsome.
  unfold extractValue, normalizeKeysToLowercase in *.
  pose proof (normalized_inherits proto props Hk) as Hi.
  pose proof (firstPresent_absent proto props keys Hk Hnone) as Hf.
  rewrite (normalizeObject_object proto props) in *.
  rewrite findValue_object, Hi, Hf, (nested_normalized _ _ _ Hk), Hdata.
  cbn [isObjectType]; rewrite Hr.
  destruct r as [[w|]|]; [reflexivity | congruence | reflexivity].
Qed.

End Payload.

Section PayloadExamples.

Import Utils.

Lemma contentTEXT_of_response_witness :
  protoFree chatEvent = true
  /\ exists msgs,
       processIaResponse chatEvent = Returns msgs
       /\ contentTEXT msgs =
          (Some (VString (str "Ana")), Some (VString (str "hola")))
       /\ uniqueId msgs = None.
Proof.
  destruct (contentTEXT_of_response chatEvent) as (H1 & _ & H3 & _ & _).
  split; [reflexivity|].
  destruct (H3 eq_refl) as [msgs E]; exists msgs; split; [exact E|].
  destruct (H1 msgs E) as (user & msg & Eu & Em & Ec & Hu).
  split; [|exact Hu].
  rewrite Ec; vm_compute in Eu, Em.
  injection Eu as <-; injection Em as <-; reflexivity.
Defined.

(** A body whose key [__proto__] holds [null]: the normalized object
    has no prototype, so the first call of its [hasOwnProperty]
    throws. *)
Lemma processIaResponse_throws :
  protoFree nullProto = false
  /\ normalizeObject nullProto =
     VObject NullPrototype [(str "nickname", VString (str "Ana"))]
  /\ extractValue nullProto ORIGINAL_USER_IDENTIFIER_KEYS = Throws
  /\ processIaResponse nullProto = Throws.
Proof. vm_compute; repeat split. Qed.

Lemma extractValue_first_key_witness :
  protoFreeKeys
    [(str "eventName", VString (str "chat"));
     (str "NickName", VString (str "Ana"));
     (str "Data", VObject ObjectPrototype
                    [(str "Comment", VString (str "hola"));
                     (str "likes", VNumber 3)])] = true
  /\ extractValue chatEvent [str "displayName"; str "nickname"; str "username"]
     = Returns (Some (VString (str "Ana"))).
Proof.
  split; [reflexivity|].
  apply (extractValue_first_key ObjectPrototype _ [str "displayName"]
           (str "nickname") [str "username"] (VString (str "Ana"))).
  - reflexivity.
  - intros p [<- | []]; reflexivity.
  - reflexivity.
  - reflexivity.
Defined.

Lemma extractValue_below_data_witness :
  extractValue chatEvent ORIGINAL_MESSAGE_CONTENT_KEYS =
  Returns (Some (VString (str "hola"))).
Proof.
  apply (extractValue_below_data ObjectPrototype ObjectPrototype _
           [(str "Comment", VString (str "hola")); (str "likes", VNumber 3)]
           ORIGINAL_MESSAGE_CONTENT_KEYS).
  - reflexivity.
  - intros p [<- | [<- | [<- | [<- | [<- | []]]]]]; reflexivity.
  - reflexivity.
  - reflexivity.
  - discriminate.
Defined.

End PayloadExamples.

(* ================================================================== *)
(** * Properties of MessageQueue *)

Section Queue.

Import MessageQueue.

(** What [find] with a change in place does: nothing when no message
    is found, else it changes the first one found. *)
Lemma changeFirst_none (p : Message -> bool) (g : Message -> Message)
    (l : list Message) :
  (forall m, In m l -> p m = false) -> changeFirst p g l = None.
Proof.
  induction l as [|m l IH]; intros H; [reflexivity|].
  cbn [changeFirst]; rewrite (H m (or_introl eq_refl)).
  rewrite IH; [reflexivity|]; intros x Hx; apply H; right; exact Hx.
Qed.

Lemma changeFirst_some (p : Message -> bool) (g : Message -> Message)
    (pre post : list Message) (m : Message) :
  (forall x, In x pre -> p x = false) -> p m = true ->
  changeFirst p g (pre ++ m :: post) = Some (pre ++ g m :: post, g m).
Proof.
  intros Hpre Hm; induction pre as [|x pre IH]; cbn [app changeFirst].
  - rewrite Hm; reflexivity.
  - rewrite (Hpre x (or_introl eq_refl)), IH; [reflexivity|].
    intros y Hy; apply Hpre; right; exact Hy.
Qed.

Lemma first_split (p : Message -> bool) (l : list Message) :
  (forall m, In m l -> p m = false)
  \/ exists pre m post,
       l = pre ++ m :: post /\ (forall x, In x pre -> p x = false)
       /\ p m = true.
Proof.
  induction l as [|x l IH]; [left; intros m []|].
  destruct (p x) eqn:E.
  - right; exists [], x, l; repeat split; [intros y []| exact E].
  - destruct IH as [H | (pre & m & post & -> & Hpre & Hm)].
    + left; intros m [<- | Hin]; [exact E | exact (H m Hin)].
    + right; exists (x :: pre), m, post; repeat split; [|exact Hm].
      intros y [<- | Hy]; [exact E | exact (Hpre y Hy)].
Qed.

Lemma filter_pre (p : Message -> bool) (pre : list Message) :
  (forall x, In x pre -> p x = false) -> filter p pre = [].
Proof. apply filter_none. Qed.


(** X26.  [getNextUnread()] works first in, first out: it returns the
    oldest unread message, marked as read and stamped, takes exactly that
    one off the unread messages, and returns nothing when there is none.
    Either way the queue keeps its length and is written to the
    storage. *)
Theorem getNextUnread_first_in_first_out (now : Date) (q : Queue) :
  let q' := fst (getNextUnread now true q) in
  snd (getNextUnread now true q) =
    option_map (setRead true now) (hd_error (unread q))
  /\ unread q' = tl (unread q)
  /\ size q' = size q
  /\ saved q' = queue q' :: saved q.
Proof.
  cbv zeta; unfold getNextUnread, unread, size.
  destruct (first_split (fun m => negb (isRead m)) (queue q))
    as [H | (pre & m & post & E & Hpre & Hm)].
  - rewrite (changeFirst_none _ _ _ H); cbn [fst snd queue saved save].
    rewrite !(filter_none _ _ H); repeat split.
  - rewrite E, (changeFirst_some _ _ pre post m Hpre Hm).
    cbn [fst snd queue saved save].
    rewrite !filter_app, (filter_pre _ pre Hpre); cbn [filter app].
    rewrite Hm; cbn [setRead isRead negb hd_error option_map tl].
    rewrite !length_app; repeat split.
Qed.

(** X27.  [getNextUnread(false)] does not move on: the message it
    returns stays the oldest unread one, only stamped, so the next call
    returns the message with the same id again. *)
Theorem getNextUnread_unmarked_stays (now now' : Date) (q : Queue) :
  let q' := fst (getNextUnread now false q) in
  snd (getNextUnread now false q) =
    option_map (setRead false now) (hd_error (unread q))
  /\ map id (unread q') = map id (unread q)
  /\ option_map id (snd (getNextUnread now' false q')) =
     option_map id (snd (getNextUnread now false q)).
Proof.
  cbv zeta.
  assert (H1 : forall t q0,
             snd (getNextUnread t false q0) =
             option_map (setRead false t) (hd_error (unread q0))
             /\ unread (fst (getNextUnread t false q0)) =
                match unread q0 with
                | [] => []
                | m :: rest => setRead false t m :: rest
                end).
  { intros t q0; unfold getNextUnread, unread.
    destruct (first_split (fun m => negb (isRead m)) (queue q0))
      as [H | (pre & m & post & E & Hpre & Hm)].
    - rewrite (changeFirst_none _ _ _ H); cbn [fst snd queue saved save].
      rewrite !(filter_none _ _ H); split; reflexivity.
    - rewrite E, (changeFirst_some _ _ pre post m Hpre Hm).
      cbn [fst snd queue saved save].
      rewrite !filter_app, (filter_pre _ pre Hpre); cbn [filter app].
      rewrite Hm; cbn [setRead isRead negb hd_error option_map].
      split; reflexivity. }
  destruct (H1 now q) as [Ha Hb]; destruct (H1 now' (fst (getNextUnread now false q)))
    as [Hc _].
  split; [exact Ha|]; split.
  - rewrite Hb; destruct (unread q); reflexivity.
  - rewrite Hc, Ha, Hb; destruct (unread q); reflexivity.
Qed.

Lemma markAll_unread (now : Date) (l : list Message) :
  filter (fun m => negb (isRead m))
    (map (fun m => if isRead m then m else setRead true now m) l) = [].
Proof.
  apply filter_none; intros x Hx; apply in_map_iff in Hx.
  destruct Hx as (m & <- & _); destruct (isRead m) eqn:E;
    [rewrite E | ]; reflexivity.
Qed.

(** X28.  [markAllAsRead] returns the number of messages that were
    unread and leaves none unread; the queue keeps its length, and a
    message that was read before is left as it was, with its stamp. *)
Theorem markAllAsRead_counts (now : Date) (q : Queue) :
  let q' := fst (markAllAsRead now q) in
  snd (markAllAsRead now q) = unreadSize q
  /\ unreadSize q' = 0%nat
  /\ size q' = size q
  /\ (forall m, In m (queue q) -> isRead m = true -> In m (queue q'))
  /\ snd (markAllAsRead now q') = 0%nat.
Proof.
  cbv zeta; unfold markAllAsRead, unreadSize, size.
  cbn [fst snd queue saved save].
  rewrite !markAll_unread, length_map; repeat split.
  intros m Hm Hr; apply in_map_iff; exists m; rewrite Hr; tauto.
Qed.

(** X29.  [markAsRead(id)] returns [false] and changes nothing, the
    storage included, when no message has the id; else it marks the
    first message with the id and no other, so the unread messages get
    fewer by one when that message was unread. *)
Theorem markAsRead_by_id (now : Date) (i : JSString) (q : Queue) :
  ((forall m, In m (queue q) -> id m <> i) ->
   markAsRead now i q = (q, false))
  /\ (forall pre m post,
        queue q = pre ++ m :: post ->
        (forall x, In x pre -> id x <> i) -> id m = i ->
        snd (markAsRead now i q) = true
        /\ queue (fst (markAsRead now i q)) = pre ++ setRead true now m :: post
        /\ unreadSize (fst (markAsRead now i q)) =
           (unreadSize q - (if isRead m then 0 else 1))%nat).
Proof.
  split.
  - intros H; unfold markAsRead; rewrite changeFirst_none; [reflexivity|].
    intros m Hm; destruct (eqb (id m) i) eqn:E; [|reflexivity].
    apply eqb_eq in E; destruct (H m Hm E).
  - intros pre m post E Hpre Hm; unfold markAsRead, unreadSize; rewrite E.
    rewrite (changeFirst_some (fun m => eqb (id m) i) _ pre post m).
    + cbn [fst snd queue save]; rewrite !filter_app, !length_app.
      cbn [filter setRead isRead negb]; destruct (isRead m); cbn [negb length];
        repeat split; lia.
    + intros x Hx; destruct (eqb (id x) i) eqn:Ex; [|reflexivity].
      apply eqb_eq in Ex; destruct (Hpre x Hx Ex).
    + apply eqb_eq, Hm.
Qed.

Lemma markAsRead_by_id_witness :
  (forall m, In m (queue threeMessages) -> id m <> str "z")
  /\ markAsRead 9 (str "z") threeMessages = (threeMessages, false)
  /\ unreadSize (fst (markAsRead 9 (str "b") threeMessages)) = 1%nat.
Proof.
  assert (H : forall m, In m (queue threeMessages) -> id m <> str "z").
  { intros m [<- | [<- | [<- | []]]]; discriminate. }
  split; [exact H|]; split.
  - exact (proj1 (markAsRead_by_id 9 (str "z") threeMessages) H).
  - destruct (proj2 (markAsRead_by_id 9 (str "b") threeMessages)
                [mkMessage (str "a") true 1 (Some 2) []]
                (mkMessage (str "b") false 3 None [])
                [mkMessage (str "c") false 4 None []] eq_refl)
      as (_ & _ & Hu).
    + intros x [<- | []]; discriminate.
    + reflexivity.
    + exact Hu.
Defined.

End Queue.

(* ================================================================== *)
(** * Properties of SpamCleaner.cleanRepeatedWords *)

Section WordPass.

Import RegExp SpamCleaner.

Variable o : CleanerOptions.

Lemma countSame_norm (w h : JSString) (l : list JSString) :
  norm o w = norm o h -> countSame o w l = countSame o h l.
Proof.
  intros E; induction l as [|x l IH]; [reflexivity|].
  cbn [countSame]; rewrite E, IH; reflexivity.
Qed.

(** The first run of a list of words and the words behind it. *)
Lemma wordGroups_inv (words : list JSString) (g : list JSString)
    (gs : list (list JSString)) :
  wordGroups o words = g :: gs ->
  exists w g' rest,
    g = w :: g' /\ words = g ++ rest /\ wordGroups o rest = gs
    /\ countSame o w (g' ++ rest) = length g'.
Proof.
  revert g gs; induction words as [|w rest0 IH]; intros g gs; [discriminate|].
  cbn [wordGroups]; destruct (wordGroups o rest0) as [|[|h g0] G] eqn:E.
  - intros [= <- <-]; exists w, [], rest0.
    destruct rest0 as [|x r]; [repeat split|].
    cbn [wordGroups] in E; destruct (wordGroups o r) as [|[|? ?] ?];
      try discriminate; destruct (eqb _ _); discriminate.
  - destruct (IH [] G eq_refl) as (w' & g' & rest & Hg & _); discriminate.
  - destruct (IH (h :: g0) G eq_refl) as (w' & g' & rest & Hg & Hw & HG & Hc).
    injection Hg as <- <-.
    destruct (eqb (norm o w) (norm o h)) eqn:En.
    + intros [= <- <-]; exists w, (h :: g0), rest.
      split; [reflexivity|]; split; [rewrite Hw; reflexivity|].
      split; [exact HG|].
      cbn [app countSame length]; rewrite En; f_equal.
      apply eqb_eq in En; rewrite (countSame_norm w h _ En); exact Hc.
    + intros [= <- <-]; exists w, [], rest0.
      split; [reflexivity|]; split; [reflexivity|]; split; [exact E|].
      rewrite Hw; cbn [app countSame length]; rewrite En; reflexivity.
Qed.

Lemma wordGroups_nil (words : list JSString) :
  wordGroups o words = [] -> words = [].
Proof.
  destruct words as [|w rest]; [reflexivity|]; cbn [wordGroups].
  destruct (wordGroups o rest) as [|[|h g] gs]; try discriminate.
  destruct (eqb _ _); discriminate.
Qed.

Lemma wordLoop_skip (t rest : list JSString) (st : WordScan) :
  wordLoop o (length t) (t ++ rest) st = wordLoop o 0 rest st.
Proof. induction t as [|x t IH]; [reflexivity | exact IH]. Qed.

(** One round of the outer loop at the start of a run. *)
Lemma wordLoop_group (w : JSString) (g' rest : list JSString) (st : WordScan) :
  countSame o w (g' ++ rest) = length g' ->
  wordLoop o 0 ((w :: g') ++ rest) st =
  wordLoop o 0 rest
    (if minRepetitions o <=? Z.of_nat (S (length g'))
     then mkWordScan (cleanedWords st ++ [w])
            (Z.max (maxRepetitions st) (Z.of_nat (S (length g')))) w
     else mkWordScan (cleanedWords st ++ w :: g') (maxRepetitions st)
            (spamPattern st)).
Proof.
  intros Hc; cbn [app wordLoop]; rewrite Hc.
  cbn [Nat.sub]; rewrite Nat.sub_0_r, !wordLoop_skip.
  destruct (minRepetitions o <=? Z.of_nat (S (length g'))); [reflexivity|].
  do 3 f_equal.
  change (firstn (S (length g')) (w :: g' ++ rest))
    with (w :: firstn (length g') (g' ++ rest)).
  rewrite firstn_app, Nat.sub_diag, firstn_all, firstn_O, app_nil_r.
  reflexivity.
Qed.

(** The words the word pass keeps, run by run, and its count. *)
Lemma wordLoop_groups (words : list JSString) (st : WordScan) :
  cleanedWords (wordLoop o 0 words st) =
    cleanedWords st ++ flat_map (collapseGroup o) (wordGroups o words)
  /\ maxRepetitions st <= maxRepetitions (wordLoop o 0 words st)
  /\ (forall g, In g (wordGroups o words) ->
        minRepetitions o <= Z.of_nat (length g) ->
        minRepetitions o <= maxRepetitions (wordLoop o 0 words st)).
Proof.
  remember (wordGroups o words) as G eqn:E; symmetry in E.
  revert words st E; induction G as [|g gs IH]; intros words st E.
  - apply wordGroups_nil in E; subst words; cbn [wordLoop flat_map].
    rewrite app_nil_r; repeat split; [lia | intros g []].
  - destruct (wordGroups_inv words g gs E) as (w & g' & rest & -> & -> & HG & Hc).
    rewrite (wordLoop_group w g' rest st Hc).
    set (st' := if minRepetitions o <=? Z.of_nat (S (length g')) then _ else _).
    destruct (IH rest st' HG) as (H1 & H2 & H3).
    assert (Hst : cleanedWords st' =
                  cleanedWords st ++ collapseGroup o (w :: g')
                  /\ maxRepetitions st <= maxRepetitions st'
                  /\ (minRepetitions o <= Z.of_nat (length (w :: g')) ->
                      minRepetitions o <= maxRepetitions st')).
    { subst st'; unfold collapseGroup; cbn [length].
      destruct (Z.leb_spec (minRepetitions o) (Z.of_nat (S (length g'))));
        cbn [cleanedWords maxRepetitions firstn]; repeat split; lia. }
    destruct Hst as (S1 & S2 & S3).
    split; [|split].
    + rewrite H1, S1; cbn [flat_map]; rewrite <- app_assoc; reflexivity.
    + lia.
    + intros g [<- | Hg] Hlen; [specialize (S3 Hlen); lia | exact (H3 g Hg Hlen)].
Qed.

(** X30.  The word pass cuts every maximal run of the same word that
    is at least [minRepetitions] long to its first word, in the spelling
    that word has, keeps the shorter runs word by word, and joins the
    words with single spaces; a run that long makes the text spam.  A
    text of fewer words than [minRepetitions] is returned as it is. *)
Theorem cleanRepeatedWords_collapses (text : JSString) :
  let words := split false reSpaces text in
  (minRepetitions o <= Z.of_nat (length words) ->
   cleaned (cleanRepeatedWords o text) =
     join (str " ") (flat_map (collapseGroup o) (wordGroups o words))
   /\ (forall g, In g (wordGroups o words) ->
         minRepetitions o <= Z.of_nat (length g) ->
         wasSpam (cleanRepeatedWords o text) = true))
  /\ (Z.of_nat (length words) < minRepetitions o ->
      cleanRepeatedWords o text = createResult text text false 0 None).
Proof.
  cbv zeta; unfold cleanRepeatedWords; split; intros H.
  - apply Z.ltb_ge in H; rewrite H; cbn [cleaned wasSpam createResult].
    destruct (wordLoop_groups (split false reSpaces text) (mkWordScan [] 0 []))
      as (H1 & _ & H3).
    rewrite H1; split; [reflexivity|].
    intros g Hg Hlen; apply Z.leb_le, (H3 g Hg Hlen).
  - apply Z.ltb_lt in H; rewrite H; reflexivity.
Qed.

End WordPass.

Section WordExamples.

Import RegExp SpamCleaner.

Lemma cleanRepeatedWords_collapses_witness :
  minRepetitions defaultOptions <=
    Z.of_nat (length (split false reSpaces helloRun))
  /\ cleaned (cleanRepeatedWords defaultOptions helloRun) =
     str "aa Hello world"
  /\ wasSpam (cleanRepeatedWords defaultOptions helloRun) = true.
Proof.
  assert (H : minRepetitions defaultOptions <=
              Z.of_nat (length (split false reSpaces helloRun)))
    by (vm_compute; discriminate).
  destruct (proj1 (cleanRepeatedWords_collapses defaultOptions helloRun) H)
    as [Hc Hs].
  split; [exact H|]; split.
  - rewrite Hc; vm_compute; reflexivity.
  - apply (Hs [str "Hello"; str "hello"; str "HELLO"]).
    + vm_compute; tauto.
    + vm_compute; discriminate.
Defined.

End WordExamples.

(* ================================================================== *)
(** * Instances *)

Section Instances.

Import SpamCleaner MessageQueue.

Lemma cleanRepeatedChars_idempotent_witness :
  let once := cleaned (cleanRepeatedChars fiveRepetitions threeAndFive) in
  cleaned (cleanRepeatedChars fiveRepetitions once) = once
  /\ (length once <= length threeAndFive)%nat
  /\ (forall r, In r (runs once) ->
        found r && reaches fiveRepetitions r = false).
Proof.
  exact (cleanRepeatedChars_idempotent fiveRepetitions threeAndFive).
Defined.

Lemma cleanUrls_plain_spaces_witness :
  forallb plainSpace (cleanUrls blankMessage) = true
  /\ trim (cleanUrls blankMessage) = cleanUrls blankMessage
  /\ (forall r, In r (runs (cleanUrls blankMessage)) ->
        found r = (3 <=? snd r)%nat).
Proof. exact (cleanUrls_plain_spaces blankMessage). Defined.

Lemma markAllAsRead_counts_witness :
  let q' := fst (markAllAsRead 9 threeMessages) in
  snd (markAllAsRead 9 threeMessages) = unreadSize threeMessages
  /\ unreadSize q' = 0%nat
  /\ size q' = size threeMessages
  /\ (forall m, In m (queue threeMessages) -> isRead m = true ->
        In m (queue q'))
  /\ snd (markAllAsRead 9 q') = 0%nat.
Proof. exact (markAllAsRead_counts 9 threeMessages). Defined.

End Instances.
